(** * EasyRAG SDK client: a shallow embedding of [src/client.ts] and [src/types.ts]

    The development follows the layout of the client:

    - the JavaScript values the client handles (strings as UTF-16 code
      units, JSON values, property access, truthiness, [ToString]);
    - the platform functions the client calls ([TextDecoder], [JSON.parse],
      [JSON.stringify], [encodeURIComponent], [String.prototype.split]);
    - the client itself: [EasyRAGError], the constructor, [request], the
      domain methods, and the stream decoder of [queryStream];
    - the properties of the specification, proved or refuted on that model.

    Asynchronous behaviour is made explicit: a call is run against a
    description of what the network does (when [fetch] settles and with what,
    what each read of the body delivers), and returns what the caller
    observes. *)

From Stdlib Require Import ZArith List String Ascii Lia Bool DecimalString.
From stdpp Require Import base list gmap.
Import ListNotations.
Open Scope Z_scope.
Set Warnings "-register-all".

(* ===================================================================== *)
(** ** JavaScript strings *)
(* ===================================================================== *)

(** A JavaScript string is a sequence of 16-bit code units. *)
Definition jsstring := list Z.

(** An ASCII literal as a JavaScript string. *)
Definition lit (s : string) : jsstring :=
  map (fun a => Z.of_N (N_of_ascii a)) (list_ascii_of_string s).

(** The same, with every apostrophe of the literal standing for a double
    quote (code unit 34), so that JSON text can be written in one piece. *)
Definition litq (s : string) : jsstring :=
  map (fun c => if c =? 39 then 34 else c) (lit s).

(** Bytes, as a [Uint8Array] holds them. *)
Definition byte_val (b : Byte.byte) : Z := Z.of_N (Byte.to_N b).

Definition bytes (s : string) : list Byte.byte := list_byte_of_string s.

(** Bytes of an ASCII literal in which an apostrophe stands for a double
    quote. *)
Definition bytesq (s : string) : list Byte.byte :=
  map (fun b => if Byte.eqb b Byte.x27 then Byte.x22 else b) (bytes s).

Fixpoint jsstring_eqb (a b : jsstring) : bool :=
  match a, b with
  | [], [] => true
  | x :: a', y :: b' => (x =? y) && jsstring_eqb a' b'
  | _, _ => false
  end.

(** [s.startsWith(p)] *)
Fixpoint startsWith (s p : jsstring) : bool :=
  match p, s with
  | [], _ => true
  | x :: p', y :: s' => (x =? y) && startsWith s' p'
  | _ :: _, [] => false
  end.

(** [s.slice(n)] for [0 <= n]. *)
Definition slice (s : jsstring) (n : nat) : jsstring := drop n s.

(** [s.split(sep)] for a separator of one code unit: the pieces between the
    separators, of which there is always at least one. *)
Fixpoint split (sep : Z) (s : jsstring) : list jsstring :=
  match s with
  | [] => [[]]
  | c :: s' =>
      if c =? sep then [] :: split sep s'
      else match split sep s' with
           | l :: ls => (c :: l) :: ls
           | [] => [[c]]
           end
  end.

(* ===================================================================== *)
(** ** Numbers *)
(* ===================================================================== *)

(** A number is an IEEE-754 double.  It is written [Dec mant expo], the
    decimal [mant * 10 ^ expo], and stands for the double nearest to that
    decimal ([to_double]), which is what every operation on it goes
    through.  [JSON.parse] keeps the canonical decimal of the double it
    rounds a literal to ([num_round]): the shortest digits that give the
    double back, with [expo <= 0] and no trailing zero; an integer [z] is
    [Dec z 0].  [NaN], which no JSON text denotes, and the sign of a zero,
    which no operation of the client tells, are not represented. *)
Record jsnum := Dec { mant : Z; expo : Z }.

Fixpoint strip_zeros (fuel : nat) (m e : Z) : jsnum :=
  match fuel with
  | O => Dec m e
  | S f =>
      if (e <? 0) && (m mod 10 =? 0) then strip_zeros f (m / 10) (e + 1)
      else Dec m e
  end.

Definition num_norm (m e : Z) : jsnum :=
  if m =? 0 then Dec 0 0
  else if 0 <=? e then Dec (m * 10 ^ e) 0
  else strip_zeros (Z.to_nat (- e)) m e.

Definition num_of_Z (z : Z) : jsnum := Dec z 0.

(** The doubles: zero, the finite ones [m * 2 ^ e] with [2^52 <= m < 2^53]
    (or [0 < m < 2^52] and [e = -1074] for the subnormal ones), and the
    infinities. *)
Inductive double :=
| DZero
| DFinite (negative : bool) (m e : Z)
| DInfinity (negative : bool).

(** The magnitude of a decimal as a fraction of two positive integers. *)
Definition magnitude (x : jsnum) : Z * Z :=
  if 0 <=? expo x then (Z.abs (mant x) * 10 ^ expo x, 1)
  else (Z.abs (mant x), 10 ^ (- expo x)).

(** Rounding to nearest, ties to even, goes to zero up to half the
    smallest double, [2^-1075], and to infinity from half way between the
    largest double and [2^1024] on. *)
Definition rounds_to_zero (x : jsnum) : bool :=
  let '(N, D) := magnitude x in N * 2 ^ 1075 <=? D.

Definition rounds_to_infinity (x : jsnum) : bool :=
  let '(N, D) := magnitude x in (2 ^ 1024 - 2 ^ 970) * D <=? N.

(** [N / D / 2 ^ e], rounded down, with what is left over and the divisor
    it is left over from. *)
Definition quotient2 (N D e : Z) : Z * Z * Z :=
  let num := if 0 <=? e then N else N * 2 ^ (- e) in
  let den := if 0 <=? e then D * 2 ^ e else D in
  (num / den, num mod den, den).

(** The exponent of the double nearest to [N / D]: the [e] for which
    [N / D / 2 ^ e] has 53 bits, and -1074 at least. *)
Definition binary_exponent (N D : Z) : Z :=
  let e0 := Z.log2 N - Z.log2 D - 52 in
  let q0 := fst (fst (quotient2 N D e0)) in
  let e1 := if q0 <? 2 ^ 52 then e0 - 1
            else if 2 ^ 53 <=? q0 then e0 + 1 else e0 in
  Z.max e1 (-1074).

(** [N / D / 2 ^ e] rounded to the nearest integer, ties to even. *)
Definition round_even (N D e : Z) : Z :=
  let '(q, r, den) := quotient2 N D e in
  if (den <? 2 * r) || ((den =? 2 * r) && Z.odd q) then q + 1 else q.

(** The double a decimal stands for. *)
Definition to_double (x : jsnum) : double :=
  if rounds_to_zero x then DZero
  else if rounds_to_infinity x then DInfinity (mant x <? 0)
  else
    let '(N, D) := magnitude x in
    let e := binary_exponent N D in
    let q := round_even N D e in
    if q =? 2 ^ 53 then DFinite (mant x <? 0) (2 ^ 52) (e + 1)
    else DFinite (mant x <? 0) q e.

Definition double_eqb (a b : double) : bool :=
  match a, b with
  | DZero, DZero => true
  | DFinite n m e, DFinite n' m' e' => Bool.eqb n n' && (m =? m') && (e =? e')
  | DInfinity n, DInfinity n' => Bool.eqb n n'
  | _, _ => false
  end.

(** Whether [10 ^ p <= m * 2 ^ e]. *)
Definition pow10_le (p m e : Z) : bool :=
  (if 0 <=? p then 10 ^ p else 1) * (if 0 <=? e then 1 else 2 ^ (- e))
  <=? m * (if 0 <=? e then 2 ^ e else 1) * (if 0 <=? p then 1 else 10 ^ (- p)).

(** The [n] of [Number::toString] for the double [m * 2 ^ e]:
    [10 ^ (n - 1) <= m * 2 ^ e < 10 ^ n].  The logarithm gives it within
    one, the comparisons settle it. *)
Definition decimal_exponent (m e : Z) : Z :=
  let est := (Z.log2 m + e) * 30103 / 100000 in
  if pow10_le (est + 2) m e then est + 3
  else if pow10_le (est + 1) m e then est + 2
  else if pow10_le est m e then est + 1
  else est.

(** The digits [s] of [Number::toString] for the positive double
    [m * 2 ^ e], with the exponent [n - k] that goes with them: [k], the
    number of digits, is the least for which some [s * 10 ^ (n - k)]
    stands for the double, and [s] is the one nearest to it (the even one
    of two that are as near).  Seventeen digits always do. *)
Fixpoint shortest_digits (fuel : nat) (k n m e : Z) : Z * Z :=
  let p := n - k in
  (* [m * 2 ^ e / 10 ^ p] as a fraction *)
  let num := m * (if 0 <=? e then 2 ^ e else 1)
               * (if 0 <=? p then 1 else 10 ^ (- p)) in
  let den := (if 0 <=? e then 1 else 2 ^ (- e))
             * (if 0 <=? p then 10 ^ p else 1) in
  let lo := num / den in
  let hi := lo + 1 in
  let gives s := double_eqb (to_double (Dec s p)) (DFinite false m e) in
  match fuel with
  | O => (lo, p)
  | S f =>
      if gives lo && gives hi then
        if 2 * num <? (2 * lo + 1) * den then (lo, p)
        else if (2 * lo + 1) * den <? 2 * num then (hi, p)
        else if Z.even lo then (lo, p) else (hi, p)
      else if gives lo then (lo, p)
      else if gives hi then (hi, p)
      else shortest_digits f (k + 1) n m e
  end.

Definition shortest (m e : Z) : Z * Z :=
  shortest_digits 17 1 (decimal_exponent m e) m e.

(** The canonical decimal of the double a decimal stands for; an infinity
    is kept as [2 ^ 1024]. *)
Definition num_round (x : jsnum) : jsnum :=
  match to_double x with
  | DZero => Dec 0 0
  | DInfinity negative => Dec (if negative then - 2 ^ 1024 else 2 ^ 1024) 0
  | DFinite negative m e =>
      let '(s, p) := shortest m e in
      num_norm (if negative then - s else s) p
  end.

(** Decimal digits of a natural number. *)
Definition digits_of (n : Z) : jsstring :=
  match Z.to_N n with
  | N0 => lit "0"
  | p => lit (NilEmpty.string_of_uint (N.to_uint p))
  end.

Fixpoint strip_trailing_zero_digits (d : jsstring) : jsstring :=
  match d with
  | [] => []
  | c :: d' =>
      match strip_trailing_zero_digits d' with
      | [] => if c =? 48 then [] else [c]
      | r => c :: r
      end
  end.

(** The text [Number::toString] makes of the digits [|m|] with the
    exponent [e]: [s] holds the [k] significant digits and [n] places the
    decimal point. *)
Definition digits_to_string (m e : Z) : jsstring :=
  let sign := if m <? 0 then lit "-" else [] in
  let all := digits_of (Z.abs m) in
  let s := strip_trailing_zero_digits all in
  let k := Z.of_nat (length s) in
  let n := Z.of_nat (length all) + e in
  sign ++
  (if (k <=? n) && (n <=? 21) then s ++ repeat 48 (Z.to_nat (n - k))
   else if (0 <? n) && (n <=? 21) then
     take (Z.to_nat n) s ++ lit "." ++ drop (Z.to_nat n) s
   else if (-6 <? n) && (n <=? 0) then
     lit "0." ++ repeat 48 (Z.to_nat (- n)) ++ s
   else
     let ex := (if n - 1 <? 0 then lit "-" else lit "+")
               ++ digits_of (Z.abs (n - 1)) in
     match s with
     | [] => []
     | [d] => [d] ++ lit "e" ++ ex
     | d :: ds => d :: lit "." ++ ds ++ lit "e" ++ ex
     end).

(** [Number.prototype.toString] (radix 10), following ECMA-262
    [Number::toString]. *)
Definition num_to_string (x : jsnum) : jsstring :=
  match to_double x with
  | DZero => lit "0"
  | DInfinity negative => if negative then lit "-Infinity" else lit "Infinity"
  | DFinite negative m e =>
      let '(s, p) := shortest m e in
      digits_to_string (if negative then - s else s) p
  end.

(* ===================================================================== *)
(** ** JSON values *)
(* ===================================================================== *)

(** The values [JSON.parse] builds, and [undefined], which reading a missing
    property gives.  An object lists its own properties in creation order,
    each key once (that an engine enumerates keys that are array indices
    first is not modelled). *)
Inductive JValue :=
| JUndefined
| JNull
| JBool (b : bool)
| JNum (n : jsnum)
| JStr (s : jsstring)
| JArr (items : list JValue)
| JObj (props : list (jsstring * JValue)).

(** [ToBoolean]. *)
Definition truthy (v : JValue) : bool :=
  match v with
  | JUndefined | JNull => false
  | JBool b => b
  | JNum n => negb (rounds_to_zero n)
  | JStr s => match s with [] => false | _ => true end
  | JArr _ | JObj _ => true
  end.

(** [a || b] *)
Definition js_or (a b : JValue) : JValue := if truthy a then a else b.

Fixpoint obj_get (props : list (jsstring * JValue)) (k : jsstring) : JValue :=
  match props with
  | [] => JUndefined
  | (k', v) :: ps => if jsstring_eqb k' k then v else obj_get ps k
  end.

(** Defining property [k]: an existing property keeps its place and takes
    the new value, a new one goes last. *)
Fixpoint obj_set (props : list (jsstring * JValue)) (k : jsstring) (v : JValue)
  : list (jsstring * JValue) :=
  match props with
  | [] => [(k, v)]
  | (k', v') :: ps =>
      if jsstring_eqb k' k then (k, v) :: ps else (k', v') :: obj_set ps k v
  end.

(** Object spread [{...target, ...source}] onto the properties so far. *)
Definition obj_spread (target source : list (jsstring * JValue))
  : list (jsstring * JValue) :=
  fold_left (fun acc kv => obj_set acc (fst kv) (snd kv)) source target.

(** [v.k] for a property name that no prototype defines (the client reads
    [error], [message] and [details]): [None] is the [TypeError] of reading
    a property of [null] or [undefined]. *)
Definition get_prop (v : JValue) (k : jsstring) : option JValue :=
  match v with
  | JUndefined | JNull => None
  | JObj props => Some (obj_get props k)
  | _ => Some JUndefined
  end.

(** [ToString]: what a template literal and the [Error] constructor make
    of a value; [None] is the [TypeError] it throws.  An object is turned
    into a string by its [toString] method: the one of [Object.prototype]
    gives [[object Object]], but a property [toString] of the object's own
    hides it, and a JSON value is no function to call, nor does
    [valueOf] give a primitive, so the conversion throws.  An array joins
    the strings of its elements, and throws when one of them does. *)
Fixpoint ToString (v : JValue) : option jsstring :=
  match v with
  | JUndefined => Some (lit "undefined")
  | JNull => Some (lit "null")
  | JBool true => Some (lit "true")
  | JBool false => Some (lit "false")
  | JNum n => Some (num_to_string n)
  | JStr s => Some s
  | JArr items =>
      (fix join (l : list JValue) : option jsstring :=
         match l with
         | [] => Some []
         | x :: l' =>
             match (match x with
                    | JUndefined | JNull => Some []
                    | _ => ToString x
                    end) with
             | None => None
             | Some t =>
                 match l' with
                 | [] => Some t
                 | _ => match join l' with
                        | Some r => Some (t ++ lit "," ++ r)
                        | None => None
                        end
                 end
             end
         end) items
  | JObj props =>
      if existsb (fun kv => jsstring_eqb (fst kv) (lit "toString")) props
      then None
      else Some (lit "[object Object]")
  end.

(* ===================================================================== *)
(** ** [TextDecoder] *)
(* ===================================================================== *)

(** The UTF-8 decoder of the WHATWG Encoding standard, one byte at a time.
    Its state is the code point under construction, the number of
    continuation bytes needed and seen, and the bounds the next byte must
    meet. *)
Record Utf8Decoder := {
  utf8_code_point : Z;
  utf8_bytes_needed : Z;
  utf8_bytes_seen : Z;
  utf8_lower : Z;
  utf8_upper : Z
}.

Definition utf8_initial : Utf8Decoder :=
  {| utf8_code_point := 0; utf8_bytes_needed := 0; utf8_bytes_seen := 0;
     utf8_lower := 0x80; utf8_upper := 0xBF |}.

Definition REPLACEMENT : Z := 0xFFFD.

(** A byte met when no sequence is open: it is a code point by itself, opens
    a sequence of two to four bytes, or is an error. *)
Definition utf8_lead (b : Z) : Utf8Decoder * list Z :=
  if b <=? 0x7F then (utf8_initial, [b])
  else if (0xC2 <=? b) && (b <=? 0xDF) then
    ({| utf8_code_point := Z.land b 0x1F; utf8_bytes_needed := 1;
        utf8_bytes_seen := 0; utf8_lower := 0x80; utf8_upper := 0xBF |}, [])
  else if (0xE0 <=? b) && (b <=? 0xEF) then
    ({| utf8_code_point := Z.land b 0xF; utf8_bytes_needed := 2;
        utf8_bytes_seen := 0;
        utf8_lower := if b =? 0xE0 then 0xA0 else 0x80;
        utf8_upper := if b =? 0xED then 0x9F else 0xBF |}, [])
  else if (0xF0 <=? b) && (b <=? 0xF4) then
    ({| utf8_code_point := Z.land b 0x7; utf8_bytes_needed := 3;
        utf8_bytes_seen := 0;
        utf8_lower := if b =? 0xF0 then 0x90 else 0x80;
        utf8_upper := if b =? 0xF4 then 0x8F else 0xBF |}, [])
  else (utf8_initial, [REPLACEMENT]).

(** The handler: the code points (scalar values) a byte completes.  A byte
    outside the bounds closes the open sequence with U+FFFD and is then
    handled again as a first byte. *)
Definition utf8_handler (d : Utf8Decoder) (b : Z) : Utf8Decoder * list Z :=
  if utf8_bytes_needed d =? 0 then utf8_lead b
  else if (b <? utf8_lower d) || (utf8_upper d <? b) then
    let '(d', out) := utf8_lead b in (d', REPLACEMENT :: out)
  else
    let cp := Z.lor (Z.shiftl (utf8_code_point d) 6) (Z.land b 0x3F) in
    if utf8_bytes_seen d + 1 =? utf8_bytes_needed d then (utf8_initial, [cp])
    else ({| utf8_code_point := cp; utf8_bytes_needed := utf8_bytes_needed d;
             utf8_bytes_seen := utf8_bytes_seen d + 1;
             utf8_lower := 0x80; utf8_upper := 0xBF |}, []).

(** A scalar value as UTF-16 code units. *)
Definition utf16 (cp : Z) : jsstring :=
  if cp <? 0x10000 then [cp]
  else let c := cp - 0x10000 in
       [0xD800 + Z.shiftr c 10; 0xDC00 + Z.land c 0x3FF].

(** A [TextDecoder] (UTF-8, not fatal, [ignoreBOM] false): the decoder and
    the BOM-seen flag. *)
Record TextDecoder := {
  td_decoder : Utf8Decoder;
  td_bom_seen : bool
}.

Definition new_TextDecoder : TextDecoder :=
  {| td_decoder := utf8_initial; td_bom_seen := false |}.

(** Serializing the scalar values: the first one ever is dropped when it is
    the byte order mark U+FEFF. *)
Fixpoint serialize (bom_seen : bool) (cps : list Z) : bool * jsstring :=
  match cps with
  | [] => (bom_seen, [])
  | cp :: rest =>
      let '(b, out) := serialize true rest in
      (b, (if negb bom_seen && (cp =? 0xFEFF) then [] else utf16 cp) ++ out)
  end.

Definition td_byte (td : TextDecoder) (b : Byte.byte) : TextDecoder * jsstring :=
  let '(d, cps) := utf8_handler (td_decoder td) (byte_val b) in
  let '(bom, out) := serialize (td_bom_seen td) cps in
  ({| td_decoder := d; td_bom_seen := bom |}, out).

(** [decoder.decode(value, { stream: true })]: the bytes of the chunk are
    handled in turn; an unfinished sequence stays in the decoder. *)
Fixpoint decode_stream (td : TextDecoder) (value : list Byte.byte)
  : TextDecoder * jsstring :=
  match value with
  | [] => (td, [])
  | b :: rest =>
      let '(td1, out1) := td_byte td b in
      let '(td2, out2) := decode_stream td1 rest in
      (td2, out1 ++ out2)
  end.

(** Decoding a whole body at once, as [response.json()] does: the end of
    the input closes an unfinished sequence with U+FFFD. *)
Definition decode_all (body : list Byte.byte) : jsstring :=
  let '(td, out) := decode_stream new_TextDecoder body in
  if utf8_bytes_needed (td_decoder td) =? 0 then out
  else out ++ snd (serialize (td_bom_seen td) [REPLACEMENT]).

(* ===================================================================== *)
(** ** [JSON.parse] *)
(* ===================================================================== *)

(** A recursive-descent parser for the JSON grammar of ECMA-404, as
    [JSON.parse] accepts it.  A result is a value with the text left over, a
    [SyntaxError], or a run out of fuel (which [JSON_parse_fuel_suffices]
    excludes for the fuel [JSON_parse] gives). *)
Inductive Parse (A : Type) :=
| POk (a : A) (rest : jsstring)
| PSyntaxError
| POutOfFuel.
Arguments POk {A} a rest.
Arguments PSyntaxError {A}.
Arguments POutOfFuel {A}.

Definition is_ws (c : Z) : bool :=
  (c =? 32) || (c =? 9) || (c =? 10) || (c =? 13).

Fixpoint skip_ws (s : jsstring) : jsstring :=
  match s with
  | [] => []
  | c :: r => if is_ws c then skip_ws r else s
  end.

Definition is_digit (c : Z) : bool := (48 <=? c) && (c <=? 57).

Definition hex_val (c : Z) : option Z :=
  if (48 <=? c) && (c <=? 57) then Some (c - 48)
  else if (65 <=? c) && (c <=? 70) then Some (c - 55)
  else if (97 <=? c) && (c <=? 102) then Some (c - 87)
  else None.

(** The code unit a one-letter escape stands for. *)
Definition escape_char (e : Z) : option Z :=
  if e =? 34 then Some 34            (* quotation mark *)
  else if e =? 92 then Some 92       (* reverse solidus *)
  else if e =? 47 then Some 47       (* solidus *)
  else if e =? 98 then Some 8        (* b: backspace *)
  else if e =? 102 then Some 12      (* f: form feed *)
  else if e =? 110 then Some 10      (* n: line feed *)
  else if e =? 114 then Some 13      (* r: carriage return *)
  else if e =? 116 then Some 9       (* t: tab *)
  else None.

(** The characters of a string literal after its opening quote, up to and
    including the closing quote. *)
Fixpoint parse_string (s : jsstring) : option (jsstring * jsstring) :=
  match s with
  | [] => None
  | c :: r =>
      if c =? 34 then Some ([], r)
      else if c =? 92 then
        match r with
        | [] => None
        | e :: r1 =>
            if e =? 117 then
              match r1 with
              | h1 :: h2 :: h3 :: h4 :: r2 =>
                  match hex_val h1, hex_val h2, hex_val h3, hex_val h4 with
                  | Some a, Some b, Some c', Some d =>
                      match parse_string r2 with
                      | Some (str, rest) =>
                          Some ((a * 4096 + b * 256 + c' * 16 + d) :: str, rest)
                      | None => None
                      end
                  | _, _, _, _ => None
                  end
              | _ => None
              end
            else
              match escape_char e with
              | Some x =>
                  match parse_string r1 with
                  | Some (str, rest) => Some (x :: str, rest)
                  | None => None
                  end
              | None => None
              end
        end
      else if c <? 32 then None
      else
        match parse_string r with
        | Some (str, rest) => Some (c :: str, rest)
        | None => None
        end
  end.

Fixpoint take_digits (s : jsstring) : list Z * jsstring :=
  match s with
  | [] => ([], [])
  | c :: r =>
      if is_digit c then
        let '(ds, rest) := take_digits r in (c - 48 :: ds, rest)
      else ([], s)
  end.

Definition digits_value (ds : list Z) : Z :=
  fold_left (fun acc d => acc * 10 + d) ds 0.

(** The fraction [. digits+] if there is one. *)
Definition parse_frac (s : jsstring) : option (list Z * jsstring) :=
  match s with
  | c :: r =>
      if c =? 46 then
        match take_digits r with
        | ([], _) => None
        | (fd, rest) => Some (fd, rest)
        end
      else Some ([], s)
  | [] => Some ([], s)
  end.

(** The exponent [(e|E) (+|-)? digits+] if there is one. *)
Definition parse_exp (s : jsstring) : option (Z * jsstring) :=
  match s with
  | c :: r =>
      if (c =? 101) || (c =? 69) then
        let '(neg, r1) :=
          match r with
          | c1 :: r' =>
              if c1 =? 45 then (true, r')
              else if c1 =? 43 then (false, r')
              else (false, r)
          | [] => (false, r)
          end in
        match take_digits r1 with
        | ([], _) => None
        | (ed, rest) =>
            Some (if neg then - digits_value ed else digits_value ed, rest)
        end
      else Some (0, s)
  | [] => Some (0, s)
  end.

(** A number literal: [-? (0 | [1-9] digits) frac? exp?], rounded to the
    nearest double. *)
Definition parse_number (s : jsstring) : option (jsnum * jsstring) :=
  let '(neg, s1) :=
    match s with
    | c :: r => if c =? 45 then (true, r) else (false, s)
    | [] => (false, s)
    end in
  match s1 with
  | [] => None
  | c :: r =>
      if is_digit c then
        let '(int_ds, s2) := if c =? 48 then ([0], r) else take_digits s1 in
        match parse_frac s2 with
        | None => None
        | Some (fd, s3) =>
            match parse_exp s3 with
            | None => None
            | Some (ex, s4) =>
                let m := digits_value (int_ds ++ fd) in
                Some (num_round (Dec (if neg then - m else m)
                                     (ex - Z.of_nat (length fd))), s4)
            end
        end
      else None
  end.

Fixpoint parse_value (fuel : nat) (s : jsstring) : Parse JValue :=
  match fuel with
  | O => POutOfFuel
  | S f =>
      match skip_ws s with
      | [] => PSyntaxError
      | c :: r =>
          if c =? 123 then
            match skip_ws r with
            | [] => PSyntaxError
            | c2 :: r2 =>
                if c2 =? 125 then POk (JObj []) r2
                else parse_members f (c2 :: r2) []
            end
          else if c =? 91 then
            match skip_ws r with
            | [] => PSyntaxError
            | c2 :: r2 =>
                if c2 =? 93 then POk (JArr []) r2
                else parse_elements f (c2 :: r2) []
            end
          else if c =? 34 then
            match parse_string r with
            | Some (str, rest) => POk (JStr str) rest
            | None => PSyntaxError
            end
          else if startsWith (c :: r) (lit "true") then
            POk (JBool true) (drop 4 (c :: r))
          else if startsWith (c :: r) (lit "false") then
            POk (JBool false) (drop 5 (c :: r))
          else if startsWith (c :: r) (lit "null") then
            POk JNull (drop 4 (c :: r))
          else
            match parse_number (c :: r) with
            | Some (n, rest) => POk (JNum n) rest
            | None => PSyntaxError
            end
      end
  end
with parse_elements (fuel : nat) (s : jsstring) (acc : list JValue)
  : Parse JValue :=
  match fuel with
  | O => POutOfFuel
  | S f =>
      match parse_value f s with
      | POk v rest =>
          match skip_ws rest with
          | [] => PSyntaxError
          | c :: r =>
              if c =? 44 then parse_elements f r (acc ++ [v])
              else if c =? 93 then POk (JArr (acc ++ [v])) r
              else PSyntaxError
          end
      | PSyntaxError => PSyntaxError
      | POutOfFuel => POutOfFuel
      end
  end
with parse_members (fuel : nat) (s : jsstring)
                   (acc : list (jsstring * JValue)) : Parse JValue :=
  match fuel with
  | O => POutOfFuel
  | S f =>
      match skip_ws s with
      | [] => PSyntaxError
      | c :: r =>
          if c =? 34 then
            match parse_string r with
            | None => PSyntaxError
            | Some (key, rest) =>
                match skip_ws rest with
                | [] => PSyntaxError
                | c2 :: r2 =>
                    if c2 =? 58 then
                      match parse_value f r2 with
                      | POk v rest2 =>
                          match skip_ws rest2 with
                          | [] => PSyntaxError
                          | c3 :: r3 =>
                              if c3 =? 44 then
                                parse_members f r3 (obj_set acc key v)
                              else if c3 =? 125 then
                                POk (JObj (obj_set acc key v)) r3
                              else PSyntaxError
                          end
                      | PSyntaxError => PSyntaxError
                      | POutOfFuel => POutOfFuel
                      end
                    else PSyntaxError
                end
            end
          else PSyntaxError
      end
  end.

Definition parse_fuel (s : jsstring) : nat := (2 * length s + 2)%nat.

(** [JSON.parse(text)]: [None] is the [SyntaxError] it throws. *)
Definition JSON_parse (text : jsstring) : option JValue :=
  match parse_value (parse_fuel text) text with
  | POk v rest => match skip_ws rest with [] => Some v | _ => None end
  | _ => None
  end.

(* ===================================================================== *)
(** ** [JSON.stringify] and [encodeURIComponent] *)
(* ===================================================================== *)

Definition hex_lower (d : Z) : Z := if d <? 10 then 48 + d else 87 + d.
Definition hex_upper (d : Z) : Z := if d <? 10 then 48 + d else 55 + d.

(** The escape [\uXXXX] of a code unit, in lower case. *)
Definition unicode_escape (c : Z) : jsstring :=
  [92; 117; hex_lower (c / 4096 mod 16); hex_lower (c / 256 mod 16);
   hex_lower (c / 16 mod 16); hex_lower (c mod 16)].

Definition is_lead_surrogate (c : Z) : bool := (0xD800 <=? c) && (c <=? 0xDBFF).
Definition is_trail_surrogate (c : Z) : bool := (0xDC00 <=? c) && (c <=? 0xDFFF).

Definition quote_unit (c : Z) : jsstring :=
  if c =? 8 then [92; 98]
  else if c =? 9 then [92; 116]
  else if c =? 10 then [92; 110]
  else if c =? 12 then [92; 102]
  else if c =? 13 then [92; 114]
  else if c =? 34 then [92; 34]
  else if c =? 92 then [92; 92]
  else if c <? 32 then unicode_escape c
  else [c].

Fixpoint quote_body (s : jsstring) : jsstring :=
  match s with
  | [] => []
  | c :: r =>
      if is_lead_surrogate c then
        match r with
        | c2 :: r2 =>
            if is_trail_surrogate c2 then c :: c2 :: quote_body r2
            else unicode_escape c ++ quote_body r
        | [] => unicode_escape c
        end
      else if is_trail_surrogate c then unicode_escape c ++ quote_body r
      else quote_unit c ++ quote_body r
  end.

(** [QuoteJSONString] *)
Definition quote (s : jsstring) : jsstring := [34] ++ quote_body s ++ [34].

(** [JSON.stringify(v)] without replacer or indentation; [None] is the
    [undefined] it returns for [undefined].  A number that is not finite
    is written [null]. *)
Fixpoint JSON_stringify (v : JValue) : option jsstring :=
  match v with
  | JUndefined => None
  | JNull => Some (lit "null")
  | JBool true => Some (lit "true")
  | JBool false => Some (lit "false")
  | JNum n => Some (if rounds_to_infinity n then lit "null"
                    else num_to_string n)
  | JStr s => Some (quote s)
  | JArr items =>
      Some (lit "[" ++
        (fix elems (l : list JValue) : jsstring :=
           match l with
           | [] => []
           | x :: l' =>
               match JSON_stringify x with
               | Some t => t
               | None => lit "null"
               end
               ++ match l' with [] => [] | _ => lit "," ++ elems l' end
           end) items
        ++ lit "]")
  | JObj props =>
      Some (lit "{" ++
        (fix members (l : list (jsstring * JValue)) (first : bool) : jsstring :=
           match l with
           | [] => []
           | (k, x) :: l' =>
               match JSON_stringify x with
               | Some t =>
                   (if first then [] else lit ",") ++ quote k ++ lit ":" ++ t
                   ++ members l' false
               | None => members l' first
               end
           end) props true
        ++ lit "}")
  end.

(** The UTF-8 bytes of a scalar value. *)
Definition utf8_encode (cp : Z) : list Z :=
  if cp <? 0x80 then [cp]
  else if cp <? 0x800 then
    [Z.lor 0xC0 (Z.shiftr cp 6); Z.lor 0x80 (Z.land cp 0x3F)]
  else if cp <? 0x10000 then
    [Z.lor 0xE0 (Z.shiftr cp 12); Z.lor 0x80 (Z.land (Z.shiftr cp 6) 0x3F);
     Z.lor 0x80 (Z.land cp 0x3F)]
  else
    [Z.lor 0xF0 (Z.shiftr cp 18); Z.lor 0x80 (Z.land (Z.shiftr cp 12) 0x3F);
     Z.lor 0x80 (Z.land (Z.shiftr cp 6) 0x3F); Z.lor 0x80 (Z.land cp 0x3F)].

Definition percent (b : Z) : jsstring := [37; hex_upper (b / 16); hex_upper (b mod 16)].

(** The characters [encodeURIComponent] leaves alone: letters, digits and
    [- _ . ! ~ * ' ( )]. *)
Definition uri_unreserved (c : Z) : bool :=
  ((65 <=? c) && (c <=? 90)) || ((97 <=? c) && (c <=? 122)) || is_digit c
  || (c =? 45) || (c =? 95) || (c =? 46) || (c =? 33) || (c =? 126)
  || (c =? 42) || (c =? 39) || (c =? 40) || (c =? 41).

(** [encodeURIComponent(s)]; [None] is the [URIError] thrown on a surrogate
    without its partner. *)
Fixpoint encodeURIComponent (s : jsstring) : option jsstring :=
  match s with
  | [] => Some []
  | c :: r =>
      if uri_unreserved c then (c ::.) <$> encodeURIComponent r
      else if is_trail_surrogate c then None
      else if is_lead_surrogate c then
        match r with
        | c2 :: r2 =>
            if is_trail_surrogate c2 then
              let cp := (c - 0xD800) * 0x400 + (c2 - 0xDC00) + 0x10000 in
              (app (concat (map percent (utf8_encode cp))))
                <$> encodeURIComponent r2
            else None
        | [] => None
        end
      else (app (concat (map percent (utf8_encode c)))) <$> encodeURIComponent r
  end.

(* ===================================================================== *)
(** ** Errors ([src/types.ts], [src/client.ts] lines 18-31) *)
(* ===================================================================== *)

(** What the platform can throw at the client: an [Error] instance (a
    [TypeError], a [SyntaxError], the [DOMException] of an abort) with its
    [name] and [message], another object with its [name] property if it has
    one, a string, or some other primitive. *)
Inductive Thrown :=
| ThrownError (name message : jsstring)
| ThrownObject (name : option jsstring)
| ThrownString (s : jsstring)
| ThrownOther.

(** The [details] of an [EasyRAGError]: a field of the service's error body,
    or the raw failure. *)
Inductive Details :=
| DetailsValue (v : JValue)
| DetailsThrown (e : Thrown).

Record EasyRAGError := {
  message : jsstring;
  status : option Z;
  code : JValue;
  details : Details
}.

(** The [TypeError] of a value that has no string form; its message is
    the engine's. *)
Definition primitive_error : Thrown :=
  ThrownError (lit "TypeError") (lit "Cannot convert object to primitive value").

(** [new EasyRAGError(message, status, code, details)]: [super(message)]
    turns a message that is not [undefined] into a string, so the
    constructor throws where [ToString] does ([inl]). *)
Definition new_EasyRAGError (msg : JValue) (st : option Z) (cd : JValue)
                            (dt : Details) : Thrown + EasyRAGError :=
  match (match msg with JUndefined => Some [] | _ => ToString msg end) with
  | Some m => inr {| message := m; status := st; code := cd; details := dt |}
  | None => inl primitive_error
  end.

(** [new EasyRAGError(message, status)]. *)
Definition new_EasyRAGError2 (msg : JValue) (st : Z) : Thrown + EasyRAGError :=
  new_EasyRAGError msg (Some st) JUndefined (DetailsValue JUndefined).

(** [new EasyRAGError(message, status, code, details)] for a message that
    is a string, which the constructor takes as it is
    ([new_EasyRAGError_string]). *)
Definition string_EasyRAGError (msg : jsstring) (st : option Z) (cd : JValue)
                               (dt : Details) : EasyRAGError :=
  {| message := msg; status := st; code := cd; details := dt |}.

Definition isAbortError (e : Thrown) : bool :=
  match e with
  | ThrownError name _ => jsstring_eqb name (lit "AbortError")
  | ThrownObject (Some name) => jsstring_eqb name (lit "AbortError")
  | _ => false
  end.

Definition getErrorMessage (e : Thrown) : jsstring :=
  match e with
  | ThrownError _ msg => msg
  | ThrownString s => s
  | _ => lit "Unknown error"
  end.

(** What a call can end in: a value, an [EasyRAGError], a failure the client
    did not wrap, or nothing at all (the promise never settles). *)
Inductive Outcome (A : Type) :=
| Resolved (a : A)
| Rejected (e : EasyRAGError)
| RejectedRaw (e : Thrown)
| Pending.
Arguments Resolved {A} a.
Arguments Rejected {A} e.
Arguments RejectedRaw {A} e.
Arguments Pending {A}.

(* ===================================================================== *)
(** ** The network *)
(* ===================================================================== *)

(** How a response body ends: the stream closes, fails, or stays open with
    nothing more arriving.  Times are in milliseconds from the start of the
    call. *)
Inductive BodyEnd :=
| BodyDone (at_ms : Z)
| BodyError (at_ms : Z) (e : Thrown)
| BodyStalls.

(** A body: the chunks its reader delivers, in order, and how it ends. *)
Record Body := {
  body_chunks : list (list Byte.byte);
  body_end : BodyEnd
}.

(** A response: its status and its body; [None] is the [body: null] of the
    responses that have no body. *)
Record Response := {
  resp_status : Z;
  resp_body : option Body
}.

(** [response.ok] *)
Definition ok (r : Response) : bool :=
  (200 <=? resp_status r) && (resp_status r <=? 299).

Inductive FetchResult :=
| FetchRejects (e : Thrown)
| FetchResolves (r : Response).

(** What the network does with one request: when the promise of [fetch]
    would settle if nobody aborted it ([None]: never), and with what. *)
Record Network := {
  fetch_settles_at : option Z;
  fetch_result : FetchResult
}.

(** The failure [fetch] rejects with when its signal is aborted: a
    [DOMException] named [AbortError].  Its message is the platform's. *)
Definition abort_failure : Thrown :=
  ThrownError (lit "AbortError") (lit "This operation was aborted").

(** The longest delay a timer holds, in milliseconds: 2^31 - 1. *)
Definition TIMEOUT_MAX : Z := 2147483647.

(** [setTimeout(f, ms)]: the delay after which the timer goes off.  A
    delay of 1 to 2^31 - 1 ms is kept; any other is set to 1 ms, as the
    timers of Node do, so that a timeout beyond 2^31 - 1 ms, or a
    negative one, goes off at once. *)
Definition timer_delay (ms : Z) : Z :=
  if (1 <=? ms) && (ms <=? TIMEOUT_MAX) then ms else 1.

(** [await fetch(url, { ..., signal })] under
    [setTimeout(() => controller.abort(), timeout)]: the timer aborts the
    request unless [fetch] settles first; an answer at the very instant of
    the timer counts as late. *)
Definition fetch (timeout_ms : Z) (net : Network) : FetchResult :=
  match fetch_settles_at net with
  | Some t => if t <? timer_delay timeout_ms then fetch_result net
              else FetchRejects abort_failure
  | None => FetchRejects abort_failure
  end.

(** The time at which the exchange is over: [fetch] has failed, or the body
    has ended.  [None]: never. *)
Definition exchange_completes_at (net : Network) : option Z :=
  match fetch_settles_at net, fetch_result net with
  | None, _ => None
  | Some t, FetchRejects _ => Some t
  | Some t, FetchResolves r =>
      match resp_body r with
      | None => Some t
      | Some b =>
          match body_end b with
          | BodyDone t' | BodyError t' _ => Some (Z.max t t')
          | BodyStalls => None
          end
      end
  end.

(** The [SyntaxError] of a body that is not JSON; its message is the
    engine's. *)
Definition json_syntax_error : Thrown :=
  ThrownError (lit "SyntaxError") (lit "Unexpected token in JSON").

(** [response.json()]: reads the body to its end, decodes it as UTF-8 and
    parses it.  A null body reads as no bytes. *)
Definition response_json (r : Response) : Outcome JValue :=
  let parse (bs : list Byte.byte) : Outcome JValue :=
    match JSON_parse (decode_all bs) with
    | Some v => Resolved v
    | None => RejectedRaw json_syntax_error
    end in
  match resp_body r with
  | None => parse []
  | Some b =>
      match body_end b with
      | BodyDone _ => parse (concat (body_chunks b))
      | BodyError _ e => RejectedRaw e
      | BodyStalls => Pending
      end
  end.

(** [response.json().catch(() => ({}))] *)
Definition response_json_or_empty (r : Response) : Outcome JValue :=
  match response_json r with
  | Resolved v => Resolved v
  | Pending => Pending
  | _ => Resolved (JObj [])
  end.

(** The [TypeError] of reading property [k] of [null]. *)
Definition null_property_error (k : string) : Thrown :=
  ThrownError (lit "TypeError")
    (lit "Cannot read properties of null (reading '" ++ lit k ++ lit "')").

(* ===================================================================== *)
(** ** The client ([src/client.ts], class [EasyRAG]) *)
(* ===================================================================== *)

(** [a || d] for an optional [a] whose values inject into the JavaScript
    values by [inj]; an absent [a] is [undefined]. *)
Definition or_else {A : Type} (inj : A -> JValue) (a : option A) (d : A) : A :=
  match a with
  | Some x => if truthy (inj x) then x else d
  | None => d
  end.

Definition JInt (z : Z) : JValue := JNum (num_of_Z z).

Record EasyRAGConfig := {
  cfg_apiKey : jsstring;
  cfg_baseUrl : option jsstring;
  cfg_timeout : option Z
}.

Inductive ConstructorArg :=
| ApiKey (key : jsstring)
| Config (config : EasyRAGConfig).

Record EasyRAG := {
  apiKey : jsstring;
  baseUrl : jsstring;
  timeout : Z
}.

Definition DEFAULT_BASE_URL : jsstring := lit "https://api.easyrag.com".

Definition constructor (config : ConstructorArg) : EasyRAG :=
  match config with
  | ApiKey key =>
      {| apiKey := key; baseUrl := DEFAULT_BASE_URL; timeout := 30000 |}
  | Config config =>
      {| apiKey := cfg_apiKey config;
         baseUrl := or_else JStr (cfg_baseUrl config) DEFAULT_BASE_URL;
         timeout := or_else JInt (cfg_timeout config) 30000 |}
  end.

(** *** The request handed to [fetch] *)

Record File := {
  file_name : jsstring;
  file_type : jsstring;
  file_content : list Byte.byte
}.

Inductive FormValue :=
| FormString (s : jsstring)
| FormFile (f : File).

(** A [FormData]: its entries in the order of the [append] calls. *)
Definition FormData := list (jsstring * FormValue).

Inductive BodyInit :=
| BodyString (s : jsstring)
| BodyFormData (fd : FormData).

(** The [RequestInit] the methods pass to [request]; an absent field is
    [None].  Headers are a plain object from names to values. *)
Record RequestInit := {
  method : option jsstring;
  headers : option (gmap jsstring jsstring);
  body : option BodyInit
}.

Definition no_options : RequestInit :=
  {| method := None; headers := None; body := None |}.

(** The arguments of one [fetch] call (the abort signal is accounted for in
    [fetch]). *)
Record FetchCall := {
  fc_url : jsstring;
  fc_method : option jsstring;
  fc_headers : gmap jsstring jsstring;
  fc_body : option BodyInit
}.

(** The service: how the network answers each call. *)
Definition Server := FetchCall -> Network.

(** [{ Authorization: `Bearer ${this.apiKey}`, ...options.headers }]: the
    entries of [options.headers] are written after [Authorization]. *)
Definition request_headers (c : EasyRAG) (options : RequestInit)
  : gmap jsstring jsstring :=
  default ∅ (headers options)
  ∪ {[ lit "Authorization" := lit "Bearer " ++ apiKey c ]}.

Definition request_call (c : EasyRAG) (endpoint : jsstring)
                        (options : RequestInit) : FetchCall :=
  {| fc_url := baseUrl c ++ endpoint;
     fc_method := method options;
     fc_headers := request_headers c options;
     fc_body := body options |}.

(** [`HTTP ${response.status}`] *)
Definition http_status_message (st : Z) : JValue :=
  JStr (lit "HTTP " ++ num_to_string (num_of_Z st)).

(** The [catch] block of [request] for a failure that is not an
    [EasyRAGError] (lines 82-95); the messages are strings. *)
Definition request_catch (e : Thrown) : EasyRAGError :=
  if isAbortError e
  then string_EasyRAGError (lit "Request timeout")
                           None JUndefined (DetailsValue JUndefined)
  else string_EasyRAGError
         (or_else JStr (Some (getErrorMessage e)) (lit "Network error"))
         None JUndefined (DetailsThrown e).

(** What [request] throws for the body of a response that is not ok
    (lines 71-77, and the [catch] block they are in): the error built
    from the body; or, when reading a property of a [null] body or
    building the error throws, what the [catch] block makes of that
    [TypeError]. *)
Definition request_http_error (st : Z) (error : JValue) : EasyRAGError :=
  match get_prop error (lit "error"), get_prop error (lit "message"),
        get_prop error (lit "details") with
  | Some err, Some msg, Some dt =>
      match new_EasyRAGError (js_or err (js_or msg (http_status_message st)))
                             (Some st) err (DetailsValue dt) with
      | inr e => e
      | inl t => request_catch t
      end
  | _, _, _ => request_catch (null_property_error "error")
  end.

(** [request(endpoint, options)] (lines 51-97).  The timer is cleared as
    soon as [fetch] has settled; the [response.json()] of the success path
    is returned without being awaited, so its failure reaches the caller
    as it is. *)
Definition request (c : EasyRAG) (endpoint : jsstring) (options : RequestInit)
                   (srv : Server) : Outcome JValue :=
  match fetch (timeout c) (srv (request_call c endpoint options)) with
  | FetchRejects e => Rejected (request_catch e)
  | FetchResolves response =>
      if negb (ok response) then
        match response_json_or_empty response with
        | Resolved error =>
            Rejected (request_http_error (resp_status response) error)
        | Rejected e => Rejected e
        | RejectedRaw e => Rejected (request_catch e)
        | Pending => Pending
        end
      else response_json response
  end.

(** *** The domain methods (lines 99-197, 267-280) *)

Inductive FilesArg :=
| OneFile (f : File)
| FileArray (fs : list File).

Record UploadOptions := {
  metadata : option JValue;
  chunkSize : option jsnum;
  chunkOverlap : option jsnum
}.

(** The options of [search] and [query]: the own properties of the object
    passed, which the methods spread into the request body. *)
Definition SearchOptions := list (jsstring * JValue).

Record CreateTokenOptions := {
  ttlSeconds : option jsnum
}.

(** The conversion to a [USVString] that [FormData.append] applies to a
    string value: a surrogate that is not half of a pair becomes U+FFFD. *)
Fixpoint toUSVString (s : jsstring) : jsstring :=
  match s with
  | [] => []
  | c :: r =>
      if is_lead_surrogate c then
        match r with
        | c2 :: r2 =>
            if is_trail_surrogate c2 then c :: c2 :: toUSVString r2
            else 0xFFFD :: toUSVString r
        | [] => [0xFFFD]
        end
      else if is_trail_surrogate c then 0xFFFD :: toUSVString r
      else c :: toUSVString r
  end.

(** The [FormData] of [upload] (lines 105-121).  The text of a number is
    ASCII, which the conversion to a [USVString] leaves as it is. *)
Definition upload_form (datasetId : jsstring) (files : FilesArg)
                       (options : UploadOptions) : FormData :=
  let fileArray := match files with FileArray fs => fs | OneFile f => [f] end in
  [(lit "datasetId", FormString (toUSVString datasetId))]
  ++ map (fun file => (lit "file", FormFile file)) fileArray
  ++ match metadata options with
     | Some m =>
         if truthy m then
           [(lit "metadata",
             FormString (toUSVString
                           (default (lit "undefined") (JSON_stringify m))))]
         else []
     | None => []
     end
  ++ match chunkSize options with
     | Some n => [(lit "chunkSize", FormString (num_to_string n))]
     | None => []
     end
  ++ match chunkOverlap options with
     | Some n => [(lit "chunkOverlap", FormString (num_to_string n))]
     | None => []
     end.

Definition json_headers : gmap jsstring jsstring :=
  {[ lit "Content-Type" := lit "application/json" ]}.

(** A [POST] of [JSON.stringify(obj)]. *)
Definition post_json (obj : list (jsstring * JValue)) : RequestInit :=
  {| method := Some (lit "POST");
     headers := Some json_headers;
     body := BodyString <$> JSON_stringify (JObj obj) |}.

Definition delete_options : RequestInit :=
  {| method := Some (lit "DELETE"); headers := None; body := None |}.

(** The public methods that go through [request], with their arguments. *)
Inductive Operation :=
| Upload (datasetId : jsstring) (files : FilesArg) (options : UploadOptions)
| ListFiles (datasetId : jsstring)
| GetFile (datasetId fileId : jsstring)
| DeleteFile (datasetId fileId : jsstring)
| DeleteDataset (datasetId : jsstring)
| DeleteAll
| Search (datasetId question : jsstring) (options : SearchOptions)
| Query (datasetId question : jsstring) (options : SearchOptions)
| CreateToken (datasetId : jsstring) (options : CreateTokenOptions).

(** The endpoint and options each method passes to [request]; [None] when
    [encodeURIComponent] throws before any request is made. *)
Definition request_args (op : Operation) : option (jsstring * RequestInit) :=
  match op with
  | Upload datasetId files options =>
      Some (lit "/v1/files/upload",
            {| method := Some (lit "POST"); headers := None;
               body := Some (BodyFormData (upload_form datasetId files options)) |})
  | ListFiles datasetId =>
      d ← encodeURIComponent datasetId;
      Some (lit "/v1/files?datasetId=" ++ d, no_options)
  | GetFile datasetId fileId =>
      d ← encodeURIComponent datasetId;
      Some (lit "/v1/files/" ++ fileId ++ lit "?datasetId=" ++ d, no_options)
  | DeleteFile datasetId fileId =>
      d ← encodeURIComponent datasetId;
      Some (lit "/v1/files/" ++ fileId ++ lit "?datasetId=" ++ d, delete_options)
  | DeleteDataset datasetId =>
      d ← encodeURIComponent datasetId;
      Some (lit "/v1/datasets/" ++ d ++ lit "/files", delete_options)
  | DeleteAll => Some (lit "/v1/files", delete_options)
  | Search datasetId question options =>
      Some (lit "/v1/search",
            post_json (obj_spread [(lit "datasetId", JStr datasetId);
                                   (lit "question", JStr question)] options))
  | Query datasetId question options =>
      Some (lit "/v1/query",
            post_json (obj_spread [(lit "datasetId", JStr datasetId);
                                   (lit "question", JStr question);
                                   (lit "stream", JBool false)] options))
  | CreateToken datasetId options =>
      Some (lit "/v1/tokens/create",
            post_json [(lit "datasetId", JStr datasetId);
                       (lit "ttlSeconds",
                        JNum (or_else JNum (ttlSeconds options) (num_of_Z 3600)))])
  end.

Definition uri_error : Thrown :=
  ThrownError (lit "URIError") (lit "URI malformed").

(** Running a method against the service. *)
Definition call (c : EasyRAG) (op : Operation) (srv : Server) : Outcome JValue :=
  match request_args op with
  | Some (endpoint, options) => request c endpoint options srv
  | None => RejectedRaw uri_error
  end.

(** The request a method sends, if it sends one. *)
Definition sent_request (c : EasyRAG) (op : Operation) : option FetchCall :=
  '(endpoint, options) ← request_args op;
  Some (request_call c endpoint options).

Definition upload c datasetId files options := call c (Upload datasetId files options).
Definition listFiles c datasetId := call c (ListFiles datasetId).
Definition getFile c datasetId fileId := call c (GetFile datasetId fileId).
Definition deleteFile c datasetId fileId := call c (DeleteFile datasetId fileId).
Definition deleteDataset c datasetId := call c (DeleteDataset datasetId).
Definition deleteAll c := call c DeleteAll.
Definition search c datasetId question options := call c (Search datasetId question options).
Definition query c datasetId question options := call c (Query datasetId question options).
Definition createToken c datasetId options := call c (CreateToken datasetId options).

(** *** The streaming query (lines 199-265) *)

(** The call of [queryStream] to [fetch] (lines 209-222). *)
Definition queryStream_call (c : EasyRAG) (datasetId question : jsstring)
                            (options : SearchOptions) : FetchCall :=
  {| fc_url := baseUrl c ++ lit "/v1/query";
     fc_method := Some (lit "POST");
     fc_headers := <[ lit "Content-Type" := lit "application/json" ]>
                   {[ lit "Authorization" := lit "Bearer " ++ apiKey c ]};
     fc_body := BodyString <$> JSON_stringify (JObj
                  (obj_spread [(lit "datasetId", JStr datasetId);
                               (lit "question", JStr question);
                               (lit "stream", JBool true)] options)) |}.

(** The [catch] block of [queryStream] for a failure that is not an
    [EasyRAGError] (lines 258-264); the messages are strings. *)
Definition queryStream_catch (e : Thrown) : EasyRAGError :=
  if isAbortError e
  then string_EasyRAGError (lit "Request timeout")
                           None JUndefined (DetailsValue JUndefined)
  else string_EasyRAGError
         (or_else JStr (Some (getErrorMessage e)) (lit "Streaming error"))
         None JUndefined (DetailsValue JUndefined).

(** What [queryStream] throws for the body of a response that is not ok
    (lines 227-231, and the [catch] block they are in). *)
Definition queryStream_http_error (st : Z) (error : JValue) : EasyRAGError :=
  match get_prop error (lit "error") with
  | Some err =>
      match new_EasyRAGError2 (js_or err (http_status_message st)) st with
      | inr e => e
      | inl t => queryStream_catch t
      end
  | None => queryStream_catch (null_property_error "error")
  end.

(** The events of the complete lines of one chunk (lines 246-256): a line
    starting with the marker is parsed from its seventh code unit on and
    yielded; a line that does not parse is skipped. *)
Definition frame_events (lines : list jsstring) : list JValue :=
  flat_map (fun line =>
              if startsWith line (lit "data: ") then
                match JSON_parse (slice line 6) with
                | Some data => [data]
                | None => []
                end
              else []) lines.

(** The state of the read loop: the decoder and the text buffer. *)
Record Reader := {
  rd_decoder : TextDecoder;
  rd_buffer : jsstring
}.

Definition new_Reader : Reader :=
  {| rd_decoder := new_TextDecoder; rd_buffer := [] |}.

(** One turn of the loop on a chunk (lines 242-256). *)
Definition read_chunk (rd : Reader) (value : list Byte.byte)
  : Reader * list JValue :=
  let '(td, text) := decode_stream (rd_decoder rd) value in
  let lines := split 10 (rd_buffer rd ++ text) in
  ({| rd_decoder := td; rd_buffer := List.last lines [] |},
   frame_events (List.removelast lines)).

(** The loop over the chunks the reader delivers. *)
Fixpoint read_loop (rd : Reader) (chunks : list (list Byte.byte))
  : Reader * list JValue :=
  match chunks with
  | [] => (rd, [])
  | value :: rest =>
      let '(rd1, ev1) := read_chunk rd value in
      let '(rd2, ev2) := read_loop rd1 rest in
      (rd2, ev1 ++ ev2)
  end.

(** What the consumer of the generator observes: the events yielded, in
    order, and how the iteration ends. *)
Record StreamRun := {
  yielded : list JValue;
  ending : Outcome unit
}.

Definition stream_fails (e : EasyRAGError) : StreamRun :=
  {| yielded := []; ending := Rejected e |}.

Definition queryStream (c : EasyRAG) (datasetId question : jsstring)
                       (options : SearchOptions) (srv : Server) : StreamRun :=
  match fetch (timeout c) (srv (queryStream_call c datasetId question options)) with
  | FetchRejects e => stream_fails (queryStream_catch e)
  | FetchResolves response =>
      if negb (ok response) then
        match response_json_or_empty response with
        | Resolved error =>
            stream_fails (queryStream_http_error (resp_status response) error)
        | Rejected e => stream_fails e
        | RejectedRaw e => stream_fails (queryStream_catch e)
        | Pending => {| yielded := []; ending := Pending |}
        end
      else
        match resp_body response with
        | None => stream_fails (queryStream_catch (null_property_error "getReader"))
        | Some b =>
            {| yielded := snd (read_loop new_Reader (body_chunks b));
               ending := match body_end b with
                         | BodyDone _ => Resolved tt
                         | BodyError _ e => Rejected (queryStream_catch e)
                         | BodyStalls => Pending
                         end |}
        end
  end.

(** The events of a 2xx stream delivered in the given chunks. *)
Definition decode_events (chunks : list (list Byte.byte)) : list JValue :=
  snd (read_loop new_Reader chunks).

(* ===================================================================== *)
(** ** Vocabulary of the statements *)
(* ===================================================================== *)

(** The response a call receives, when [fetch] resolves before the timer. *)
Definition received (c : EasyRAG) (fc : FetchCall) (srv : Server)
  : option Response :=
  match fetch (timeout c) (srv fc) with
  | FetchResolves r => Some r
  | FetchRejects _ => None
  end.

(** The text of a byte stream as one [TextDecoder] in streaming mode gives
    it, whatever the chunks. *)
Definition stream_text (bs : list Byte.byte) : jsstring :=
  snd (decode_stream new_TextDecoder bs).

(** The lines of a text that a newline ends, and the piece after the last
    newline. *)
Definition complete_lines (text : jsstring) : list jsstring :=
  List.removelast (split 10 text).
Definition partial_line (text : jsstring) : jsstring :=
  List.last (split 10 text) [].

(** The body of the 2xx response a streaming call receives, if it does. *)
Definition stream_body (c : EasyRAG) (fc : FetchCall) (srv : Server)
  : option Body :=
  r ← received c fc srv;
  if ok r then resp_body r else None.

(** How the iteration over a 2xx body ends (lines 238-240, 258-264). *)
Definition stream_ending (b : Body) : Outcome unit :=
  match body_end b with
  | BodyDone _ => Resolved tt
  | BodyError _ e => Rejected (queryStream_catch e)
  | BodyStalls => Pending
  end.

(** The buffer of a reader never holds a newline: it is the piece after
    the last one. *)
Definition buffer_ok (rd : Reader) : Prop :=
  split 10 (rd_buffer rd) = [rd_buffer rd].

(** The Unicode scalar values: the code points that are not surrogates. *)
Definition is_scalar (cp : Z) : bool :=
  (0 <=? cp) && (cp <? 0x110000) && negb ((0xD800 <=? cp) && (cp <=? 0xDFFF)).

(** The decoder run over bytes given as numbers. *)
Fixpoint utf8_handle_all (d : Utf8Decoder) (bs : list Z) : Utf8Decoder * list Z :=
  match bs with
  | [] => (d, [])
  | b :: rest =>
      let '(d1, o1) := utf8_handler d b in
      let '(d2, o2) := utf8_handle_all d1 rest in
      (d2, o1 ++ o2)
  end.

(** [f] holds of the [n] integers from [lo] on. *)
Fixpoint check_from (f : Z -> bool) (lo : Z) (n : nat) : bool :=
  match n with
  | O => true
  | S n' => f lo && check_from f (lo + 1) n'
  end.

(** The byte of a number below 256. *)
Definition byte_of (z : Z) : Byte.byte :=
  default Byte.x00 (Byte.of_N (Z.to_N z)).

(** The UTF-8 bytes of a scalar value. *)
Definition utf8_bytes (cp : Z) : list Byte.byte := map byte_of (utf8_encode cp).

(** A text as a sequence of scalar values: its UTF-16 code units and its
    UTF-8 bytes. *)
Definition utf16_text (cps : list Z) : jsstring := concat (map utf16 cps).
Definition utf8_text (cps : list Z) : list Byte.byte := concat (map utf8_bytes cps).

(** The marker of a frame. *)
Definition marker : list Z := lit "data: ".

(** The bytes of the frame of a payload: the marker, the payload, a
    newline. *)
Definition frame_of (payload : list Z) : list Byte.byte :=
  utf8_text (marker ++ payload ++ [10]).

(** What a payload is made of: scalar values other than the newline. *)
Definition is_text_char (cp : Z) : bool := is_scalar cp && negb (cp =? 10).

(** The stream events of [src/types.ts]. *)
Definition StreamDelta (delta : jsstring) : JValue := JObj [(lit "delta", JStr delta)].
Definition StreamDone : JValue := JObj [(lit "done", JBool true)].
Definition StreamError (error : jsstring) : JValue := JObj [(lit "error", JStr error)].

Definition newline : list Byte.byte := [Byte.x0a].

(** A frame: the line [data: <json>] and its newline; in [json] an
    apostrophe stands for a double quote. *)
Definition frame (json : string) : list Byte.byte :=
  bytes "data: " ++ bytesq json ++ newline.

(** The three frames of the streaming order property. *)
Definition three_frames : list Byte.byte :=
  frame "{'delta':'a'}" ++ frame "{'delta':'b'}" ++ frame "{'done':true}".

(** A frame whose delta is the euro sign U+20AC, three bytes in UTF-8. *)
Definition euro_frame : list Byte.byte :=
  bytes "data: " ++ bytesq "{'delta':'"
  ++ [Byte.xe2; Byte.x82; Byte.xac] ++ bytesq "'}" ++ newline.

(** Two valid frames with a line that is not JSON between them. *)
Definition frames_with_malformed : list Byte.byte :=
  frame "{'delta':'a'}" ++ frame "not-json" ++ frame "{'done':true}".

(** The shapes of [StreamEvent]: exactly one of [delta], [done] and [error]
    is there, a string, [true] and a string respectively. *)
Definition is_StreamEvent (v : JValue) : bool :=
  match v with
  | JObj props =>
      match obj_get props (lit "delta"), obj_get props (lit "done"),
            obj_get props (lit "error") with
      | JStr _, JUndefined, JUndefined => true
      | JUndefined, JBool true, JUndefined => true
      | JUndefined, JUndefined, JStr _ => true
      | _, _, _ => false
      end
  | _ => false
  end.

(** Reading a property, [undefined] when there is none to read. *)
Definition prop (v : JValue) (k : string) : JValue :=
  default JUndefined (get_prop v (lit k)).

(** The body of an error response as the client takes it: the JSON it
    holds, or the empty object when it holds none. *)
Definition error_body (bs : list Byte.byte) : JValue :=
  default (JObj []) (JSON_parse (decode_all bs)).

(** Whether an object has the property at all. *)
Definition has_prop (v : JValue) (k : string) : bool :=
  match v with
  | JObj props => existsb (fun kv => jsstring_eqb (fst kv) (lit k)) props
  | _ => false
  end.

(** The message of the error as the specification words it, by presence:
    the [error] field if present, otherwise the [message] field if present,
    otherwise [HTTP <status>]. *)
Definition spec_error_message (st : Z) (error : JValue) : option jsstring :=
  if has_prop error "error" then ToString (prop error "error")
  else if has_prop error "message" then ToString (prop error "message")
  else Some (lit "HTTP " ++ num_to_string (num_of_Z st)).

(** The message of the error as the code chooses it, by truthiness: the
    [error] field if it is truthy, otherwise the [message] field if that
    is truthy, otherwise [HTTP <status>]. *)
Definition chosen_message (st : Z) (error : JValue) : JValue :=
  if truthy (prop error "error") then prop error "error"
  else if truthy (prop error "message") then prop error "message"
  else JStr (lit "HTTP " ++ num_to_string (num_of_Z st)).

(** The error object the client makes of a response that is not ok: the
    JSON value of its body, or the empty object when the response has no
    body, or the body breaks off or is not JSON; [None] while the body
    does not end. *)
Definition response_error (r : Response) : option JValue :=
  match resp_body r with
  | None => Some (JObj [])
  | Some b =>
      match body_end b with
      | BodyDone _ => Some (error_body (concat (body_chunks b)))
      | BodyError _ _ => Some (JObj [])
      | BodyStalls => None
      end
  end.

(** The error of a timeout (lines 87 and 262). *)
Definition timeout_error : EasyRAGError :=
  string_EasyRAGError (lit "Request timeout")
                      None JUndefined (DetailsValue JUndefined).

(** The timer of the call goes off before [fetch] settles. *)
Definition timer_fires_first (c : EasyRAG) (net : Network) : Prop :=
  match fetch_settles_at net with
  | Some t => timer_delay (timeout c) < t
  | None => True
  end.

(** A response with the times taken out of its body: what is left is
    what the body delivers and the way it ends. *)
Definition untimed (r : Response) : Response :=
  {| resp_status := resp_status r;
     resp_body :=
       match resp_body r with
       | None => None
       | Some b =>
           Some {| body_chunks := body_chunks b;
                   body_end := match body_end b with
                               | BodyDone _ => BodyDone 0
                               | BodyError _ e => BodyError 0 e
                               | BodyStalls => BodyStalls
                               end |}
       end |}.

(** The body of the response, if it has one, does not break off. *)
Definition body_holds (r : Response) : Prop :=
  forall b t e, resp_body r = Some b -> body_end b <> BodyError t e.

(** The error body of the error shape property. *)
Definition insufficient_credits : list Byte.byte :=
  bytesq "{'error':'INSUFFICIENT_CREDITS','details':{'required':1,'available':0}}".

(** A client and services to run the methods on. *)
Definition demo_client : EasyRAG := constructor (ApiKey (lit "sk_test")).

(** A service that answers every call after 10 ms with the given status and
    body chunks, the body ending at 20 ms. *)
Definition serve (st : Z) (chunks : list (list Byte.byte)) : Server :=
  fun _ =>
    {| fetch_settles_at := Some 10;
       fetch_result := FetchResolves
         {| resp_status := st;
            resp_body := Some {| body_chunks := chunks;
                                 body_end := BodyDone 20 |} |} |}.

(** A service that sends the response head after 10 ms and ends the body
    after a minute. *)
Definition serve_slowly (st : Z) (chunks : list (list Byte.byte)) : Server :=
  fun _ =>
    {| fetch_settles_at := Some 10;
       fetch_result := FetchResolves
         {| resp_status := st;
            resp_body := Some {| body_chunks := chunks;
                                 body_end := BodyDone 60000 |} |} |}.

(** A service that never answers. *)
Definition silent : Server :=
  fun _ => {| fetch_settles_at := None;
              fetch_result := FetchRejects ThrownOther |}.

(** The three frames cut inside the first frame, inside the marker of the
    second and inside the third. *)
Definition three_frames_cut : list (list Byte.byte) :=
  [ bytesq "data: {'del";
    bytesq "ta':'a'}" ++ newline ++ bytes "da";
    bytesq "ta: {'delta':'b'}" ++ newline ++ bytesq "data: {'done'";
    [];
    bytesq ":true}" ++ newline ].

(** The euro frame cut between the bytes of the euro sign. *)
Definition euro_frame_cut : list (list Byte.byte) :=
  [ bytes "data: " ++ bytesq "{'delta':'" ++ [Byte.xe2];
    [Byte.x82];
    [Byte.xac] ++ bytesq "'}" ++ newline ].

Definition frames_with_malformed_cut : list (list Byte.byte) :=
  [ frame "{'delta':'a'}" ++ bytes "data: not";
    bytes "-json" ++ newline ++ frame "{'done':true}" ].

(* ===================================================================== *)
(** ** Vocabulary of the further properties *)
(* ===================================================================== *)

(** The message the [catch] blocks give a failure that is not an abort:
    that of an [Error] or the thrown string, the fallback in its place when
    it is empty, and [Unknown error] for anything else. *)
Definition failure_message (e : Thrown) (fallback : string) : jsstring :=
  match e with
  | ThrownError _ [] | ThrownString [] => lit fallback
  | ThrownError _ m => m
  | ThrownString s => s
  | ThrownObject _ | ThrownOther => lit "Unknown error"
  end.

(** A service whose [fetch] fails after 10 ms. *)
Definition refuse (e : Thrown) : Server :=
  fun _ => {| fetch_settles_at := Some 10; fetch_result := FetchRejects e |}.

(** A service that answers after 10 ms with the given response. *)
Definition respond (r : Response) : Server :=
  fun _ => {| fetch_settles_at := Some 10; fetch_result := FetchResolves r |}.

(** A failed connection, as [fetch] reports it. *)
Definition connection_refused : Thrown :=
  ThrownError (lit "TypeError") (lit "fetch failed").

(** A body that breaks off with a failure after the given chunks. *)
Definition broken_body (chunks : list (list Byte.byte)) (e : Thrown) : Body :=
  {| body_chunks := chunks; body_end := BodyError 30 e |}.

(** A connection reset while the body is read. *)
Definition connection_reset : Thrown :=
  ThrownError (lit "TypeError") (lit "terminated").

(** A 2xx stream that delivers one frame and the start of another, then
    breaks. *)
Definition broken_stream : Server :=
  respond {| resp_status := 200;
             resp_body := Some (broken_body
               [frame "{'delta':'a'}" ++ bytes "data: {"]
               connection_reset) |}.




(** Whether an object has a property of its own named [k]. *)
Definition has_key (props : list (jsstring * JValue)) (k : jsstring) : bool :=
  existsb (fun kv => jsstring_eqb (fst kv) k) props.

(** A filter [{ key, match: { value } }] of [SearchFilter]. *)
Definition SearchFilter (key : jsstring) (value : JValue) : JValue :=
  JObj [(lit "key", JStr key); (lit "match", JObj [(lit "value", value)])].

Definition two_filters : JValue :=
  JArr [SearchFilter (lit "department") (JStr (lit "legal"));
        SearchFilter (lit "year") (JInt 2024)].


(** A code unit is a number of 16 bits. *)
Definition is_code_unit (c : Z) : bool := (0 <=? c) && (c <? 0x10000).

(** Well-formed UTF-16: every surrogate is half of a pair. *)
Fixpoint well_formed (s : jsstring) : bool :=
  match s with
  | [] => true
  | c :: r =>
      if is_lead_surrogate c then
        match r with
        | c2 :: r2 => is_trail_surrogate c2 && well_formed r2
        | [] => false
        end
      else negb (is_trail_surrogate c) && well_formed r
  end.

(** What a percent-encoded component is made of: the unreserved characters
    and the percent sign. *)
Definition uri_safe (c : Z) : bool := uri_unreserved c || (c =? 37).

(** The dataset id a method puts into its URL, if it does. *)
Definition dataset_in_url (op : Operation) : option jsstring :=
  match op with
  | ListFiles d | GetFile d _ | DeleteFile d _ | DeleteDataset d => Some d
  | _ => None
  end.

(** A decoder in a state the handler can leave it in: a sequence is open
    only with bounds among the continuation bytes. *)
Definition utf8_ok (d : Utf8Decoder) : Prop :=
  utf8_bytes_needed d = 0 \/ 0x80 <= utf8_lower d.

(** A decoder between two characters, the byte order mark behind it. *)
Definition td_ready : TextDecoder :=
  {| td_decoder := utf8_initial; td_bom_seen := true |}.

(** The byte order mark in UTF-8. *)
Definition BOM : list Byte.byte := [Byte.xef; Byte.xbb; Byte.xbf].

(** The properties of an object have distinct names. *)
Fixpoint distinct_keys (props : list (jsstring * JValue)) : bool :=
  match props with
  | [] => true
  | (k, _) :: r => negb (has_key r k) && distinct_keys r
  end.

(** The values built of [null], booleans, strings, arrays and objects:
    the JSON values without numbers. *)
Fixpoint plain (v : JValue) : bool :=
  match v with
  | JUndefined | JNum _ => false
  | JNull | JBool _ => true
  | JStr s => forallb is_code_unit s
  | JArr items => forallb plain items
  | JObj props =>
      forallb (fun kv => forallb is_code_unit (fst kv) && plain (snd kv)) props
      && distinct_keys props
  end.

(** The elements and the members [JSON_stringify] writes between the
    brackets and the braces. *)
Fixpoint stringify_elems (l : list JValue) : jsstring :=
  match l with
  | [] => []
  | x :: l' =>
      match JSON_stringify x with
      | Some t => t
      | None => lit "null"
      end
      ++ match l' with [] => [] | _ => lit "," ++ stringify_elems l' end
  end.

Fixpoint stringify_members (l : list (jsstring * JValue)) (first : bool)
  : jsstring :=
  match l with
  | [] => []
  | (k, x) :: l' =>
      match JSON_stringify x with
      | Some t =>
          (if first then [] else lit ",") ++ quote k ++ lit ":" ++ t
          ++ stringify_members l' false
      | None => stringify_members l' first
      end
  end.

(** [JSON_stringify] gives [v] a text that starts a value and that
    [parse_value] reads back as [v], whatever follows it. *)
Definition parses_back (v : JValue) : Prop :=
  exists c t,
    JSON_stringify v = Some (c :: t)
    /\ is_ws c = false /\ c <> 93
    /\ forall rest f,
         (2 * length (c :: t ++ rest) + 1 <= f)%nat ->
         parse_value f (c :: t ++ rest) = POk v rest.

(** A result of a parser on a text, seen on the text with a carriage
    return after it: the return is left over with the rest. *)
Definition with_cr {A : Type} (r : option (A * jsstring))
  : option (A * jsstring) :=
  match r with
  | Some (a, rest) => Some (a, rest ++ [13])
  | None => None
  end.

Definition parse_with_cr (r : Parse JValue) : Parse JValue :=
  match r with
  | POk v rest => POk v (rest ++ [13])
  | PSyntaxError => PSyntaxError
  | POutOfFuel => POutOfFuel
  end.

(* ===================================================================== *)
(** ** The stream decoder does not see the chunk boundaries *)
(* ===================================================================== *)

Section StreamDecoder.

Lemma decode_stream_app td a b :
  decode_stream td (a ++ b) =
  let '(td1, o1) := decode_stream td a in
  let '(td2, o2) := decode_stream td1 b in
  (td2, o1 ++ o2).
Proof.
  revert td. induction a as [|x a IH]; intros td; simpl.
  - destruct (decode_stream td b); reflexivity.
  - destruct (td_byte td x) as [td1 o1].
    rewrite IH.
    destruct (decode_stream td1 a) as [td2 o2].
    destruct (decode_stream td2 b) as [td3 o3].
    rewrite app_assoc. reflexivity.
Qed.

Lemma split_not_nil sep s : split sep s <> [].
Proof.
  destruct s as [|c s]; simpl; [discriminate|].
  destruct (c =? sep); [discriminate|].
  destruct (split sep s); discriminate.
Qed.

Lemma split_cons sep c s :
  split sep (c :: s) =
  if c =? sep then [] :: split sep s
  else (c :: List.hd [] (split sep s)) :: List.tl (split sep s).
Proof.
  simpl. destruct (c =? sep); [reflexivity|].
  pose proof (split_not_nil sep s).
  destruct (split sep s); [congruence | reflexivity].
Qed.

(** Splitting a text in two pieces: the lines of the first, with the
    second continuing its last, unfinished, line. *)
Lemma split_app sep a t :
  split sep (a ++ t) =
  List.removelast (split sep a) ++ split sep (List.last (split sep a) [] ++ t).
Proof.
  induction a as [|c a IH].
  - reflexivity.
  - rewrite <- app_comm_cons, !split_cons.
    pose proof (split_not_nil sep a) as Ha.
    destruct (c =? sep) eqn:E.
    + rewrite IH. destruct (split sep a) as [|l ls]; [congruence|].
      reflexivity.
    + rewrite IH. destruct (split sep a) as [|l ls]; [congruence|].
      destruct ls as [|l' ls]; simpl.
      * rewrite E. pose proof (split_not_nil sep (l ++ t)).
        destruct (split sep (l ++ t)); [congruence | reflexivity].
      * reflexivity.
Qed.

Lemma split_last_fixed sep s :
  split sep (List.last (split sep s) []) = [List.last (split sep s) []].
Proof.
  induction s as [|c s IH]; [reflexivity|].
  rewrite split_cons.
  pose proof (split_not_nil sep s) as Hs.
  destruct (c =? sep) eqn:E.
  - destruct (split sep s) as [|l ls]; [congruence|]. exact IH.
  - destruct (split sep s) as [|l ls]; [congruence|].
    destruct ls as [|l' ls]; [|exact IH].
    simpl in *. rewrite E, IH. reflexivity.
Qed.

Lemma last_app_not_nil {A} (x y : list A) d :
  y <> [] -> List.last (x ++ y) d = List.last y d.
Proof.
  intros Hy. induction x as [|a x IH]; [reflexivity|].
  simpl. rewrite IH. destruct (x ++ y) eqn:E; [|reflexivity].
  apply app_eq_nil in E. tauto.
Qed.

Lemma removelast_app_not_nil {A} (x y : list A) :
  y <> [] -> List.removelast (x ++ y) = x ++ List.removelast y.
Proof. intros Hy. apply List.removelast_app. exact Hy. Qed.

Lemma frame_events_app l1 l2 :
  frame_events (l1 ++ l2) = frame_events l1 ++ frame_events l2.
Proof. unfold frame_events. apply flat_map_app. Qed.

(** The loop from any reader: the events are those of the complete lines
    of the buffer followed by the text of all the bytes, and the buffer
    that remains is the piece after the last newline. *)
Lemma read_loop_spec chunks : forall rd,
  buffer_ok rd ->
  read_loop rd chunks =
  let '(td, text) := decode_stream (rd_decoder rd) (concat chunks) in
  ({| rd_decoder := td; rd_buffer := partial_line (rd_buffer rd ++ text) |},
   frame_events (complete_lines (rd_buffer rd ++ text))).
Proof.
  unfold buffer_ok, partial_line, complete_lines.
  induction chunks as [|value rest IH]; intros rd Hrd.
  - simpl. rewrite app_nil_r, Hrd. destruct rd; reflexivity.
  - simpl. unfold read_chunk. rewrite decode_stream_app.
    destruct (decode_stream (rd_decoder rd) value) as [td1 t1].
    rewrite IH by apply split_last_fixed. simpl.
    destruct (decode_stream td1 (concat rest)) as [td2 t2].
    rewrite (app_assoc (rd_buffer rd) t1 t2).
    rewrite (split_app 10 (rd_buffer rd ++ t1) t2).
    pose proof (split_not_nil 10
      (List.last (split 10 (rd_buffer rd ++ t1)) [] ++ t2)) as Hne.
    rewrite last_app_not_nil, removelast_app_not_nil by exact Hne.
    rewrite frame_events_app. reflexivity.
Qed.

(** The events of a stream are those of the complete lines of its text. *)
Lemma decode_events_spec chunks :
  decode_events chunks =
  frame_events (complete_lines (stream_text (concat chunks))).
Proof.
  unfold decode_events, stream_text.
  rewrite read_loop_spec by reflexivity. simpl.
  destruct (decode_stream new_TextDecoder (concat chunks)); reflexivity.
Qed.

(** The end of the stream does not flush the buffer: a last line without
    its newline is not yielded. *)
Lemma unterminated_last_line_not_yielded :
  decode_events [frame "{'delta':'a'}" ++ bytes "data: " ++ bytesq "{'done':true}"]
  = [StreamDelta (lit "a")].
Proof. reflexivity. Qed.

Lemma decode_events_chunking chunks1 chunks2 :
  concat chunks1 = concat chunks2 ->
  decode_events chunks1 = decode_events chunks2.
Proof. intros H. rewrite !decode_events_spec, H. reflexivity. Qed.

End StreamDecoder.

(* ===================================================================== *)
(** ** The decoder reads what UTF-8 writes *)
(* ===================================================================== *)

Section Utf8.

Lemma check_from_spec f n : forall lo,
  check_from f lo n = true ->
  forall z, lo <= z < lo + Z.of_nat n -> f z = true.
Proof.
  induction n as [|n IH]; intros lo H z Hz; [lia|].
  simpl in H. apply andb_prop in H as [H0 H1].
  destruct (Z.eq_dec z lo) as [->|Hne]; [exact H0|].
  apply (IH (lo + 1) H1). lia.
Qed.

(** A continuation byte carries six bits. *)
Lemma continuation_byte x :
  0 <= x < 64 ->
  Z.lor 0x80 x = 0x80 + x /\ Z.land (0x80 + x) 0x3F = x.
Proof.
  intros Hx.
  assert (H : check_from (fun x => (Z.lor 0x80 x =? 0x80 + x)
                                   && (Z.land (0x80 + x) 0x3F =? x)) 0 64 = true)
    by reflexivity.
  apply (check_from_spec _ _ _ H x) in Hx.
  apply andb_prop in Hx as [H1 H2]. lia.
Qed.

Lemma lead_byte (tag mask : Z) (n : nat) x :
  check_from (fun x => (Z.lor tag x =? tag + x)
                       && (Z.land (tag + x) mask =? x)) 0 n = true ->
  0 <= x < Z.of_nat n ->
  Z.lor tag x = tag + x /\ Z.land (tag + x) mask = x.
Proof.
  intros H Hx. apply (check_from_spec _ _ _ H x) in Hx.
  apply andb_prop in Hx as [H1 H2]. lia.
Qed.

Lemma shift_in a x :
  0 <= a -> 0 <= x < 64 -> Z.lor (Z.shiftl a 6) x = 64 * a + x.
Proof.
  intros Ha Hx.
  rewrite Z.shiftl_mul_pow2 by lia.
  assert (Hland : Z.land (a * 2 ^ 6) x = 0).
  { apply Z.bits_inj'. intros n Hn.
    rewrite Z.land_spec, Z.bits_0.
    destruct (Z.lt_ge_cases n 6) as [Hlt|Hge].
    - rewrite Z.mul_pow2_bits_low by lia. reflexivity.
    - destruct (Z.eq_dec x 0) as [->|Hx0];
        [rewrite Z.bits_0; apply andb_false_r|].
      rewrite (Z.bits_above_log2 x n), andb_false_r; [reflexivity|lia|].
      apply Z.log2_lt_pow2; [lia|].
      apply Z.lt_le_trans with (2 ^ 6); [lia|].
      apply Z.pow_le_mono_r; lia. }
  rewrite <- Z.lxor_lor by exact Hland.
  rewrite <- Z.add_nocarry_lxor by exact Hland. lia.
Qed.


Ltac decide_tests :=
  repeat match goal with
         | |- context [?a <=? ?b] =>
             destruct (Z.leb_spec a b); try lia
         | |- context [?a <? ?b] =>
             destruct (Z.ltb_spec a b); try lia
         | |- context [?a =? ?b] =>
             destruct (Z.eqb_spec a b); try lia
         end.

Lemma utf8_lead_2 h :
  2 <= h < 32 ->
  utf8_lead (0xC0 + h) =
  ({| utf8_code_point := h; utf8_bytes_needed := 1; utf8_bytes_seen := 0;
      utf8_lower := 0x80; utf8_upper := 0xBF |}, []).
Proof.
  intros Hh. unfold utf8_lead.
  destruct (lead_byte 0xC0 0x1F 32 h eq_refl ltac:(lia)) as [_ ->].
  decide_tests; reflexivity.
Qed.

Lemma utf8_lead_3 y :
  0 <= y < 16 ->
  utf8_lead (0xE0 + y) =
  ({| utf8_code_point := y; utf8_bytes_needed := 2; utf8_bytes_seen := 0;
      utf8_lower := if y =? 0 then 0xA0 else 0x80;
      utf8_upper := if y =? 13 then 0x9F else 0xBF |}, []).
Proof.
  intros Hy. unfold utf8_lead.
  destruct (lead_byte 0xE0 0xF 16 y eq_refl ltac:(lia)) as [_ ->].
  decide_tests; reflexivity.
Qed.

Lemma utf8_lead_4 y :
  0 <= y <= 4 ->
  utf8_lead (0xF0 + y) =
  ({| utf8_code_point := y; utf8_bytes_needed := 3; utf8_bytes_seen := 0;
      utf8_lower := if y =? 0 then 0x90 else 0x80;
      utf8_upper := if y =? 4 then 0x8F else 0xBF |}, []).
Proof.
  intros Hy. unfold utf8_lead.
  destruct (lead_byte 0xF0 0x7 8 y eq_refl ltac:(lia)) as [_ ->].
  decide_tests; reflexivity.
Qed.

(** A continuation byte within the bounds shifts its six bits in. *)
Lemma utf8_continuation d x :
  utf8_bytes_needed d <> 0 ->
  0 <= utf8_code_point d ->
  0 <= x < 64 ->
  utf8_lower d <= 0x80 + x <= utf8_upper d ->
  utf8_handler d (0x80 + x) =
  if utf8_bytes_seen d + 1 =? utf8_bytes_needed d
  then (utf8_initial, [64 * utf8_code_point d + x])
  else ({| utf8_code_point := 64 * utf8_code_point d + x;
           utf8_bytes_needed := utf8_bytes_needed d;
           utf8_bytes_seen := utf8_bytes_seen d + 1;
           utf8_lower := 0x80; utf8_upper := 0xBF |}, []).
Proof.
  intros Hn Hc Hx Hb. unfold utf8_handler.
  destruct (continuation_byte x Hx) as [_ ->].
  rewrite (shift_in _ x Hc Hx).
  destruct (Z.eqb_spec (utf8_bytes_needed d) 0); [contradiction|].
  destruct (Z.ltb_spec (0x80 + x) (utf8_lower d)); [lia|].
  destruct (Z.ltb_spec (utf8_upper d) (0x80 + x)); [lia|].
  reflexivity.
Qed.

Ltac next_continuation :=
  rewrite utf8_continuation;
  cbn [utf8_bytes_needed utf8_code_point utf8_lower utf8_upper
       utf8_bytes_seen];
  try lia.

(** The pieces of six bits of a code point. *)
Lemma six_bit_pieces cp :
  0 <= cp ->
  Z.shiftr cp 6 = cp / 64 /\ Z.shiftr cp 12 = cp / 4096
  /\ Z.shiftr cp 18 = cp / 262144
  /\ Z.land cp 0x3F = cp mod 64
  /\ Z.land (Z.shiftr cp 6) 0x3F = (cp / 64) mod 64
  /\ Z.land (Z.shiftr cp 12) 0x3F = (cp / 4096) mod 64.
Proof.
  intros H.
  rewrite !Z.shiftr_div_pow2 by lia.
  change 0x3F with (Z.ones 6). rewrite !Z.land_ones by lia.
  repeat split.
Qed.

Lemma utf8_decodes_encoding cp :
  is_scalar cp = true ->
  utf8_handle_all utf8_initial (utf8_encode cp) = (utf8_initial, [cp]).
Proof.
  unfold is_scalar. intros H.
  apply andb_prop in H as [H Hs]. apply andb_prop in H as [H0 H1].
  apply Z.leb_le in H0. apply Z.ltb_lt in H1.
  apply negb_true_iff, andb_false_iff in Hs.
  assert (Hsur : cp < 0xD800 \/ 0xDFFF < cp)
    by (destruct Hs as [Hs|Hs]; apply Z.leb_gt in Hs; lia).
  clear Hs.
  destruct (six_bit_pieces cp H0) as (E6 & E12 & E18 & L0 & L6 & L12).
  unfold utf8_encode.
  destruct (Z.ltb_spec cp 0x80).
  { simpl. unfold utf8_handler, utf8_lead. simpl. decide_tests. reflexivity. }
  set (x0 := cp mod 64) in *.
  set (x1 := (cp / 64) mod 64) in *.
  set (x2 := (cp / 4096) mod 64) in *.
  assert (Hx0 : 0 <= x0 < 64) by (apply Z.mod_pos_bound; lia).
  assert (Hx1 : 0 <= x1 < 64) by (apply Z.mod_pos_bound; lia).
  assert (Hx2 : 0 <= x2 < 64) by (apply Z.mod_pos_bound; lia).
  destruct (continuation_byte x0 Hx0) as [C0 _].
  destruct (continuation_byte x1 Hx1) as [C1 _].
  destruct (continuation_byte x2 Hx2) as [C2 _].
  destruct (Z.ltb_spec cp 0x800).
  { rewrite E6, L0, C0.
    assert (Hh : 2 <= cp / 64 < 32) by (Z.div_mod_to_equations; lia).
    destruct (lead_byte 0xC0 0x1F 32 (cp / 64) eq_refl ltac:(lia)) as [-> _].
    cbn [utf8_handle_all]. unfold utf8_handler at 1. cbn [utf8_bytes_needed utf8_initial].
    rewrite Z.eqb_refl, (utf8_lead_2 _ Hh).
    rewrite utf8_continuation; cbn; try lia.
    change (0 + 1 =? 1) with true. cbn.
    f_equal. f_equal. subst x0. Z.div_mod_to_equations; lia. }
  destruct (Z.ltb_spec cp 0x10000).
  { rewrite E12, L6, L0, C0, C1.
    assert (Hy : 0 <= cp / 4096 < 16) by (Z.div_mod_to_equations; lia).
    destruct (lead_byte 0xE0 0xF 16 (cp / 4096) eq_refl ltac:(lia)) as [-> _].
    cbn [utf8_handle_all]. unfold utf8_handler at 1. cbn [utf8_bytes_needed utf8_initial].
    rewrite Z.eqb_refl, (utf8_lead_3 _ Hy).
    next_continuation.
    2:{ subst x1. decide_tests; Z.div_mod_to_equations; lia. }
    change (0 + 1 =? 2) with false. cbv iota.
    rewrite utf8_continuation; cbn; try lia.
    change (0 + 1 + 1 =? 2) with true. cbn.
    f_equal. f_equal. subst x0 x1. Z.div_mod_to_equations; lia. }
  rewrite E18, L12, L6, L0, C0, C1, C2.
  assert (Hy : 0 <= cp / 262144 <= 4) by (Z.div_mod_to_equations; lia).
  destruct (lead_byte 0xF0 0x7 8 (cp / 262144) eq_refl ltac:(lia)) as [-> _].
  cbn [utf8_handle_all]. unfold utf8_handler at 1. cbn [utf8_bytes_needed utf8_initial].
  rewrite Z.eqb_refl, (utf8_lead_4 _ Hy).
  next_continuation.
  2:{ subst x2. decide_tests; Z.div_mod_to_equations; lia. }
  change (0 + 1 =? 3) with false. cbv iota.
  next_continuation.
  change (0 + 1 + 1 =? 3) with false. cbv iota.
  rewrite utf8_continuation; cbn; try lia.
  change (0 + 1 + 1 + 1 =? 3) with true. cbn.
  f_equal. f_equal. subst x0 x1 x2. Z.div_mod_to_equations; lia.
Qed.


Lemma byte_val_of z : 0 <= z < 256 -> byte_val (byte_of z) = z.
Proof.
  intros Hz. unfold byte_val, byte_of.
  destruct (Byte.of_N (Z.to_N z)) as [b|] eqn:E.
  - apply Byte.to_of_N in E. simpl. rewrite E. lia.
  - apply Byte.of_N_None_iff in E. lia.
Qed.

Lemma utf8_encode_range cp :
  is_scalar cp = true -> List.Forall (fun z => 0 <= z < 256) (utf8_encode cp).
Proof.
  unfold is_scalar. intros H.
  apply andb_prop in H as [H _]. apply andb_prop in H as [H0 H1].
  apply Z.leb_le in H0. apply Z.ltb_lt in H1.
  destruct (six_bit_pieces cp H0) as (E6 & E12 & E18 & L0 & L6 & L12).
  assert (Hx0 : 0 <= cp mod 64 < 64) by (apply Z.mod_pos_bound; lia).
  assert (Hx1 : 0 <= (cp / 64) mod 64 < 64) by (apply Z.mod_pos_bound; lia).
  assert (Hx2 : 0 <= (cp / 4096) mod 64 < 64) by (apply Z.mod_pos_bound; lia).
  destruct (continuation_byte _ Hx0) as [C0 _].
  destruct (continuation_byte _ Hx1) as [C1 _].
  destruct (continuation_byte _ Hx2) as [C2 _].
  unfold utf8_encode.
  destruct (Z.ltb_spec cp 0x80); [repeat constructor; lia|].
  destruct (Z.ltb_spec cp 0x800).
  { rewrite E6, L0, C0.
    assert (Hh : 2 <= cp / 64 < 32) by (Z.div_mod_to_equations; lia).
    destruct (lead_byte 0xC0 0x1F 32 (cp / 64) eq_refl ltac:(lia)) as [-> _].
    repeat constructor; lia. }
  destruct (Z.ltb_spec cp 0x10000).
  { rewrite E12, L6, L0, C0, C1.
    assert (Hy : 0 <= cp / 4096 < 16) by (Z.div_mod_to_equations; lia).
    destruct (lead_byte 0xE0 0xF 16 (cp / 4096) eq_refl ltac:(lia)) as [-> _].
    repeat constructor; lia. }
  rewrite E18, L12, L6, L0, C0, C1, C2.
  assert (Hy : 0 <= cp / 262144 <= 4) by (Z.div_mod_to_equations; lia).
  destruct (lead_byte 0xF0 0x7 8 (cp / 262144) eq_refl ltac:(lia)) as [-> _].
  repeat constructor; lia.
Qed.

Lemma serialize_seen cps :
  serialize true cps = (true, concat (map utf16 cps)).
Proof.
  induction cps as [|cp cps IH]; [reflexivity|].
  simpl. rewrite IH. reflexivity.
Qed.

Lemma serialize_app b c1 c2 :
  serialize b (c1 ++ c2) =
  let '(b1, o1) := serialize b c1 in
  let '(b2, o2) := serialize b1 c2 in
  (b2, o1 ++ o2).
Proof.
  destruct c1 as [|cp c1]; simpl.
  - destruct (serialize b c2); reflexivity.
  - rewrite (serialize_seen (c1 ++ c2)), (serialize_seen c1).
    rewrite (serialize_seen c2), map_app, concat_app, app_assoc.
    reflexivity.
Qed.

(** The decoder of a [TextDecoder] handles the bytes, and the scalar
    values come out serialized. *)
Lemma decode_stream_handle zs : forall td,
  List.Forall (fun z => 0 <= z < 256) zs ->
  decode_stream td (map byte_of zs) =
  let '(d, cps) := utf8_handle_all (td_decoder td) zs in
  let '(bom, out) := serialize (td_bom_seen td) cps in
  ({| td_decoder := d; td_bom_seen := bom |}, out).
Proof.
  induction zs as [|z zs IH]; intros td Hzs.
  - simpl. destruct td; reflexivity.
  - inversion Hzs as [|? ? Hz Hzs']; subst.
    simpl. unfold td_byte. rewrite (byte_val_of z Hz).
    destruct (utf8_handler (td_decoder td) z) as [d1 o1].
    destruct (serialize (td_bom_seen td) o1) as [b1 out1] eqn:E1.
    rewrite (IH _ Hzs'). simpl.
    destruct (utf8_handle_all d1 zs) as [d2 o2].
    rewrite serialize_app, E1.
    destruct (serialize b1 o2) as [b2 out2]. reflexivity.
Qed.

(** The multi-byte boundary property: the UTF-8 bytes of a character, cut
    anywhere between two chunks, decode to the character, and the decoder
    is back in its initial state. *)
Lemma multibyte_boundary cp a b td :
  is_scalar cp = true ->
  a ++ b = utf8_bytes cp ->
  td_decoder td = utf8_initial ->
  td_bom_seen td = true \/ cp <> 0xFEFF ->
  let '(td1, t1) := decode_stream td a in
  let '(td2, t2) := decode_stream td1 b in
  t1 ++ t2 = utf16 cp /\ td2 = {| td_decoder := utf8_initial; td_bom_seen := true |}.
Proof.
  intros Hcp Hab Htd Hbom.
  pose proof (decode_stream_app td a b) as Happ.
  rewrite Hab in Happ. unfold utf8_bytes in Happ.
  rewrite (decode_stream_handle _ td (utf8_encode_range cp Hcp)) in Happ.
  rewrite Htd, (utf8_decodes_encoding cp Hcp) in Happ.
  destruct (decode_stream td a) as [td1 t1].
  destruct (decode_stream td1 b) as [td2 t2].
  simpl in Happ. injection Happ as <- <-.
  rewrite app_nil_r. split; [|reflexivity].
  destruct Hbom as [-> | Hne]; [reflexivity|].
  destruct (Z.eqb_spec cp 0xFEFF); [contradiction|].
  rewrite andb_false_r. reflexivity.
Qed.

End Utf8.

(* ===================================================================== *)
(** ** Frames in, events out *)
(* ===================================================================== *)

Section Frames.

Lemma decode_stream_text cps : forall td,
  td_decoder td = utf8_initial ->
  forallb is_scalar cps = true ->
  td_bom_seen td = true \/ List.hd 0 cps <> 0xFEFF ->
  decode_stream td (utf8_text cps) =
  (match cps with
   | [] => td
   | _ => {| td_decoder := utf8_initial; td_bom_seen := true |}
   end, utf16_text cps).
Proof.
  induction cps as [|cp cps IH]; intros td Htd Hall Hbom.
  - reflexivity.
  - simpl in Hall. apply andb_prop in Hall as [Hcp Hall].
    unfold utf8_text, utf16_text. cbn [map concat].
    rewrite decode_stream_app.
    pose proof (multibyte_boundary cp (utf8_bytes cp) [] td Hcp
                  (app_nil_r _) Htd Hbom) as H1.
    destruct (decode_stream td (utf8_bytes cp)) as [td1 t1].
    simpl in H1. destruct H1 as [Ht1 Htd1]. rewrite app_nil_r in Ht1.
    subst td1 t1.
    fold (utf8_text cps).
    rewrite (IH {| td_decoder := utf8_initial; td_bom_seen := true |}
               eq_refl Hall (or_introl eq_refl)).
    f_equal. destruct cps; reflexivity.
Qed.


Lemma split_lines sep (ls : list jsstring) :
  List.Forall (fun l => List.Forall (fun c => c <> sep) l) ls ->
  split sep (concat (map (fun l => l ++ [sep]) ls)) = ls ++ [[]].
Proof.
  induction ls as [|l ls IH]; intros Hls; [reflexivity|].
  inversion Hls as [|? ? Hl Hls']; subst.
  cbn [map concat]. rewrite <- app_assoc.
  clear Hls. induction l as [|c l IHl].
  - simpl. rewrite Z.eqb_refl, (IH Hls'). reflexivity.
  - inversion Hl as [|? ? Hc Hl']; subst.
    rewrite <- app_comm_cons, split_cons.
    destruct (Z.eqb_spec c sep); [contradiction|].
    rewrite (IHl Hl'). reflexivity.
Qed.

Lemma startsWith_app p s : startsWith (p ++ s) p = true.
Proof.
  induction p as [|x p IH]; [destruct s; reflexivity|].
  simpl. rewrite Z.eqb_refl. exact IH.
Qed.

Lemma utf16_no_newline cp :
  is_text_char cp = true -> List.Forall (fun c => c <> 10) (utf16 cp).
Proof.
  unfold is_text_char, is_scalar, utf16. intros H.
  apply andb_prop in H as [H Hn]. apply andb_prop in H as [H _].
  apply andb_prop in H as [H0 H1].
  apply Z.leb_le in H0. apply Z.ltb_lt in H1.
  apply negb_true_iff, Z.eqb_neq in Hn.
  destruct (Z.ltb_spec cp 0x10000); [repeat constructor; exact Hn|].
  rewrite Z.shiftr_div_pow2 by lia.
  change 0x3FF with (Z.ones 10). rewrite Z.land_ones by lia.
  repeat constructor; Z.div_mod_to_equations; lia.
Qed.


Lemma utf16_text_no_newline cps :
  forallb is_text_char cps = true ->
  List.Forall (fun c => c <> 10) (utf16_text cps).
Proof.
  induction cps as [|cp cps IH]; intros H; [constructor|].
  simpl in H. apply andb_prop in H as [Hcp H].
  unfold utf16_text. cbn [map concat].
  apply List.Forall_app. split; [apply utf16_no_newline, Hcp | apply IH, H].
Qed.

Lemma utf16_text_app a b : utf16_text (a ++ b) = utf16_text a ++ utf16_text b.
Proof. unfold utf16_text. rewrite map_app, concat_app. reflexivity. Qed.

Lemma utf8_text_app a b : utf8_text (a ++ b) = utf8_text a ++ utf8_text b.
Proof. unfold utf8_text. rewrite map_app, concat_app. reflexivity. Qed.

Lemma is_text_char_scalar cps :
  forallb is_text_char cps = true -> forallb is_scalar cps = true.
Proof.
  induction cps as [|cp cps IH]; [reflexivity|].
  simpl. intros H. apply andb_prop in H as [Hcp H].
  unfold is_text_char in Hcp. apply andb_prop in Hcp as [-> _].
  simpl. apply IH, H.
Qed.

(** The bytes of a sequence of frames are the UTF-8 of one text. *)
Lemma frames_as_text (payloads : list (list Z)) :
  concat (map frame_of payloads) =
  utf8_text (concat (map (fun p => marker ++ p ++ [10]) payloads)).
Proof.
  induction payloads as [|p ps IH]; [reflexivity|].
  cbn [map concat]. rewrite utf8_text_app, IH. reflexivity.
Qed.

Lemma frames_scalar (payloads : list (list Z)) :
  forallb (forallb is_text_char) payloads = true ->
  forallb is_scalar (concat (map (fun p => marker ++ p ++ [10]) payloads)) = true.
Proof.
  induction payloads as [|p ps IH]; [reflexivity|].
  intros H. cbn [forallb] in H. apply andb_prop in H as [Hp H].
  cbn [map concat]. rewrite !forallb_app.
  rewrite (is_text_char_scalar p Hp), (IH H). reflexivity.
Qed.

Lemma frames_text (payloads : list (list Z)) :
  utf16_text (concat (map (fun p => marker ++ p ++ [10]) payloads)) =
  concat (map (fun l => l ++ [10])
              (map (fun p => lit "data: " ++ utf16_text p) payloads)).
Proof.
  induction payloads as [|p ps IH]; [reflexivity|].
  cbn [map concat]. rewrite utf16_text_app, IH.
  rewrite !utf16_text_app. rewrite <- !app_assoc. reflexivity.
Qed.

(** The text of a stream of frames. *)
Lemma stream_text_frames (payloads : list (list Z)) :
  forallb (forallb is_text_char) payloads = true ->
  stream_text (concat (map frame_of payloads)) =
  concat (map (fun l => l ++ [10])
              (map (fun p => lit "data: " ++ utf16_text p) payloads)).
Proof.
  intros H. unfold stream_text.
  rewrite frames_as_text, decode_stream_text.
  - simpl. apply frames_text.
  - reflexivity.
  - apply frames_scalar, H.
  - right. destruct payloads; simpl; discriminate.
Qed.

(** The frames of a stream, whatever the chunks they come in, yield the
    values of their payloads in order; a frame whose payload is not JSON
    yields nothing. *)
Lemma decode_events_frames (payloads : list (list Z)) chunks :
  forallb (forallb is_text_char) payloads = true ->
  concat chunks = concat (map frame_of payloads) ->
  decode_events chunks =
  omap (fun p => JSON_parse (utf16_text p)) payloads.
Proof.
  intros H Hbytes.
  rewrite decode_events_spec, Hbytes, (stream_text_frames _ H).
  unfold complete_lines. rewrite split_lines.
  - rewrite List.removelast_last. clear H Hbytes.
    induction payloads as [|p ps IH]; [reflexivity|].
    cbn [map omap list_omap]. unfold frame_events in *. cbn [flat_map].
    rewrite IH, startsWith_app.
    unfold slice. rewrite drop_app_length' by reflexivity.
    destruct (JSON_parse (utf16_text p)); reflexivity.
  - apply List.Forall_forall. intros l Hl.
    apply in_map_iff in Hl as (p & <- & Hp).
    apply List.Forall_app. split; [repeat constructor; discriminate|].
    apply utf16_text_no_newline.
    rewrite forallb_forall in H. apply H, Hp.
Qed.

End Frames.

(* ===================================================================== *)
(** ** What [JSON.parse] returns *)
(* ===================================================================== *)

Section JSONParse.

Lemma parse_value_S f s :
  parse_value (S f) s =
  match skip_ws s with
  | [] => PSyntaxError
  | c :: r =>
      if c =? 123 then
        match skip_ws r with
        | [] => PSyntaxError
        | c2 :: r2 =>
            if c2 =? 125 then POk (JObj []) r2
            else parse_members f (c2 :: r2) []
        end
      else if c =? 91 then
        match skip_ws r with
        | [] => PSyntaxError
        | c2 :: r2 =>
            if c2 =? 93 then POk (JArr []) r2
            else parse_elements f (c2 :: r2) []
        end
      else if c =? 34 then
        match parse_string r with
        | Some (str, rest) => POk (JStr str) rest
        | None => PSyntaxError
        end
      else if startsWith (c :: r) (lit "true") then
        POk (JBool true) (drop 4 (c :: r))
      else if startsWith (c :: r) (lit "false") then
        POk (JBool false) (drop 5 (c :: r))
      else if startsWith (c :: r) (lit "null") then
        POk JNull (drop 4 (c :: r))
      else
        match parse_number (c :: r) with
        | Some (n, rest) => POk (JNum n) rest
        | None => PSyntaxError
        end
  end.
Proof. reflexivity. Qed.

Lemma parse_elements_S f s acc :
  parse_elements (S f) s acc =
  match parse_value f s with
  | POk v rest =>
      match skip_ws rest with
      | [] => PSyntaxError
      | c :: r =>
          if c =? 44 then parse_elements f r (acc ++ [v])
          else if c =? 93 then POk (JArr (acc ++ [v])) r
          else PSyntaxError
      end
  | PSyntaxError => PSyntaxError
  | POutOfFuel => POutOfFuel
  end.
Proof. reflexivity. Qed.

Lemma parse_members_S f s acc :
  parse_members (S f) s acc =
  match skip_ws s with
  | [] => PSyntaxError
  | c :: r =>
      if c =? 34 then
        match parse_string r with
        | None => PSyntaxError
        | Some (key, rest) =>
            match skip_ws rest with
            | [] => PSyntaxError
            | c2 :: r2 =>
                if c2 =? 58 then
                  match parse_value f r2 with
                  | POk v rest2 =>
                      match skip_ws rest2 with
                      | [] => PSyntaxError
                      | c3 :: r3 =>
                          if c3 =? 44 then
                            parse_members f r3 (obj_set acc key v)
                          else if c3 =? 125 then
                            POk (JObj (obj_set acc key v)) r3
                          else PSyntaxError
                      end
                  | PSyntaxError => PSyntaxError
                  | POutOfFuel => POutOfFuel
                  end
                else PSyntaxError
            end
        end
      else PSyntaxError
  end.
Proof. reflexivity. Qed.

Lemma parse_elements_array f : forall s acc v r,
  parse_elements f s acc = POk v r -> exists items, v = JArr items.
Proof.
  induction f as [|f IH]; intros s acc v r H; [discriminate|].
  rewrite parse_elements_S in H.
  destruct (parse_value f s) as [v0 rest| |]; try discriminate.
  destruct (skip_ws rest) as [|x r0]; [discriminate|].
  destruct (x =? 44); [eauto|].
  destruct (x =? 93); [|discriminate].
  injection H as <- _. eauto.
Qed.

Lemma parse_members_object f : forall s acc v r,
  parse_members f s acc = POk v r -> exists props, v = JObj props.
Proof.
  induction f as [|f IH]; intros s acc v r H; [discriminate|].
  rewrite parse_members_S in H.
  destruct (skip_ws s) as [|x r0]; [discriminate|].
  destruct (x =? 34); [|discriminate].
  destruct (parse_string r0) as [[key rest]|]; [|discriminate].
  destruct (skip_ws rest) as [|x2 r2]; [discriminate|].
  destruct (x2 =? 58); [|discriminate].
  destruct (parse_value f r2) as [v0 rest2| |]; try discriminate.
  destruct (skip_ws rest2) as [|x3 r3]; [discriminate|].
  destruct (x3 =? 44); [eauto|].
  destruct (x3 =? 125); [|discriminate].
  injection H as <- _. eauto.
Qed.

(** [JSON.parse] never returns [undefined]. *)
Lemma parse_value_defined f s v r :
  parse_value f s = POk v r -> v <> JUndefined.
Proof.
  destruct f as [|f]; [discriminate|]. rewrite parse_value_S.
  destruct (skip_ws s) as [|x r0]; [discriminate|].
  destruct (x =? 123).
  { destruct (skip_ws r0) as [|x2 r2]; [discriminate|].
    destruct (x2 =? 125); [intros [= <- _]; discriminate|].
    intros H. apply parse_members_object in H as [props ->]. discriminate. }
  destruct (x =? 91).
  { destruct (skip_ws r0) as [|x2 r2]; [discriminate|].
    destruct (x2 =? 93); [intros [= <- _]; discriminate|].
    intros H. apply parse_elements_array in H as [items ->]. discriminate. }
  destruct (x =? 34).
  { destruct (parse_string r0) as [[str rest]|]; [|discriminate].
    intros [= <- _]; discriminate. }
  destruct (startsWith (x :: r0) (lit "true")); [intros [= <- _]; discriminate|].
  destruct (startsWith (x :: r0) (lit "false")); [intros [= <- _]; discriminate|].
  destruct (startsWith (x :: r0) (lit "null")); [intros [= <- _]; discriminate|].
  destruct (parse_number (x :: r0)) as [[n rest]|]; [|discriminate].
  intros [= <- _]; discriminate.
Qed.

Lemma JSON_parse_defined text v :
  JSON_parse text = Some v -> v <> JUndefined.
Proof.
  unfold JSON_parse.
  destruct (parse_value _ _) as [v0 rest| |] eqn:E; try discriminate.
  destruct (skip_ws rest); [|discriminate].
  intros [= <-]. eapply parse_value_defined, E.
Qed.

(** *** The fuel of [JSON_parse] is enough *)

Lemma skip_ws_length s : (length (skip_ws s) <= length s)%nat.
Proof.
  induction s as [|x s IH]; simpl; [lia|].
  destruct (is_ws x); simpl; lia.
Qed.

Lemma skip_ws_length_eq s x r :
  skip_ws s = x :: r -> (length (x :: r) <= length s)%nat.
Proof.
  intros H. pose proof (skip_ws_length s) as Hl.
  rewrite H in Hl. exact Hl.
Qed.

Lemma skip_ws_cons s x r :
  skip_ws s = x :: r -> (S (length r) <= length s)%nat.
Proof.
  intros H. pose proof (skip_ws_length s) as Hl.
  rewrite H in Hl. exact Hl.
Qed.

Lemma parse_string_length s : forall str rest,
  parse_string s = Some (str, rest) -> (length rest <= length s)%nat.
Proof.
  induction s as [s IH] using (well_founded_induction
    (Wf_nat.well_founded_ltof _ (@length Z))).
  unfold Wf_nat.ltof in IH.
  intros str rest. destruct s as [|x r]; simpl; [discriminate|].
  destruct (x =? 34); [intros [= _ <-]; lia|].
  destruct (x =? 92).
  - destruct r as [|e r1]; [discriminate|].
    destruct (e =? 117).
    + destruct r1 as [|h1 [|h2 [|h3 [|h4 r2]]]]; try discriminate.
      destruct (hex_val h1), (hex_val h2), (hex_val h3), (hex_val h4);
        try discriminate.
      destruct (parse_string r2) as [[str' rest']|] eqn:E; [|discriminate].
      intros [= _ <-]. apply IH in E; simpl in *; lia.
    + destruct (escape_char e); [|discriminate].
      destruct (parse_string r1) as [[str' rest']|] eqn:E; [|discriminate].
      intros [= _ <-]. apply IH in E; simpl in *; lia.
  - destruct (x <? 32); [discriminate|].
    destruct (parse_string r) as [[str' rest']|] eqn:E; [|discriminate].
    intros [= _ <-]. apply IH in E; simpl in *; lia.
Qed.

Lemma take_digits_length s :
  (length (snd (take_digits s)) <= length s)%nat.
Proof.
  induction s as [|x s IH]; simpl; [lia|].
  destruct (is_digit x); simpl; [|lia].
  destruct (take_digits s); simpl in *. lia.
Qed.

Lemma parse_frac_length s fd rest :
  parse_frac s = Some (fd, rest) -> (length rest <= length s)%nat.
Proof.
  unfold parse_frac. destruct s as [|x r]; [intros [= _ <-]; lia|].
  destruct (x =? 46); [|intros [= _ <-]; lia].
  pose proof (take_digits_length r) as Hl.
  destruct (take_digits r) as [[|d ds] rest']; [discriminate|].
  intros [= _ <-]. simpl in *. lia.
Qed.

Ltac digits_tail r1 :=
  let Hl := fresh "Hl" in
  pose proof (take_digits_length r1) as Hl;
  destruct (take_digits r1) as [[|? ?] ?]; [discriminate|];
  intros [= _ <-]; simpl in *; lia.

Lemma parse_exp_length s ex rest :
  parse_exp s = Some (ex, rest) -> (length rest <= length s)%nat.
Proof.
  unfold parse_exp. destruct s as [|x r]; [intros [= _ <-]; lia|].
  destruct ((x =? 101) || (x =? 69)); [|intros [= _ <-]; lia].
  destruct r as [|x1 r']; [digits_tail (@nil Z)|].
  destruct (x1 =? 45); [digits_tail r'|].
  destruct (x1 =? 43); [digits_tail r' | digits_tail (x1 :: r')].
Qed.

Ltac number_tail s2 :=
  let Ef := fresh "Ef" in
  let Ee := fresh "Ee" in
  destruct (parse_frac s2) as [[? ?]|] eqn:Ef; [|discriminate];
  match goal with
  | |- context [parse_exp ?s3] =>
      destruct (parse_exp s3) as [[? ?]|] eqn:Ee; [|discriminate]
  end;
  apply parse_frac_length in Ef; apply parse_exp_length in Ee;
  intros [= _ <-]; simpl in *; lia.

Lemma parse_number_length s n rest :
  parse_number s = Some (n, rest) -> (length rest <= length s)%nat.
Proof.
  unfold parse_number. destruct s as [|x r]; [discriminate|].
  destruct (x =? 45).
  - destruct r as [|y r']; [discriminate|].
    destruct (is_digit y); [|discriminate].
    destruct (y =? 48); [number_tail r'|].
    pose proof (take_digits_length (y :: r')) as Hd.
    destruct (take_digits (y :: r')) as [ds s2].
    number_tail s2.
  - destruct (is_digit x); [|discriminate].
    destruct (x =? 48); [number_tail r|].
    pose proof (take_digits_length (x :: r)) as Hd.
    destruct (take_digits (x :: r)) as [ds s2].
    number_tail s2.
Qed.

Lemma drop_length_le {A} n (l : list A) : (length (drop n l) <= length l)%nat.
Proof. rewrite length_drop. lia. Qed.

(** What is left after a value, the elements of an array or the members
    of an object is no longer than what was there. *)
Lemma parse_rest_length f :
  (forall s v r, parse_value f s = POk v r -> (length r <= length s)%nat)
  /\ (forall s acc v r,
        parse_elements f s acc = POk v r -> (length r <= length s)%nat)
  /\ (forall s acc v r,
        parse_members f s acc = POk v r -> (length r <= length s)%nat).
Proof.
  induction f as [|f (IHv & IHe & IHm)];
    [repeat split; intros; discriminate|].
  repeat split.
  - intros s v r. rewrite parse_value_S.
    destruct (skip_ws s) as [|x r0] eqn:Es; [discriminate|].
    apply skip_ws_cons in Es.
    destruct (x =? 123).
    { destruct (skip_ws r0) as [|x2 r2] eqn:E2; [discriminate|].
      apply skip_ws_cons in E2.
      destruct (x2 =? 125); [intros [= _ <-]; lia|].
      intros H. apply IHm in H. simpl in H. lia. }
    destruct (x =? 91).
    { destruct (skip_ws r0) as [|x2 r2] eqn:E2; [discriminate|].
      apply skip_ws_cons in E2.
      destruct (x2 =? 93); [intros [= _ <-]; lia|].
      intros H. apply IHe in H. simpl in H. lia. }
    destruct (x =? 34).
    { destruct (parse_string r0) as [[str rest]|] eqn:E; [|discriminate].
      apply parse_string_length in E. intros [= _ <-]. lia. }
    pose proof (drop_length_le 4 (x :: r0)) as H4.
    pose proof (drop_length_le 5 (x :: r0)) as H5.
    simpl length in H4, H5.
    destruct (startsWith (x :: r0) (lit "true")); [intros [= _ <-]; lia|].
    destruct (startsWith (x :: r0) (lit "false")); [intros [= _ <-]; lia|].
    destruct (startsWith (x :: r0) (lit "null")); [intros [= _ <-]; lia|].
    destruct (parse_number (x :: r0)) as [[n rest]|] eqn:E; [|discriminate].
    apply parse_number_length in E. simpl in E. intros [= _ <-]. lia.
  - intros s acc v r. rewrite parse_elements_S.
    destruct (parse_value f s) as [v0 rest| |] eqn:E; try discriminate.
    apply IHv in E.
    destruct (skip_ws rest) as [|x r0] eqn:Es; [discriminate|].
    apply skip_ws_cons in Es.
    destruct (x =? 44); [intros H; apply IHe in H; lia|].
    destruct (x =? 93); [|discriminate].
    intros [= _ <-]. lia.
  - intros s acc v r. rewrite parse_members_S.
    destruct (skip_ws s) as [|x r0] eqn:Es; [discriminate|].
    apply skip_ws_cons in Es.
    destruct (x =? 34); [|discriminate].
    destruct (parse_string r0) as [[key rest]|] eqn:Ek; [|discriminate].
    apply parse_string_length in Ek.
    destruct (skip_ws rest) as [|x2 r2] eqn:E2; [discriminate|].
    apply skip_ws_cons in E2.
    destruct (x2 =? 58); [|discriminate].
    destruct (parse_value f r2) as [v0 rest2| |] eqn:E; try discriminate.
    apply IHv in E.
    destruct (skip_ws rest2) as [|x3 r3] eqn:E3; [discriminate|].
    apply skip_ws_cons in E3.
    destruct (x3 =? 44); [intros H; apply IHm in H; lia|].
    destruct (x3 =? 125); [|discriminate].
    intros [= _ <-]. lia.
Qed.

(** With fuel above twice the length of the text, the parser does not
    run out of it. *)
Lemma parse_fuel_enough f :
  (forall s, (2 * length s + 1 <= f)%nat -> parse_value f s <> POutOfFuel)
  /\ (forall s acc, (2 * length s + 2 <= f)%nat ->
                    parse_elements f s acc <> POutOfFuel)
  /\ (forall s acc, (2 * length s + 2 <= f)%nat ->
                    parse_members f s acc <> POutOfFuel).
Proof.
  induction f as [|f (IHv & IHe & IHm)];
    [repeat split; intros; lia|].
  destruct (parse_rest_length f) as (Lv & _ & _).
  repeat split.
  - intros s Hf. rewrite parse_value_S.
    destruct (skip_ws s) as [|x r0] eqn:Es; [discriminate|].
    apply skip_ws_cons in Es.
    destruct (x =? 123).
    { destruct (skip_ws r0) as [|x2 r2] eqn:E2; [discriminate|].
      apply skip_ws_length_eq in E2.
      destruct (x2 =? 125); [discriminate|].
      apply IHm. simpl length in *. lia. }
    destruct (x =? 91).
    { destruct (skip_ws r0) as [|x2 r2] eqn:E2; [discriminate|].
      apply skip_ws_length_eq in E2.
      destruct (x2 =? 93); [discriminate|].
      apply IHe. simpl length in *. lia. }
    destruct (x =? 34).
    { destruct (parse_string r0) as [[str rest]|]; discriminate. }
    destruct (startsWith (x :: r0) (lit "true")); [discriminate|].
    destruct (startsWith (x :: r0) (lit "false")); [discriminate|].
    destruct (startsWith (x :: r0) (lit "null")); [discriminate|].
    destruct (parse_number (x :: r0)) as [[n rest]|]; discriminate.
  - intros s acc Hf. rewrite parse_elements_S.
    destruct (parse_value f s) as [v0 rest| |] eqn:E; [|discriminate|].
    + apply Lv in E.
      destruct (skip_ws rest) as [|x r0] eqn:Es; [discriminate|].
      apply skip_ws_cons in Es.
      destruct (x =? 44); [apply IHe; lia|].
      destruct (x =? 93); discriminate.
    + exfalso. revert E. apply IHv. lia.
  - intros s acc Hf. rewrite parse_members_S.
    destruct (skip_ws s) as [|x r0] eqn:Es; [discriminate|].
    apply skip_ws_cons in Es.
    destruct (x =? 34); [|discriminate].
    destruct (parse_string r0) as [[key rest]|] eqn:Ek; [|discriminate].
    apply parse_string_length in Ek.
    destruct (skip_ws rest) as [|x2 r2] eqn:E2; [discriminate|].
    apply skip_ws_cons in E2.
    destruct (x2 =? 58); [|discriminate].
    destruct (parse_value f r2) as [v0 rest2| |] eqn:E; [|discriminate|].
    + apply Lv in E.
      destruct (skip_ws rest2) as [|x3 r3] eqn:E3; [discriminate|].
      apply skip_ws_cons in E3.
      destruct (x3 =? 44); [apply IHm; lia|].
      destruct (x3 =? 125); discriminate.
    + exfalso. revert E. apply IHv. lia.
Qed.

(** [JSON_parse] never fails for want of fuel: its [None] is a
    [SyntaxError]. *)
Lemma JSON_parse_fuel_suffices text :
  parse_value (parse_fuel text) text <> POutOfFuel.
Proof.
  apply (proj1 (parse_fuel_enough (parse_fuel text))).
  unfold parse_fuel. lia.
Qed.

End JSONParse.

(* ===================================================================== *)
(** ** Properties of the streaming query *)
(* ===================================================================== *)

Section QueryStream.

Variable c : EasyRAG.
Variables datasetId question : jsstring.
Variable options : SearchOptions.

Let fc := queryStream_call c datasetId question options.
Let run (srv : Server) := queryStream c datasetId question options srv.

(** On a 2xx response with a body, the generator yields the events of the
    read loop and ends as the body does. *)
Lemma queryStream_on_body srv b :
  stream_body c fc srv = Some b ->
  yielded (run srv) = decode_events (body_chunks b)
  /\ ending (run srv) = stream_ending b.
Proof.
  unfold stream_body, received, run, queryStream, fc.
  destruct (fetch _ _) as [e|r]; simpl; [discriminate|].
  destruct (ok r); simpl; [|discriminate].
  intros ->. split; reflexivity.
Qed.

(** C1. The events [queryStream] yields depend on the bytes of the body
    only, not on the chunks they came in: two deliveries of the same
    bytes yield the same events; frames, cut anywhere, also inside the
    bytes of a character, yield the values of their payloads in the order
    of the frames, none dropped and none twice (a payload that is not JSON
    has no value); the three frames of the order property yield exactly
    delta a, delta b, done; and the frame of a euro sign yields the euro
    sign. *)
Theorem queryStream_chunking_invariant srv b :
  stream_body c fc srv = Some b ->
  (forall srv' b',
      stream_body c fc srv' = Some b' ->
      concat (body_chunks b') = concat (body_chunks b) ->
      yielded (run srv') = yielded (run srv))
  /\ (forall payloads,
         forallb (forallb is_text_char) payloads = true ->
         concat (body_chunks b) = concat (map frame_of payloads) ->
         yielded (run srv) =
         omap (fun p => JSON_parse (utf16_text p)) payloads)
  /\ (concat (body_chunks b) = three_frames ->
      yielded (run srv) =
      [StreamDelta (lit "a"); StreamDelta (lit "b"); StreamDone])
  /\ (concat (body_chunks b) = euro_frame ->
      yielded (run srv) = [StreamDelta [0x20AC]]).
Proof.
  intros Hb. destruct (queryStream_on_body srv b Hb) as [Hy _].
  rewrite Hy. split; [|split; [|split]].
  - intros srv' b' Hb' Hbytes.
    destruct (queryStream_on_body srv' b' Hb') as [Hy' _].
    rewrite Hy'. apply decode_events_chunking. exact Hbytes.
  - intros payloads Hp Hbytes. apply decode_events_frames; assumption.
  - intros Hbytes. rewrite decode_events_spec, Hbytes. reflexivity.
  - intros Hbytes. rewrite decode_events_spec, Hbytes. reflexivity.
Qed.

(** C4. A complete line that does not start with the [data: ] marker, or
    whose payload is not JSON, yields no event and does not end the
    iteration: the events are those of the lines before it followed by
    those of the lines after it, and the iteration ends as the body
    does. *)
Theorem malformed_frames_are_skipped srv b l1 bad l2 :
  stream_body c fc srv = Some b ->
  complete_lines (stream_text (concat (body_chunks b))) = l1 ++ bad :: l2 ->
  startsWith bad (lit "data: ") = false \/ JSON_parse (slice bad 6) = None ->
  yielded (run srv) = frame_events l1 ++ frame_events l2
  /\ ending (run srv) = stream_ending b.
Proof.
  intros Hb Hlines Hbad.
  destruct (queryStream_on_body srv b Hb) as [Hy He].
  split; [|exact He].
  rewrite Hy, decode_events_spec, Hlines, frame_events_app.
  f_equal. change (bad :: l2) with ([bad] ++ l2).
  rewrite frame_events_app.
  assert (frame_events [bad] = []) as ->; [|reflexivity].
  unfold frame_events. cbn [flat_map]. rewrite app_nil_r.
  destruct Hbad as [-> | H]; [reflexivity|].
  destruct (startsWith bad (lit "data: ")); [rewrite H|]; reflexivity.
Qed.

(** C8, as the code has it. The events yielded are exactly the values
    [JSON.parse] gives for the payloads of the complete [data: ] lines;
    the decoder does not look at their shape.  So every event is a
    [StreamEvent] as soon as every payload that parses is one. *)
Theorem yielded_events_are_parsed_payloads srv b :
  stream_body c fc srv = Some b ->
  let lines := complete_lines (stream_text (concat (body_chunks b))) in
  (forall ev,
      In ev (yielded (run srv)) <->
      exists line, In line lines
                   /\ startsWith line (lit "data: ") = true
                   /\ JSON_parse (slice line 6) = Some ev)
  /\ ((forall line v, In line lines ->
                      startsWith line (lit "data: ") = true ->
                      JSON_parse (slice line 6) = Some v ->
                      is_StreamEvent v = true) ->
      List.Forall (fun ev => is_StreamEvent ev = true) (yielded (run srv))).
Proof.
  intros Hb lines.
  destruct (queryStream_on_body srv b Hb) as [Hy _].
  assert (Hin : forall ev,
      In ev (yielded (run srv)) <->
      exists line, In line lines
                   /\ startsWith line (lit "data: ") = true
                   /\ JSON_parse (slice line 6) = Some ev).
  { intros ev. rewrite Hy, decode_events_spec. fold lines.
    unfold frame_events. rewrite in_flat_map. split.
    - intros (line & Hl & Hev). exists line.
      destruct (startsWith line (lit "data: ")); [|destruct Hev].
      destruct (JSON_parse (slice line 6)); [|destruct Hev].
      destruct Hev as [-> | []]. auto.
    - intros (line & Hl & Hs & Hp). exists line. split; [exact Hl|].
      rewrite Hs, Hp. left. reflexivity. }
  split; [exact Hin|].
  intros Hshape. apply List.Forall_forall. intros ev Hev.
  apply Hin in Hev. destruct Hev as (line & Hl & Hs & Hp). eauto.
Qed.

End QueryStream.

Lemma queryStream_chunking_witness :
  let run := queryStream demo_client (lit "docs") (lit "hello") [] in
  concat three_frames_cut = three_frames
  /\ yielded (run (serve 200 three_frames_cut)) =
     [StreamDelta (lit "a"); StreamDelta (lit "b"); StreamDone]
  /\ yielded (run (serve 200 [three_frames])) =
     yielded (run (serve 200 three_frames_cut))
  /\ concat euro_frame_cut = euro_frame
  /\ yielded (run (serve 200 euro_frame_cut)) = [StreamDelta [0x20AC]]
  /\ concat euro_frame_cut = concat (map frame_of [litq "{'delta':'" ++ [0x20AC] ++ litq "'}"])
  /\ yielded (run (serve 200 euro_frame_cut)) =
     omap (fun p => JSON_parse (utf16_text p))
          [litq "{'delta':'" ++ [0x20AC] ++ litq "'}"].
Proof.
  intros run.
  pose proof (queryStream_chunking_invariant demo_client (lit "docs")
                (lit "hello") [] (serve 200 three_frames_cut)
                {| body_chunks := three_frames_cut; body_end := BodyDone 20 |}
                eq_refl) as (Hsame & _ & Hthree & _).
  pose proof (queryStream_chunking_invariant demo_client (lit "docs")
                (lit "hello") [] (serve 200 euro_frame_cut)
                {| body_chunks := euro_frame_cut; body_end := BodyDone 20 |}
                eq_refl) as (_ & Hframes & _ & Heuro).
  split; [reflexivity|].
  split; [exact (Hthree eq_refl)|].
  split; [exact (Hsame (serve 200 [three_frames])
                   {| body_chunks := [three_frames]; body_end := BodyDone 20 |}
                   eq_refl eq_refl)|].
  split; [reflexivity|].
  split; [exact (Heuro eq_refl)|].
  split; [reflexivity|].
  exact (Hframes [litq "{'delta':'" ++ [0x20AC] ++ litq "'}"] eq_refl eq_refl).
Defined.

Lemma malformed_frames_are_skipped_witness :
  let run := queryStream demo_client (lit "docs") (lit "hello") []
               (serve 200 frames_with_malformed_cut) in
  concat frames_with_malformed_cut = frames_with_malformed
  /\ JSON_parse (lit "not-json") = None
  /\ yielded run = [StreamDelta (lit "a"); StreamDone]
  /\ ending run = Resolved tt.
Proof.
  intros run.
  split; [reflexivity|]. split; [reflexivity|].
  apply (malformed_frames_are_skipped demo_client (lit "docs") (lit "hello") []
           (serve 200 frames_with_malformed_cut)
           {| body_chunks := frames_with_malformed_cut; body_end := BodyDone 20 |}
           [litq "data: {'delta':'a'}"] (lit "data: not-json")
           [litq "data: {'done':true}"]).
  - reflexivity.
  - reflexivity.
  - right. reflexivity.
Defined.

(** C8 as stated fails: a [data: ] line whose payload is JSON of another
    shape is yielded as it is. *)
Lemma queryStream_yields_other_shapes :
  let run := queryStream demo_client (lit "docs") (lit "hello") []
               (serve 200 [frame "{'usage':5}"]) in
  yielded run = [JObj [(lit "usage", JInt 5)]]
  /\ ~ List.Forall (fun ev => is_StreamEvent ev = true) (yielded run).
Proof.
  intros run.
  assert (H : yielded run = [JObj [(lit "usage", JInt 5)]]) by reflexivity.
  split; [exact H|].
  rewrite H. intros HF. inversion HF as [|? ? Hev _]. discriminate Hev.
Qed.

Lemma yielded_events_are_parsed_payloads_witness :
  List.Forall (fun ev => is_StreamEvent ev = true)
    (yielded (queryStream demo_client (lit "docs") (lit "hello") []
                (serve 200 three_frames_cut))).
Proof.
  apply (yielded_events_are_parsed_payloads demo_client (lit "docs")
           (lit "hello") [] (serve 200 three_frames_cut)
           {| body_chunks := three_frames_cut; body_end := BodyDone 20 |}
           eq_refl).
  intros line v Hin _.
  change (In line [litq "data: {'delta':'a'}"; litq "data: {'delta':'b'}";
                   litq "data: {'done':true}"]) in Hin.
  simpl in Hin.
  destruct Hin as [<- | [<- | [<- | []]]]; intros Hp;
    vm_compute in Hp; injection Hp as <-; reflexivity.
Defined.

(* ===================================================================== *)
(** ** Properties of [request] *)
(* ===================================================================== *)

Section Request.

Variable c : EasyRAG.
Variable op : Operation.
Variable srv : Server.
Variables (endpoint : jsstring) (opts : RequestInit).
Hypothesis Hargs : request_args op = Some (endpoint, opts).

Lemma call_received r :
  received c (request_call c endpoint opts) srv = Some r ->
  call c op srv =
  if negb (ok r) then
    match response_json_or_empty r with
    | Resolved error => Rejected (request_http_error (resp_status r) error)
    | Rejected e => Rejected e
    | RejectedRaw e => Rejected (request_catch e)
    | Pending => Pending
    end
  else response_json r.
Proof.
  unfold call, request, received. rewrite Hargs.
  destruct (fetch _ _); [discriminate|]. intros [= ->]. reflexivity.
Qed.

Lemma response_json_done r b t :
  resp_body r = Some b -> body_end b = BodyDone t ->
  response_json r =
  match JSON_parse (decode_all (concat (body_chunks b))) with
  | Some v => Resolved v
  | None => RejectedRaw json_syntax_error
  end.
Proof. unfold response_json. intros -> ->. reflexivity. Qed.

(** The constructor takes a string message as it is. *)
Lemma new_EasyRAGError_string s st cd dt :
  new_EasyRAGError (JStr s) st cd dt = inr (string_EasyRAGError s st cd dt).
Proof. reflexivity. Qed.

Lemma get_prop_defined error k :
  error <> JNull -> error <> JUndefined ->
  get_prop error (lit k) = Some (prop error k).
Proof. intros Hn Hu. unfold prop. destruct error; simpl; congruence. Qed.

Lemma response_error_spec r :
  response_json_or_empty r =
  match response_error r with
  | Some error => Resolved error
  | None => Pending
  end.
Proof.
  unfold response_json_or_empty, response_json, response_error, error_body.
  destruct (resp_body r) as [b|].
  - destruct (body_end b); try reflexivity.
    destruct (JSON_parse _); reflexivity.
  - reflexivity.
Qed.

Lemma response_error_defined r error :
  response_error r = Some error -> error <> JUndefined.
Proof.
  unfold response_error, error_body.
  destruct (resp_body r) as [b|]; [|intros [= <-]; discriminate].
  destruct (body_end b); try discriminate; intros [= <-]; try discriminate.
  destruct (JSON_parse _) as [v|] eqn:E; simpl; [|discriminate].
  eapply JSON_parse_defined, E.
Qed.

(** The message chosen is never [undefined], so the constructor always
    converts it. *)
Lemma chosen_message_converted st error :
  match chosen_message st error with
  | JUndefined => Some []
  | _ => ToString (chosen_message st error)
  end = ToString (chosen_message st error).
Proof.
  unfold chosen_message.
  destruct (truthy (prop error "error")) eqn:E1.
  - destruct (prop error "error"); try discriminate; reflexivity.
  - destruct (truthy (prop error "message")) eqn:E2; [|reflexivity].
    destruct (prop error "message"); try discriminate; reflexivity.
Qed.

(** What a call throws for an error object that is not [null]. *)
Lemma request_http_error_shape st error :
  error <> JNull -> error <> JUndefined ->
  request_http_error st error =
  match ToString (chosen_message st error) with
  | Some text =>
      {| message := text; status := Some st; code := prop error "error";
         details := DetailsValue (prop error "details") |}
  | None => request_catch primitive_error
  end.
Proof.
  intros Hn Hu. unfold request_http_error.
  rewrite !(get_prop_defined _ _ Hn Hu). unfold new_EasyRAGError.
  change (js_or (prop error "error")
            (js_or (prop error "message") (http_status_message st)))
    with (chosen_message st error).
  rewrite chosen_message_converted.
  destruct (ToString (chosen_message st error)); reflexivity.
Qed.

(** C2, as the code has it. A call that receives a response that is not
    2xx works on the JSON value of its body, or on the empty object when
    the response has no body or the body breaks off or is not JSON.  When
    that value is not [null] and the message chosen from it has a string
    form, the call fails with an [EasyRAGError] whose message is the
    string of the [error] field if that is truthy, otherwise of the
    [message] field if that is truthy, otherwise [HTTP <status>]; whose
    status is the HTTP status; whose code is the [error] field; and whose
    details are the [details] field.  For the empty object that is
    [HTTP <status>] without code and details.  While the body does not
    end, the call does not either. *)
Theorem request_error_shape r :
  received c (request_call c endpoint opts) srv = Some r ->
  ok r = false ->
  (forall error text,
      response_error r = Some error ->
      error <> JNull ->
      ToString (chosen_message (resp_status r) error) = Some text ->
      call c op srv =
      Rejected {| message := text;
                  status := Some (resp_status r);
                  code := prop error "error";
                  details := DetailsValue (prop error "details") |})
  /\ (forall error s,
         response_error r = Some error ->
         error <> JNull ->
         chosen_message (resp_status r) error = JStr s ->
         exists e, call c op srv = Rejected e /\ message e = s)
  /\ (response_error r = Some (JObj []) ->
      call c op srv =
      Rejected {| message :=
                    lit "HTTP " ++ num_to_string (num_of_Z (resp_status r));
                  status := Some (resp_status r);
                  code := JUndefined;
                  details := DetailsValue JUndefined |})
  /\ (forall b,
         resp_body r = None
         \/ (resp_body r = Some b
             /\ ((exists t e, body_end b = BodyError t e)
                 \/ (exists t, body_end b = BodyDone t
                               /\ JSON_parse (decode_all (concat (body_chunks b)))
                                  = None))) ->
         response_error r = Some (JObj []))
  /\ (response_error r = None -> call c op srv = Pending).
Proof.
  intros Hr Hok.
  assert (Hcall : call c op srv =
                  match response_error r with
                  | Some error =>
                      Rejected (request_http_error (resp_status r) error)
                  | None => Pending
                  end).
  { rewrite (call_received r Hr), Hok. cbn [negb].
    rewrite response_error_spec. destruct (response_error r); reflexivity. }
  assert (Hshape : forall error text,
             response_error r = Some error -> error <> JNull ->
             ToString (chosen_message (resp_status r) error) = Some text ->
             call c op srv =
             Rejected {| message := text;
                         status := Some (resp_status r);
                         code := prop error "error";
                         details := DetailsValue (prop error "details") |}).
  { intros error text He Hn Ht. rewrite Hcall, He.
    rewrite (request_http_error_shape _ _ Hn (response_error_defined _ _ He)).
    rewrite Ht. reflexivity. }
  split; [exact Hshape|]. split; [|split; [|split]].
  - intros error s He Hn Hs. eexists. split.
    + apply (Hshape error s He Hn). rewrite Hs. reflexivity.
    + reflexivity.
  - intros He. apply (Hshape (JObj []) _ He); [discriminate | reflexivity].
  - intros b [Hb | (Hb & [(t & e & Hend) | (t & Hend & Hnone)])];
      unfold response_error; rewrite Hb; [reflexivity| |];
      rewrite Hend; [reflexivity|].
    unfold error_body. rewrite Hnone. reflexivity.
  - intros He. rewrite Hcall, He. reflexivity.
Qed.

(** C6. A call that receives a 2xx response whose body is JSON returns
    the parsed payload as it is. *)
Theorem request_returns_payload r b t v :
  received c (request_call c endpoint opts) srv = Some r ->
  ok r = true ->
  resp_body r = Some b ->
  body_end b = BodyDone t ->
  JSON_parse (decode_all (concat (body_chunks b))) = Some v ->
  call c op srv = Resolved v.
Proof.
  intros Hr Hok Hb Hend Hv.
  rewrite (call_received r Hr), Hok. simpl.
  rewrite (response_json_done r b t Hb Hend), Hv. reflexivity.
Qed.

End Request.

(** The error shape property: status 402 with the insufficient-credits
    body. *)
Lemma request_error_shape_witness :
  query demo_client (lit "docs") (lit "hello") []
    (serve 402 [insufficient_credits])
  = Rejected {| message := lit "INSUFFICIENT_CREDITS";
                status := Some 402;
                code := JStr (lit "INSUFFICIENT_CREDITS");
                details := DetailsValue (JObj [(lit "required", JInt 1);
                                               (lit "available", JInt 0)]) |}.
Proof.
  apply (proj1 (request_error_shape demo_client
                  (Query (lit "docs") (lit "hello") [])
                  (serve 402 [insufficient_credits]) _ _ eq_refl
                  {| resp_status := 402;
                     resp_body := Some {| body_chunks := [insufficient_credits];
                                          body_end := BodyDone 20 |} |}
                  eq_refl eq_refl)
               (error_body insufficient_credits)
               (lit "INSUFFICIENT_CREDITS")).
  - reflexivity.
  - vm_compute. discriminate.
  - reflexivity.
Defined.

(** C2 as stated fails: an [error] field that is present but empty does not
    become the message. *)
Lemma request_message_by_truthiness :
  let body := bytesq "{'error':'','message':'boom'}" in
  exists e,
    deleteAll demo_client (serve 500 [body]) = Rejected e
    /\ has_prop (error_body body) "error" = true
    /\ spec_error_message 500 (error_body body) = Some []
    /\ message e = lit "boom"
    /\ Some (message e) <> spec_error_message 500 (error_body body).
Proof.
  eexists. split; [reflexivity|].
  split; [reflexivity|]. split; [reflexivity|]. split; [reflexivity|].
  vm_compute. discriminate.
Qed.

(** A body that is the JSON [null]: reading its [error] property throws,
    and the [catch] block reports the [TypeError] as a network error,
    without the status. *)
Lemma request_null_body_loses_status :
  deleteAll demo_client (serve 500 [bytes "null"]) =
  Rejected {| message := getErrorMessage (null_property_error "error");
              status := None;
              code := JUndefined;
              details := DetailsThrown (null_property_error "error") |}.
Proof. reflexivity. Qed.

(** An [error] field that has no string form: an object with a property
    [toString] of its own makes the constructor throw inside the [try],
    and the [catch] block reports the [TypeError] as a network error,
    without the status; the [message] field is not fallen back on. *)
Lemma request_unprintable_error_loses_status :
  deleteAll demo_client
    (serve 500 [bytesq "{'error':{'toString':1},'message':'m'}"]) =
  Rejected {| message := getErrorMessage primitive_error;
              status := None;
              code := JUndefined;
              details := DetailsThrown primitive_error |}.
Proof. reflexivity. Qed.

(** A number that rounds to zero is falsy: the literal [1e-400] in the
    [error] field leaves the message to the [message] field. *)
Lemma request_tiny_error_is_falsy :
  deleteAll demo_client
    (serve 500 [bytesq "{'error':1e-400,'message':'m'}"]) =
  Rejected {| message := lit "m";
              status := Some 500;
              code := JInt 0;
              details := DetailsValue JUndefined |}.
Proof. reflexivity. Qed.

Lemma request_returns_payload_witness :
  search demo_client (lit "docs") (lit "hello") []
    (serve 200 [bytesq "{'success':true,"; bytesq "'data':[],'extra':{'n':1}}"])
  = Resolved (JObj [(lit "success", JBool true); (lit "data", JArr []);
                    (lit "extra", JObj [(lit "n", JInt 1)])]).
Proof.
  apply (request_returns_payload demo_client
           (Search (lit "docs") (lit "hello") [])
           (serve 200 [bytesq "{'success':true,"; bytesq "'data':[],'extra':{'n':1}}"])
           _ _ eq_refl
           {| resp_status := 200;
              resp_body := Some {| body_chunks :=
                                     [bytesq "{'success':true,";
                                      bytesq "'data':[],'extra':{'n':1}}"];
                                   body_end := BodyDone 20 |} |}
           {| body_chunks := [bytesq "{'success':true,";
                              bytesq "'data':[],'extra':{'n':1}}"];
              body_end := BodyDone 20 |} 20);
    reflexivity.
Defined.

(** C5: on the insufficient-credits response, [queryStream] fails before
    yielding anything, with the status and the message, but without the
    code and the details that [request] keeps for the same response; and
    it does not fall back on the [message] field. *)
Lemma queryStream_error_drops_code_and_details :
  let srv := serve 402 [insufficient_credits] in
  queryStream demo_client (lit "docs") (lit "hello") [] srv =
  {| yielded := [];
     ending := Rejected {| message := lit "INSUFFICIENT_CREDITS";
                           status := Some 402;
                           code := JUndefined;
                           details := DetailsValue JUndefined |} |}
  /\ query demo_client (lit "docs") (lit "hello") [] srv =
     Rejected {| message := lit "INSUFFICIENT_CREDITS";
                 status := Some 402;
                 code := JStr (lit "INSUFFICIENT_CREDITS");
                 details := DetailsValue (JObj [(lit "required", JInt 1);
                                                (lit "available", JInt 0)]) |}
  /\ ending (queryStream demo_client (lit "docs") (lit "hello") []
               (serve 400 [bytesq "{'message':'bad filter'}"])) =
     Rejected {| message := lit "HTTP 400"; status := Some 400;
                 code := JUndefined; details := DetailsValue JUndefined |}
  /\ query demo_client (lit "docs") (lit "hello") []
       (serve 400 [bytesq "{'message':'bad filter'}"]) =
     Rejected {| message := lit "bad filter"; status := Some 400;
                 code := JUndefined; details := DetailsValue JUndefined |}.
Proof. repeat split; reflexivity. Qed.

(* ===================================================================== *)
(** ** The timeout *)
(* ===================================================================== *)

Section Timeout.

Variable c : EasyRAG.
Variable srv : Server.

Lemma fetch_aborted net :
  timer_fires_first c net -> fetch (timeout c) net = FetchRejects abort_failure.
Proof.
  unfold timer_fires_first, fetch.
  destruct (fetch_settles_at net) as [t|]; [|reflexivity].
  intros H. destruct (Z.ltb_spec t (timer_delay (timeout c)));
    [lia | reflexivity].
Qed.

Lemma response_json_untimed r : response_json (untimed r) = response_json r.
Proof.
  unfold response_json, untimed. cbn [resp_body].
  destruct (resp_body r) as [b|]; [|reflexivity].
  cbn [body_end body_chunks]. destruct (body_end b); reflexivity.
Qed.

Lemma response_json_retimed r r' :
  untimed r' = untimed r -> response_json r' = response_json r.
Proof.
  intros H. rewrite <- (response_json_untimed r'), H.
  apply response_json_untimed.
Qed.

Lemma resp_status_retimed r r' :
  untimed r' = untimed r -> resp_status r' = resp_status r.
Proof. intros H. apply (f_equal resp_status) in H. exact H. Qed.

(** What a call through [request] gives is settled by the response, the
    times of its body left aside. *)
Lemma request_retimed op endpoint opts r c' srv' r' :
  request_args op = Some (endpoint, opts) ->
  received c (request_call c endpoint opts) srv = Some r ->
  received c' (request_call c' endpoint opts) srv' = Some r' ->
  untimed r' = untimed r ->
  call c' op srv' = call c op srv.
Proof.
  intros Hargs Hr Hr' H.
  rewrite (call_received c op srv endpoint opts Hargs r Hr).
  rewrite (call_received c' op srv' endpoint opts Hargs r' Hr').
  unfold response_json_or_empty, ok.
  rewrite (response_json_retimed r r' H), (resp_status_retimed r r' H).
  reflexivity.
Qed.

(** Likewise for [queryStream]. *)
Lemma queryStream_retimed datasetId question options r c' srv' r' :
  received c (queryStream_call c datasetId question options) srv = Some r ->
  received c' (queryStream_call c' datasetId question options) srv'
  = Some r' ->
  untimed r' = untimed r ->
  queryStream c' datasetId question options srv'
  = queryStream c datasetId question options srv.
Proof.
  unfold received, queryStream.
  destruct (fetch (timeout c) _) as [|r0]; [discriminate|]. intros [= ->].
  destruct (fetch (timeout c') _) as [|r0']; [discriminate|]. intros [= ->].
  intros H. unfold response_json_or_empty, ok.
  rewrite (response_json_retimed r r' H), (resp_status_retimed r r' H).
  destruct (negb _); [reflexivity|].
  unfold untimed in H. injection H as _ Hbody.
  destruct (resp_body r) as [b|], (resp_body r') as [b'|];
    try discriminate; [|reflexivity].
  injection Hbody as Hchunks Hend. rewrite Hchunks.
  destruct (body_end b), (body_end b'); try discriminate; try reflexivity.
  injection Hend as ->. reflexivity.
Qed.

(** The errors built from an error body are not the timeout error. *)
Lemma request_http_error_not_timeout st error :
  request_http_error st error <> timeout_error.
Proof.
  unfold request_http_error.
  destruct (get_prop error (lit "error")) as [err|];
    [|vm_compute; discriminate].
  destruct (get_prop error (lit "message")) as [msg|];
    [|vm_compute; discriminate].
  destruct (get_prop error (lit "details")) as [dt|];
    [|vm_compute; discriminate].
  unfold new_EasyRAGError.
  destruct (match js_or err (js_or msg (http_status_message st)) with
            | JUndefined => Some []
            | _ => ToString (js_or err (js_or msg (http_status_message st)))
            end); [discriminate | vm_compute; discriminate].
Qed.

Lemma queryStream_http_error_not_timeout st error :
  queryStream_http_error st error <> timeout_error.
Proof.
  unfold queryStream_http_error.
  destruct (get_prop error (lit "error")) as [err|];
    [|vm_compute; discriminate].
  unfold new_EasyRAGError2, new_EasyRAGError.
  destruct (match js_or err (http_status_message st) with
            | JUndefined => Some []
            | _ => ToString (js_or err (http_status_message st))
            end); [discriminate | vm_compute; discriminate].
Qed.

(** C3, as the code has it. When the timer of a call goes off before
    [fetch] has settled, the call fails with the timeout error, not with
    the network or streaming error, although what [fetch] rejects with is
    a plain failure, told from others by its name [AbortError].  This
    holds for the methods that go through [request] and for
    [queryStream].  The timer goes off after the timeout of the client if
    that is a delay a timer holds, and after 1 ms otherwise.  When
    [fetch] settles before the timer, the call goes on with what [fetch]
    gave, and the timer, cleared, plays no further part: a call through
    [request] never fails with the timeout error then, nor does
    [queryStream] unless the body itself breaks off; while the body
    stays open the call stays pending; and what either gives is the same
    whenever the body ends. *)
Theorem timeout_before_response :
  (forall op endpoint opts,
      request_args op = Some (endpoint, opts) ->
      timer_fires_first c (srv (request_call c endpoint opts)) ->
      call c op srv = Rejected timeout_error)
  /\ (forall datasetId question options,
         timer_fires_first c
           (srv (queryStream_call c datasetId question options)) ->
         queryStream c datasetId question options srv =
         stream_fails timeout_error)
  /\ message timeout_error = lit "Request timeout"
  /\ (forall e, isAbortError e = true ->
                request_catch e = timeout_error
                /\ queryStream_catch e = timeout_error)
  /\ (1 <= timeout c <= TIMEOUT_MAX -> timer_delay (timeout c) = timeout c)
  /\ (timeout c < 1 \/ TIMEOUT_MAX < timeout c -> timer_delay (timeout c) = 1)
  /\ (forall net t,
         fetch_settles_at net = Some t -> t < timer_delay (timeout c) ->
         fetch (timeout c) net = fetch_result net)
  /\ (forall op endpoint opts r,
         request_args op = Some (endpoint, opts) ->
         received c (request_call c endpoint opts) srv = Some r ->
         call c op srv <> Rejected timeout_error
         /\ (forall b, resp_body r = Some b -> body_end b = BodyStalls ->
                       call c op srv = Pending)
         /\ (forall c' srv' r',
                received c' (request_call c' endpoint opts) srv' = Some r' ->
                untimed r' = untimed r ->
                call c' op srv' = call c op srv))
  /\ (forall datasetId question options r,
         received c (queryStream_call c datasetId question options) srv
         = Some r ->
         (body_holds r ->
          ending (queryStream c datasetId question options srv)
          <> Rejected timeout_error)
         /\ (forall b, resp_body r = Some b -> body_end b = BodyStalls ->
                       ending (queryStream c datasetId question options srv)
                       = Pending)
         /\ (forall c' srv' r',
                received c' (queryStream_call c' datasetId question options)
                         srv' = Some r' ->
                untimed r' = untimed r ->
                queryStream c' datasetId question options srv'
                = queryStream c datasetId question options srv)).
Proof.
  split; [|split; [|split; [reflexivity|split; [|split; [|split; [|split;
    [|split]]]]]]].
  - intros op endpoint opts Hargs Ht.
    unfold call, request. rewrite Hargs, (fetch_aborted _ Ht). reflexivity.
  - intros datasetId question options Ht.
    unfold queryStream. rewrite (fetch_aborted _ Ht). reflexivity.
  - intros e He. unfold request_catch, queryStream_catch. rewrite He.
    split; reflexivity.
  - intros H. unfold timer_delay.
    destruct (Z.leb_spec 1 (timeout c)); [|lia].
    destruct (Z.leb_spec (timeout c) TIMEOUT_MAX); [reflexivity | lia].
  - intros H. unfold timer_delay.
    destruct (Z.leb_spec 1 (timeout c)); [|reflexivity].
    destruct (Z.leb_spec (timeout c) TIMEOUT_MAX); [lia | reflexivity].
  - intros net t Hs Ht. unfold fetch. rewrite Hs.
    destruct (Z.ltb_spec t (timer_delay (timeout c))); [reflexivity | lia].
  - intros op endpoint opts r Hargs Hr. split; [|split].
    + rewrite (call_received c op srv endpoint opts Hargs r Hr).
      destruct (negb (ok r)).
      * rewrite response_error_spec.
        destruct (response_error r) as [error|]; [|discriminate].
        intros [= H]. exact (request_http_error_not_timeout _ _ H).
      * unfold response_json.
        destruct (resp_body r) as [b|];
          [destruct (body_end b); try discriminate|];
          destruct (JSON_parse _); discriminate.
    + intros b Hb Hend.
      rewrite (call_received c op srv endpoint opts Hargs r Hr).
      unfold response_json_or_empty, response_json. rewrite Hb, Hend.
      destruct (negb (ok r)); reflexivity.
    + intros c' srv' r'. apply request_retimed; assumption.
  - intros datasetId question options r Hr. split; [|split].
    + intros Hbody.
      unfold received in Hr. unfold queryStream.
      destruct (fetch (timeout c) _) as [|r0]; [discriminate|].
      injection Hr as ->.
      destruct (negb (ok r)).
      * rewrite response_error_spec.
        destruct (response_error r) as [error|]; [|discriminate].
        intros [= H]. exact (queryStream_http_error_not_timeout _ _ H).
      * destruct (resp_body r) as [b|] eqn:Hb;
          [|vm_compute; discriminate].
        cbn [ending]. destruct (body_end b) as [t|t e|] eqn:Hend;
          try discriminate.
        destruct (Hbody b t e Hb Hend).
    + intros b Hb Hend.
      unfold received in Hr. unfold queryStream.
      destruct (fetch (timeout c) _) as [|r0]; [discriminate|].
      injection Hr as ->.
      unfold response_json_or_empty, response_json. rewrite Hb, Hend.
      destruct (negb (ok r)); reflexivity.
    + intros c' srv' r'. apply queryStream_retimed. exact Hr.
Qed.

End Timeout.

Lemma timeout_before_response_witness :
  timer_fires_first demo_client (silent (request_call demo_client (lit "/v1/files") delete_options))
  /\ deleteAll demo_client silent = Rejected timeout_error
  /\ queryStream demo_client (lit "docs") (lit "hello") [] silent =
     stream_fails timeout_error.
Proof.
  destruct (timeout_before_response demo_client silent) as (Hreq & Hstream & _).
  split; [exact I|]. split.
  - apply (Hreq DeleteAll (lit "/v1/files") delete_options eq_refl). exact I.
  - apply Hstream. exact I.
Defined.

(** C3 as stated fails: the timeout of 30 s elapses while the body is
    awaited, the exchange being over after a minute, and the calls succeed
    all the same.  A body that never ends leaves the call pending. *)
Lemma no_timeout_while_awaiting_body :
  let fc := queryStream_call demo_client (lit "docs") (lit "hello") [] in
  let slow := serve_slowly 200 [frame "{'delta':'a'}"; frame "{'done':true}"] in
  let stalled : Server := fun _ =>
    {| fetch_settles_at := Some 10;
       fetch_result := FetchResolves
         {| resp_status := 200;
            resp_body := Some {| body_chunks := [frame "{'delta':'a'}"];
                                 body_end := BodyStalls |} |} |} in
  timeout demo_client = 30000
  /\ exchange_completes_at (slow fc) = Some 60000
  /\ queryStream demo_client (lit "docs") (lit "hello") [] slow =
     {| yielded := [StreamDelta (lit "a"); StreamDone]; ending := Resolved tt |}
  /\ ending (queryStream demo_client (lit "docs") (lit "hello") [] slow)
     <> Rejected timeout_error
  /\ deleteAll demo_client (serve_slowly 200 [bytesq "{'success':true}"]) =
     Resolved (JObj [(lit "success", JBool true)])
  /\ exchange_completes_at (stalled fc) = None
  /\ queryStream demo_client (lit "docs") (lit "hello") [] stalled =
     {| yielded := [StreamDelta (lit "a")]; ending := Pending |}.
Proof.
  repeat split; try reflexivity.
  vm_compute. discriminate.
Qed.

(* ===================================================================== *)
(** ** The [Authorization] header *)
(* ===================================================================== *)

Section Authorization.

Variable c : EasyRAG.

Let bearer : jsstring := lit "Bearer " ++ apiKey c.

Lemma request_headers_lookup options k :
  request_headers c options !! k =
  match default ∅ (headers options) !! k with
  | Some v => Some v
  | None => if decide (k = lit "Authorization") then Some bearer else None
  end.
Proof.
  unfold request_headers.
  destruct (default ∅ (headers options) !! k) as [v|] eqn:E.
  - rewrite lookup_union_l' by (rewrite E; eauto). exact E.
  - rewrite lookup_union_r by exact E.
    destruct (decide (k = lit "Authorization")) as [->|Hne].
    + rewrite lookup_singleton_eq. reflexivity.
    + rewrite lookup_singleton_ne by congruence. reflexivity.
Qed.

Lemma request_headers_injected options :
  default ∅ (headers options) !! lit "Authorization" = None ->
  request_headers c options !! lit "Authorization" = Some bearer.
Proof.
  intros H. unfold request_headers.
  rewrite lookup_union_r by exact H. apply lookup_singleton_eq.
Qed.

Lemma request_args_headers op endpoint opts :
  request_args op = Some (endpoint, opts) ->
  headers opts = None \/ headers opts = Some json_headers.
Proof.
  destruct op; simpl; intros H;
    repeat match type of H with
           | context [encodeURIComponent ?d] =>
               destruct (encodeURIComponent d); simpl in H
           end;
    try discriminate; injection H as <- <-; auto.
Qed.

(** C7, as the code has it. Every request a public method sends, through
    [request] or from [queryStream], carries [Authorization: Bearer]
    followed by the API key of the client.  In [request] the headers of
    the options are written over the injected entry: each of them is
    sent as given, the [Authorization] entry stays the injected one when
    they have none of that name, and there is an [Authorization] entry
    in every case. *)
Theorem authorization_header :
  (forall op fc,
      sent_request c op = Some fc ->
      fc_headers fc !! lit "Authorization" = Some bearer)
  /\ (forall datasetId question options,
         fc_headers (queryStream_call c datasetId question options)
           !! lit "Authorization" = Some bearer)
  /\ (forall endpoint opts,
         let sent := fc_headers (request_call c endpoint opts) in
         (forall h k v, headers opts = Some h -> h !! k = Some v ->
                        sent !! k = Some v)
         /\ (default ∅ (headers opts) !! lit "Authorization" = None ->
             sent !! lit "Authorization" = Some bearer)
         /\ is_Some (sent !! lit "Authorization")).
Proof.
  split; [|split; [|intros endpoint opts sent; subst sent; split; [|split]]].
  - intros op fc. unfold sent_request.
    destruct (request_args op) as [[endpoint opts]|] eqn:E; [|discriminate].
    simpl. intros [= <-]. simpl.
    apply request_headers_injected.
    destruct (request_args_headers _ _ _ E) as [-> | ->]; simpl.
    + apply lookup_empty.
    + unfold json_headers.
      apply lookup_singleton_ne. vm_compute; discriminate.
  - intros datasetId question options.
    unfold queryStream_call. cbn [fc_headers].
    rewrite lookup_insert_ne by (vm_compute; discriminate).
    apply lookup_singleton_eq.
  - intros h k v Hh Hk. simpl. rewrite request_headers_lookup, Hh. simpl.
    rewrite Hk. reflexivity.
  - intros Hnone. simpl. apply request_headers_injected, Hnone.
  - simpl.
    destruct (default ∅ (headers opts) !! lit "Authorization") as [v|] eqn:E.
    + rewrite request_headers_lookup, E. eauto.
    + rewrite (request_headers_injected _ E). eauto.
Qed.

End Authorization.

Lemma authorization_header_witness :
  let extra : gmap jsstring jsstring := {[ lit "X-Trace" := lit "abc" ]} in
  let opts := {| method := None; headers := Some extra; body := None |} in
  fc_headers (request_call demo_client (lit "/v1/files") opts)
    !! lit "Authorization" = Some (lit "Bearer sk_test")
  /\ fc_headers (request_call demo_client (lit "/v1/files") opts)
       !! lit "X-Trace" = Some (lit "abc")
  /\ sent_request demo_client DeleteAll =
     Some (request_call demo_client (lit "/v1/files") delete_options)
  /\ fc_headers (request_call demo_client (lit "/v1/files") delete_options)
       !! lit "Authorization" = Some (lit "Bearer sk_test").
Proof.
  intros extra opts.
  destruct (authorization_header demo_client) as (Hop & _ & Hreq).
  destruct (Hreq (lit "/v1/files") opts) as (Hkept & Hinj & _).
  split; [apply Hinj; reflexivity|].
  split; [apply (Hkept extra); reflexivity|].
  split; [reflexivity|].
  apply (Hop DeleteAll). reflexivity.
Defined.

(** C7 as stated fails: headers given to [request] that name
    [Authorization] replace the injected entry. *)
Lemma authorization_header_replaced :
  let given : gmap jsstring jsstring := {[ lit "Authorization" := lit "Basic Zm9v" ]} in
  let opts := {| method := None; headers := Some given; body := None |} in
  fc_headers (request_call demo_client (lit "/v1/files") opts)
    !! lit "Authorization" = Some (lit "Basic Zm9v")
  /\ fc_headers (request_call demo_client (lit "/v1/files") opts)
       !! lit "Authorization" <> Some (lit "Bearer " ++ apiKey demo_client).
Proof.
  intros given opts.
  assert (H : fc_headers (request_call demo_client (lit "/v1/files") opts)
                !! lit "Authorization" = Some (lit "Basic Zm9v")).
  { unfold request_call, request_headers. cbn [fc_headers headers opts default].
    apply lookup_union_Some_l. apply lookup_singleton_eq. }
  split; [exact H|]. intros Hc.
  pose proof (eq_trans (eq_sym H) Hc) as E.
  vm_compute in E. discriminate E.
Qed.

(* ===================================================================== *)
(** ** Upload, token and constructor *)
(* ===================================================================== *)

(** C9. [upload] with one file sends the request that [upload] with the
    array of that one file sends: the same form fields, names and order,
    hence the same call and the same outcome.  Every file part is named
    [file], whatever its position, and every file has its part. *)
Theorem upload_single_file_normalized c datasetId file options :
  upload_form datasetId (OneFile file) options =
  upload_form datasetId (FileArray [file]) options
  /\ sent_request c (Upload datasetId (OneFile file) options) =
     sent_request c (Upload datasetId (FileArray [file]) options)
  /\ (forall srv, upload c datasetId (OneFile file) options srv =
                  upload c datasetId (FileArray [file]) options srv)
  /\ (forall files k f,
         In (k, FormFile f) (upload_form datasetId (FileArray files) options) ->
         k = lit "file" /\ In f files)
  /\ (forall files f,
         In f files ->
         In (lit "file", FormFile f)
            (upload_form datasetId (FileArray files) options)).
Proof.
  split; [reflexivity|]. split; [reflexivity|]. split; [reflexivity|].
  split.
  - intros files k f. unfold upload_form.
    rewrite !in_app_iff, in_map_iff.
    intros [H | [H | [H | [H | H]]]].
    + destruct H as [H | []]. discriminate H.
    + destruct H as (f' & [= <- <-] & Hin). auto.
    + destruct (metadata options) as [m|]; [|destruct H].
      destruct (truthy m); [|destruct H].
      destruct H as [H | []]. discriminate H.
    + destruct (chunkSize options); [|destruct H].
      destruct H as [H | []]. discriminate H.
    + destruct (chunkOverlap options); [|destruct H].
      destruct H as [H | []]. discriminate H.
  - intros files f Hin. unfold upload_form.
    rewrite !in_app_iff, in_map_iff. right. left. eauto.
Qed.

Lemma upload_single_file_normalized_witness :
  let f := {| file_name := lit "a.txt"; file_type := lit "text/plain";
              file_content := bytes "Hello world" |} in
  let o := {| metadata := None; chunkSize := Some (num_of_Z 500);
              chunkOverlap := None |} in
  upload_form (lit "docs") (OneFile f) o =
  [ (lit "datasetId", FormString (lit "docs"));
    (lit "file", FormFile f);
    (lit "chunkSize", FormString (lit "500")) ]
  /\ upload_form (lit "docs") (FileArray [f]) o =
     upload_form (lit "docs") (OneFile f) o.
Proof.
  intros f o. split; [reflexivity|].
  symmetry.
  apply (upload_single_file_normalized demo_client (lit "docs") f o).
Defined.

(** The body of [createToken]. *)
Lemma createToken_body c datasetId ttl :
  fc_body <$> sent_request c (CreateToken datasetId {| ttlSeconds := ttl |})
  = Some (Some (BodyString
      (lit "{" ++ quote (lit "datasetId") ++ lit ":" ++ quote datasetId
       ++ lit "," ++ quote (lit "ttlSeconds") ++ lit ":"
       ++ (if rounds_to_infinity (or_else JNum ttl (num_of_Z 3600))
           then lit "null"
           else num_to_string (or_else JNum ttl (num_of_Z 3600)))
       ++ lit "}"))).
Proof.
  unfold sent_request. cbn [request_args mbind option_bind].
  unfold request_call, post_json.
  cbn [fc_body body fmap option_fmap option_map JSON_stringify].
  rewrite <- !app_assoc. reflexivity.
Qed.

(** An integer is truthy unless it is 0. *)
Lemma truthy_JInt z : truthy (JInt z) = negb (z =? 0).
Proof.
  unfold JInt, num_of_Z, truthy, rounds_to_zero, magnitude.
  cbn [expo mant]. change (0 <=? 0) with true. cbv iota.
  rewrite Z.pow_0_r, Z.mul_1_r.
  destruct (Z.eqb_spec z 0) as [->|Hz]; [reflexivity|].
  cbn [negb]. apply negb_true_iff, Z.leb_gt.
  assert (0 < 2 ^ 1075) by (apply Z.pow_pos_nonneg; lia). nia.
Qed.

(** C10. Defaults go by truthiness.  [createToken] with [ttlSeconds] 0
    sends [ttlSeconds] 3600, as it does without [ttlSeconds], and so it
    does for every falsy [ttlSeconds]; a truthy one is sent as it is.  A
    client built with [timeout] 0 has the timeout 30000, and one built
    with the empty [baseUrl] has the production base URL, as clients
    built without these fields have; any other timeout and any other
    base URL is kept. *)
Theorem defaults_by_truthiness apiKey datasetId :
  let body ttl :=
    fc_body <$> sent_request (constructor (ApiKey apiKey))
                  (CreateToken datasetId {| ttlSeconds := ttl |}) in
  let built url ms :=
    constructor (Config {| cfg_apiKey := apiKey; cfg_baseUrl := url;
                           cfg_timeout := ms |}) in
  body (Some (num_of_Z 0)) =
    Some (Some (BodyString
      (lit "{" ++ quote (lit "datasetId") ++ lit ":" ++ quote datasetId
       ++ lit "," ++ quote (lit "ttlSeconds") ++ lit ":3600}")))
  /\ body (Some (num_of_Z 0)) = body None
  /\ (forall url, timeout (built url (Some 0)) = 30000
                  /\ built url (Some 0) = built url None)
  /\ (forall ms, baseUrl (built (Some []) ms) = lit "https://api.easyrag.com"
                 /\ built (Some []) ms = built None ms)
  /\ built None None = constructor (ApiKey apiKey)
  /\ (forall n, truthy (JNum n) = false -> body (Some n) = body None)
  /\ (forall n, truthy (JNum n) = true ->
                body (Some n) =
                Some (Some (BodyString
                  (lit "{" ++ quote (lit "datasetId") ++ lit ":"
                   ++ quote datasetId ++ lit ","
                   ++ quote (lit "ttlSeconds") ++ lit ":"
                   ++ (if rounds_to_infinity n then lit "null"
                       else num_to_string n)
                   ++ lit "}"))))
  /\ (forall url ms, ms <> 0 -> timeout (built url (Some ms)) = ms)
  /\ (forall url ms, url <> [] -> baseUrl (built (Some url) ms) = url).
Proof.
  intros body built.
  assert (Hfalsy : forall n, truthy (JNum n) = false ->
                             body (Some n) = body None).
  { intros n Hn. unfold body. rewrite !createToken_body.
    unfold or_else. rewrite Hn. reflexivity. }
  assert (H3600 : num_to_string (num_of_Z 3600) = lit "3600")
    by (vm_compute; reflexivity).
  assert (Hfin : rounds_to_infinity (num_of_Z 3600) = false)
    by (vm_compute; reflexivity).
  split; [|split; [|split; [|split; [|split; [|split; [|split; [|split]]]]]]].
  - rewrite (Hfalsy (num_of_Z 0)) by (vm_compute; reflexivity).
    unfold body. rewrite createToken_body. unfold or_else.
    rewrite Hfin, H3600. reflexivity.
  - apply Hfalsy. vm_compute. reflexivity.
  - intros url. split; reflexivity.
  - intros ms. split; reflexivity.
  - reflexivity.
  - exact Hfalsy.
  - intros n Hn. unfold body. rewrite createToken_body.
    unfold or_else. rewrite Hn. reflexivity.
  - intros url ms Hms. unfold built, constructor, or_else.
    cbn [cfg_timeout timeout]. rewrite truthy_JInt.
    destruct (Z.eqb_spec ms 0); [contradiction | reflexivity].
  - intros url ms Hurl. unfold built, constructor, or_else.
    cbn [cfg_baseUrl baseUrl]. destruct url; [contradiction | reflexivity].
Qed.

(** A time to live of two hours, a timeout of five seconds and a local
    base URL are kept. *)
Lemma defaults_by_truthiness_witness :
  fc_body <$> sent_request (constructor (ApiKey (lit "sk_test")))
                (CreateToken (lit "docs") {| ttlSeconds := Some (num_of_Z 7200) |})
  = Some (Some (BodyString (litq "{'datasetId':'docs','ttlSeconds':7200}")))
  /\ timeout (constructor (Config {| cfg_apiKey := lit "sk_test";
                                     cfg_baseUrl := None;
                                     cfg_timeout := Some 5000 |})) = 5000
  /\ baseUrl (constructor (Config {| cfg_apiKey := lit "sk_test";
                                     cfg_baseUrl := Some (lit "http://localhost:3000");
                                     cfg_timeout := None |}))
     = lit "http://localhost:3000".
Proof.
  destruct (defaults_by_truthiness (lit "sk_test") (lit "docs"))
    as (_ & _ & _ & _ & _ & _ & Httl & Htimeout & Hurl).
  split; [|split].
  - rewrite (Httl (num_of_Z 7200)) by (vm_compute; reflexivity).
    vm_compute. reflexivity.
  - apply Htimeout. discriminate.
  - apply Hurl. discriminate.
Defined.

(* ===================================================================== *)
(** ** Further properties: failures of the transport *)
(* ===================================================================== *)

(** X1. When [fetch] fails, before the timer goes off, with a failure
    that is not named [AbortError], a method that goes through [request]
    fails with an [EasyRAGError] that has no status and no code, carries
    the raw failure as its details, and whose message is that of the
    failure, or [Network error] when that is empty, or [Unknown error]
    when the failure is neither an [Error] nor a string.  The timer goes
    off after the timeout of the client if that is a delay a timer holds
    (1 to 2^31 - 1 ms), and after 1 ms otherwise. *)
Theorem request_transport_failure c op srv endpoint opts t e :
  request_args op = Some (endpoint, opts) ->
  fetch_settles_at (srv (request_call c endpoint opts)) = Some t ->
  t < timer_delay (timeout c) ->
  fetch_result (srv (request_call c endpoint opts)) = FetchRejects e ->
  isAbortError e = false ->
  exists err,
    call c op srv = Rejected err
    /\ message err = failure_message e "Network error"
    /\ status err = None
    /\ code err = JUndefined
    /\ details err = DetailsThrown e.
Proof.
  intros Hargs Hs Ht Hres Habort.
  unfold call, request, fetch. rewrite Hargs, Hs, Hres.
  destruct (Z.ltb_spec t (timer_delay (timeout c))); [|lia].
  unfold request_catch. rewrite Habort.
  eexists. split; [reflexivity|]. repeat split.
  destruct e as [n [|x m] | o | [|x s] | ]; reflexivity.
Qed.

Lemma request_transport_failure_witness :
  exists err,
    search demo_client (lit "docs") (lit "hello") [] (refuse connection_refused)
    = Rejected err
    /\ message err = lit "fetch failed"
    /\ status err = None
    /\ code err = JUndefined
    /\ details err = DetailsThrown connection_refused.
Proof.
  apply (request_transport_failure demo_client
           (Search (lit "docs") (lit "hello") []) (refuse connection_refused)
           _ _ 10 connection_refused eq_refl eq_refl);
    reflexivity.
Defined.

(** X2. When the body of a 2xx streaming response breaks off with a
    failure, the events of the lines completed before it have been
    yielded, in order, and the iteration then fails with an
    [EasyRAGError] without status, code or details: [Request timeout] if
    the failure is named [AbortError], otherwise the message of the
    failure, [Streaming error] when that is empty. *)
Theorem queryStream_failure_mid_stream c datasetId question options srv b t e :
  stream_body c (queryStream_call c datasetId question options) srv = Some b ->
  body_end b = BodyError t e ->
  let run := queryStream c datasetId question options srv in
  yielded run =
    frame_events (complete_lines (stream_text (concat (body_chunks b))))
  /\ exists err,
       ending run = Rejected err
       /\ message err = (if isAbortError e then lit "Request timeout"
                         else failure_message e "Streaming error")
       /\ status err = None
       /\ code err = JUndefined
       /\ details err = DetailsValue JUndefined.
Proof.
  intros Hb Hend run.
  destruct (queryStream_on_body c datasetId question options srv b Hb)
    as [Hy He].
  fold run in Hy, He. rewrite Hy, He, decode_events_spec.
  split; [reflexivity|].
  unfold stream_ending. rewrite Hend. unfold queryStream_catch.
  eexists. split; [reflexivity|].
  destruct (isAbortError e); [repeat split|].
  repeat split.
  destruct e as [n [|x m] | o | [|x s] | ]; reflexivity.
Qed.

Lemma queryStream_failure_mid_stream_witness :
  let run := queryStream demo_client (lit "docs") (lit "hello") []
               broken_stream in
  yielded run = [StreamDelta (lit "a")]
  /\ exists err, ending run = Rejected err
                 /\ message err = lit "terminated"
                 /\ details err = DetailsValue JUndefined.
Proof.
  intros run.
  destruct (queryStream_failure_mid_stream demo_client (lit "docs")
              (lit "hello") [] broken_stream
              (broken_body [frame "{'delta':'a'}" ++ bytes "data: {"]
                           connection_reset)
              30 connection_reset eq_refl eq_refl)
    as (Hy & err & He & Hm & _ & _ & Hd).
  split; [exact Hy|].
  exists err. repeat split; assumption.
Defined.

(* ===================================================================== *)
(** ** Further properties: what the status decides *)
(* ===================================================================== *)

(** X3. The status alone decides on which side a call through [request]
    ends: with a status outside 200-299 it never returns a value and only
    fails with an [EasyRAGError] (or stays pending while the body does);
    with a status within 200-299 it never fails with an [EasyRAGError]. *)
Theorem status_decides_outcome c op srv endpoint opts r :
  request_args op = Some (endpoint, opts) ->
  received c (request_call c endpoint opts) srv = Some r ->
  (resp_status r < 200 \/ 299 < resp_status r ->
   (exists err, call c op srv = Rejected err) \/ call c op srv = Pending)
  /\ (200 <= resp_status r <= 299 ->
      forall err, call c op srv <> Rejected err).
Proof.
  intros Hargs Hr. rewrite (call_received c op srv endpoint opts Hargs r Hr).
  unfold ok. split.
  - intros Hst.
    assert ((200 <=? resp_status r) && (resp_status r <=? 299) = false) as ->.
    { destruct Hst; [apply andb_false_iff; left; apply Z.leb_gt; lia|].
      apply andb_false_iff; right; apply Z.leb_gt; lia. }
    simpl. destruct (response_json_or_empty r); eauto.
  - intros [H1 H2].
    rewrite (proj2 (Z.leb_le _ _) H1), (proj2 (Z.leb_le _ _) H2). simpl.
    intros err. unfold response_json.
    destruct (resp_body r) as [b|].
    + destruct (body_end b); try discriminate.
      destruct (JSON_parse _); discriminate.
    + destruct (JSON_parse _); discriminate.
Qed.

Lemma status_decides_outcome_witness :
  (exists err, deleteAll demo_client (serve 304 []) = Rejected err)
  /\ deleteAll demo_client (serve 299 [bytes "<html>"])
     <> Rejected timeout_error.
Proof.
  destruct (status_decides_outcome demo_client DeleteAll (serve 304 [])
              _ _ _ eq_refl eq_refl) as [H304 _].
  destruct (status_decides_outcome demo_client DeleteAll
              (serve 299 [bytes "<html>"]) _ _ _ eq_refl eq_refl) as [_ H299].
  split.
  - destruct H304 as [H | H]; [simpl; lia | exact H | discriminate H].
  - apply H299. simpl. lia.
Defined.

(** X4. A 2xx response whose body is not JSON, is missing, or breaks off
    makes the call fail with the failure of [response.json()] as it is (a
    [SyntaxError], or what broke the body): it is not wrapped in an
    [EasyRAGError], the promise being returned without [await]. *)
Theorem request_success_body_unreadable c op srv endpoint opts r :
  request_args op = Some (endpoint, opts) ->
  received c (request_call c endpoint opts) srv = Some r ->
  ok r = true ->
  (resp_body r = None -> call c op srv = RejectedRaw json_syntax_error)
  /\ (forall b t, resp_body r = Some b -> body_end b = BodyDone t ->
                  JSON_parse (decode_all (concat (body_chunks b))) = None ->
                  call c op srv = RejectedRaw json_syntax_error)
  /\ (forall b t e, resp_body r = Some b -> body_end b = BodyError t e ->
                    call c op srv = RejectedRaw e).
Proof.
  intros Hargs Hr Hok.
  rewrite (call_received c op srv endpoint opts Hargs r Hr), Hok. simpl.
  unfold response_json. split; [|split].
  - intros ->. reflexivity.
  - intros b t -> -> ->. reflexivity.
  - intros b t e -> ->. reflexivity.
Qed.

Lemma request_success_body_unreadable_witness :
  listFiles demo_client (lit "docs") (serve 200 [bytes "<html>oops</html>"])
  = RejectedRaw json_syntax_error
  /\ deleteAll demo_client
       (respond {| resp_status := 204; resp_body := None |})
     = RejectedRaw json_syntax_error.
Proof.
  destruct (request_success_body_unreadable demo_client
              (ListFiles (lit "docs"))
              (serve 200 [bytes "<html>oops</html>"]) _ _ _
              eq_refl eq_refl eq_refl) as (_ & Hbad & _).
  destruct (request_success_body_unreadable demo_client DeleteAll
              (respond {| resp_status := 204; resp_body := None |}) _ _ _
              eq_refl eq_refl eq_refl) as (Hnone & _ & _).
  split.
  - apply (Hbad {| body_chunks := [bytes "<html>oops</html>"];
                   body_end := BodyDone 20 |} 20); reflexivity.
  - apply Hnone. reflexivity.
Defined.

(** X5. [queryStream] yields events only out of the body of a 2xx
    response: when [fetch] fails or is aborted, when the status is
    outside 200-299, or when a 2xx response has no body, nothing is
    yielded; in the last case the iteration fails with the [TypeError] of
    reading the missing body as its message. *)
Theorem queryStream_yields_only_from_body c datasetId question options srv :
  let fc := queryStream_call c datasetId question options in
  let run := queryStream c datasetId question options srv in
  (yielded run <> [] ->
   exists b, stream_body c fc srv = Some b
             /\ yielded run = decode_events (body_chunks b))
  /\ (forall r, received c fc srv = Some r -> ok r = true ->
                resp_body r = None ->
                run = stream_fails
                        {| message := getErrorMessage
                                        (null_property_error "getReader");
                           status := None;
                           code := JUndefined;
                           details := DetailsValue JUndefined |}).
Proof.
  intros fc run. unfold run, stream_body, received, fc, queryStream.
  destruct (fetch _ _) as [e|r]; simpl.
  - split; [intros H; contradiction H; reflexivity | discriminate].
  - split.
    + destruct (ok r); simpl.
      * destruct (resp_body r) as [b|]; simpl; [eauto|].
        intros H; contradiction H; reflexivity.
      * destruct (response_json_or_empty r); simpl;
          intros H; contradiction H; reflexivity.
    + intros r0 [= <-] -> ->. reflexivity.
Qed.

Lemma queryStream_yields_only_from_body_witness :
  queryStream demo_client (lit "docs") (lit "hello") []
    (respond {| resp_status := 204; resp_body := None |})
  = stream_fails
      {| message := lit "Cannot read properties of null (reading 'getReader')";
         status := None;
         code := JUndefined;
         details := DetailsValue JUndefined |}.
Proof.
  apply (proj2 (queryStream_yields_only_from_body demo_client (lit "docs")
                  (lit "hello") []
                  (respond {| resp_status := 204; resp_body := None |}))
           {| resp_status := 204; resp_body := None |});
    reflexivity.
Defined.

(** X6. When the body of a response outside 200-299 is the JSON value
    [null], reading its [error] property throws inside the [try]: a method
    that goes through [request] then fails with an [EasyRAGError] that
    has lost the status, has no code, and carries the [TypeError] as
    details and its text as message; [queryStream] fails likewise, with
    the text of the [TypeError] as message and nothing else. *)
Theorem null_error_body_loses_status c srv r b t :
  ok r = false ->
  resp_body r = Some b ->
  body_end b = BodyDone t ->
  JSON_parse (decode_all (concat (body_chunks b))) = Some JNull ->
  (forall op endpoint opts,
      request_args op = Some (endpoint, opts) ->
      received c (request_call c endpoint opts) srv = Some r ->
      call c op srv =
      Rejected {| message := getErrorMessage (null_property_error "error");
                  status := None;
                  code := JUndefined;
                  details := DetailsThrown (null_property_error "error") |})
  /\ (forall datasetId question options,
         received c (queryStream_call c datasetId question options) srv
         = Some r ->
         queryStream c datasetId question options srv =
         stream_fails
           {| message := getErrorMessage (null_property_error "error");
              status := None;
              code := JUndefined;
              details := DetailsValue JUndefined |}).
Proof.
  intros Hok Hb Hend Hnull.
  assert (Hjson : response_json_or_empty r = Resolved JNull).
  { unfold response_json_or_empty.
    rewrite (response_json_done r b t Hb Hend), Hnull. reflexivity. }
  split.
  - intros op endpoint opts Hargs Hr.
    rewrite (call_received c op srv endpoint opts Hargs r Hr), Hok, Hjson.
    reflexivity.
  - intros datasetId question options Hr.
    unfold received in Hr. unfold queryStream.
    destruct (fetch _ _) as [e|r']; [discriminate|].
    injection Hr as ->. rewrite Hok, Hjson. reflexivity.
Qed.

Lemma null_error_body_loses_status_witness :
  (exists err, getFile demo_client (lit "docs") (lit "f1")
                 (serve 500 [bytes " null "]) = Rejected err
               /\ status err = None)
  /\ exists err, ending (queryStream demo_client (lit "docs") (lit "hello") []
                           (serve 500 [bytes " null "])) = Rejected err
                 /\ status err = None.
Proof.
  destruct (null_error_body_loses_status demo_client
              (serve 500 [bytes " null "])
              {| resp_status := 500;
                 resp_body := Some {| body_chunks := [bytes " null "];
                                      body_end := BodyDone 20 |} |}
              {| body_chunks := [bytes " null "]; body_end := BodyDone 20 |}
              20 eq_refl eq_refl eq_refl eq_refl) as [Hreq Hstream].
  split.
  - eexists. split.
    + apply (Hreq (GetFile (lit "docs") (lit "f1")) _ _ eq_refl eq_refl).
    + reflexivity.
  - eexists. split.
    + rewrite (Hstream (lit "docs") (lit "hello") [] eq_refl). reflexivity.
    + reflexivity.
Defined.

(* ===================================================================== *)
(** ** Further properties: the requests of the methods *)
(* ===================================================================== *)








(** X8. In every request a method sends through [request], the body and
    the [Content-Type] header go together: a JSON body is a [POST] with
    [Content-Type: application/json]; the form of [upload] is a [POST]
    without a [Content-Type] of the client's (the platform writes the
    multipart one with its boundary); a request without body has no
    method of its own or is a [DELETE], and has no [Content-Type]. *)
Theorem sent_request_shape c op fc :
  sent_request c op = Some fc ->
  match fc_body fc with
  | Some (BodyString _) =>
      fc_method fc = Some (lit "POST")
      /\ fc_headers fc !! lit "Content-Type" = Some (lit "application/json")
  | Some (BodyFormData _) =>
      fc_method fc = Some (lit "POST")
      /\ fc_headers fc !! lit "Content-Type" = None
  | None =>
      (fc_method fc = None \/ fc_method fc = Some (lit "DELETE"))
      /\ fc_headers fc !! lit "Content-Type" = None
  end.
Proof.
  assert (Hnone : forall options,
             headers options = None ->
             request_headers c options !! lit "Content-Type" = None).
  { intros options H. rewrite request_headers_lookup, H.
    cbn [default from_option id]. rewrite lookup_empty.
    destruct (decide (lit "Content-Type" = lit "Authorization")) as [E|_];
      [vm_compute in E; discriminate E | reflexivity]. }
  assert (Hjson : forall options,
             headers options = Some json_headers ->
             request_headers c options !! lit "Content-Type"
             = Some (lit "application/json")).
  { intros options H. rewrite request_headers_lookup, H.
    cbn [default from_option id]. unfold json_headers.
    rewrite lookup_singleton_eq. reflexivity. }
  unfold sent_request.
  destruct op; cbn [request_args];
    repeat match goal with
           | |- context [encodeURIComponent ?d] =>
               destruct (encodeURIComponent d)
           end;
    cbn [mbind option_bind]; try discriminate;
    intros [= <-]; cbn [request_call fc_body fc_method fc_headers body method
                        no_options delete_options post_json fmap option_fmap
                        option_map JSON_stringify];
    split; auto.
Qed.

Lemma sent_request_shape_witness :
  let up := request_call demo_client (lit "/v1/files/upload")
              {| method := Some (lit "POST"); headers := None;
                 body := Some (BodyFormData
                   (upload_form (lit "docs") (FileArray []) 
                      {| metadata := None; chunkSize := None;
                         chunkOverlap := None |})) |} in
  sent_request demo_client
    (Upload (lit "docs") (FileArray [])
       {| metadata := None; chunkSize := None; chunkOverlap := None |})
  = Some up
  /\ fc_method up = Some (lit "POST")
  /\ fc_headers up !! lit "Content-Type" = None.
Proof.
  intros up. split; [reflexivity|].
  exact (sent_request_shape demo_client
           (Upload (lit "docs") (FileArray [])
              {| metadata := None; chunkSize := None; chunkOverlap := None |})
           up eq_refl).
Defined.

Lemma jsstring_eqb_eq a : forall b, jsstring_eqb a b = true <-> a = b.
Proof.
  induction a as [|x a IH]; intros [|y b]; simpl; split;
    try discriminate; try reflexivity.
  - intros H. apply andb_prop in H as [Hx Hab].
    apply Z.eqb_eq in Hx. apply IH in Hab. congruence.
  - intros [= <- <-]. rewrite Z.eqb_refl. apply IH. reflexivity.
Qed.

Lemma jsstring_eqb_refl a : jsstring_eqb a a = true.
Proof. apply jsstring_eqb_eq. reflexivity. Qed.

Lemma jsstring_eqb_trans_false k0 k k' :
  jsstring_eqb k0 k = true -> jsstring_eqb k0 k' = jsstring_eqb k k'.
Proof. intros H. apply jsstring_eqb_eq in H. subst. reflexivity. Qed.

(** Reading a property after defining one. *)
Lemma obj_get_set props k v k' :
  obj_get (obj_set props k v) k' =
  if jsstring_eqb k k' then v else obj_get props k'.
Proof.
  induction props as [|[k0 v0] props IH]; simpl.
  - destruct (jsstring_eqb k k'); reflexivity.
  - destruct (jsstring_eqb k0 k) eqn:E0; simpl.
    + rewrite (jsstring_eqb_trans_false _ _ k' E0).
      destruct (jsstring_eqb k k'); reflexivity.
    + rewrite IH. destruct (jsstring_eqb k0 k') eqn:E1; [|reflexivity].
      destruct (jsstring_eqb k k') eqn:E2; [|reflexivity].
      apply jsstring_eqb_eq in E1, E2. subst.
      rewrite jsstring_eqb_refl in E0. discriminate.
Qed.

(** Reading a property of a spread: the source wins over the target. *)
Lemma obj_get_spread options : forall target k,
  NoDup (map fst options) ->
  obj_get (obj_spread target options) k =
  if has_key options k then obj_get options k else obj_get target k.
Proof.
  unfold obj_spread.
  induction options as [|[k0 v0] options IH]; intros target k Hnd;
    [reflexivity|].
  simpl in Hnd. apply NoDup_cons in Hnd as [Hk0 Hnd].
  cbn [fold_left fst snd has_key existsb obj_get].
  fold (has_key options k).
  rewrite (IH _ _ Hnd), obj_get_set.
  destruct (jsstring_eqb k0 k) eqn:E; simpl; [|reflexivity].
  apply jsstring_eqb_eq in E. subst k0.
  destruct (has_key options k) eqn:Hk; [|reflexivity].
  exfalso. apply Hk0. clear -Hk.
  induction options as [|[k1 v1] options IH]; [discriminate|].
  simpl in Hk. apply orb_prop in Hk as [Hk | Hk].
  - apply jsstring_eqb_eq in Hk. simpl in Hk. subst.
    simpl. apply elem_of_cons. left. reflexivity.
  - simpl. apply elem_of_cons. right. apply IH, Hk.
Qed.

Lemma jsstring_eqb_sym a b : jsstring_eqb a b = jsstring_eqb b a.
Proof.
  destruct (jsstring_eqb a b) eqn:E1, (jsstring_eqb b a) eqn:E2;
    try reflexivity.
  - apply jsstring_eqb_eq in E1. subst. rewrite jsstring_eqb_refl in E2.
    discriminate.
  - apply jsstring_eqb_eq in E2. subst. rewrite jsstring_eqb_refl in E1.
    discriminate.
Qed.

Lemma has_key_set acc k v k' :
  has_key (obj_set acc k v) k' = has_key acc k' || jsstring_eqb k k'.
Proof.
  unfold has_key.
  induction acc as [|[k0 v0] acc IH]; cbn [obj_set existsb fst].
  - apply orb_comm.
  - destruct (jsstring_eqb k0 k) eqn:E0; cbn [existsb fst].
    + rewrite (jsstring_eqb_trans_false _ _ k' E0).
      destruct (jsstring_eqb k k'); [|rewrite orb_false_r]; reflexivity.
    + rewrite IH, orb_assoc. reflexivity.
Qed.

Lemma distinct_keys_set acc k v :
  distinct_keys acc = true -> distinct_keys (obj_set acc k v) = true.
Proof.
  induction acc as [|[k0 v0] acc IH]; cbn [obj_set distinct_keys];
    [reflexivity|].
  intros H. apply andb_prop in H as [H0 H].
  destruct (jsstring_eqb k0 k) eqn:E0; cbn [distinct_keys].
  - apply jsstring_eqb_eq in E0. subst k0. rewrite H0, H. reflexivity.
  - rewrite has_key_set, (IH H), (jsstring_eqb_sym k k0), E0.
    rewrite orb_false_r, H0. reflexivity.
Qed.

Lemma distinct_keys_spread options : forall acc,
  distinct_keys acc = true -> distinct_keys (obj_spread acc options) = true.
Proof.
  unfold obj_spread.
  induction options as [|[k v] options IH]; intros acc H; [exact H|].
  cbn [fold_left fst snd]. apply IH, distinct_keys_set, H.
Qed.

Lemma has_key_spread options : forall target k,
  has_key (obj_spread target options) k
  = has_key target k || has_key options k.
Proof.
  unfold obj_spread.
  induction options as [|[k0 v0] options IH]; intros target k.
  - rewrite orb_false_r. reflexivity.
  - cbn [fold_left fst snd]. rewrite IH, has_key_set.
    unfold has_key at 4. cbn [existsb fst]. fold (has_key options k).
    rewrite orb_assoc. reflexivity.
Qed.

(** X9. The body of [search], [query] and [queryStream] is the JSON text
    of one object that holds each property once: the properties of the
    options as they were given (the [filters] array with its filters in
    their order), and [datasetId], [question] and, for the two queries,
    [stream], unless the options have a property of that name, which
    then takes its place. *)
Theorem options_spread_into_body c datasetId question options :
  NoDup (map fst options) ->
  let merged base k :=
    if has_key options k then obj_get options k else obj_get base k in
  let fixed := [(lit "datasetId", JStr datasetId);
                (lit "question", JStr question)] in
  let spread base obj :=
    distinct_keys obj = true
    /\ (forall k, has_key obj k = has_key base k || has_key options k)
    /\ (forall k, obj_get obj k = merged base k) in
  (exists obj,
      fc_body <$> sent_request c (Search datasetId question options)
      = Some (BodyString <$> JSON_stringify (JObj obj))
      /\ spread fixed obj)
  /\ (exists obj,
         fc_body <$> sent_request c (Query datasetId question options)
         = Some (BodyString <$> JSON_stringify (JObj obj))
         /\ spread (fixed ++ [(lit "stream", JBool false)]) obj)
  /\ (exists obj,
         fc_body (queryStream_call c datasetId question options)
         = BodyString <$> JSON_stringify (JObj obj)
         /\ spread (fixed ++ [(lit "stream", JBool true)]) obj).
Proof.
  intros Hnd merged fixed spread.
  assert (H : forall base, distinct_keys base = true ->
                           spread base (obj_spread base options)).
  { intros base Hbase. split; [|split].
    - apply distinct_keys_spread, Hbase.
    - intros k. apply has_key_spread.
    - intros k. apply obj_get_spread, Hnd. }
  split; [|split]; eexists; (split; [reflexivity|]); apply H; reflexivity.
Qed.

Lemma options_spread_into_body_witness :
  (exists obj,
      fc_body <$> sent_request demo_client
                    (Search (lit "docs") (lit "clause")
                       [(lit "filters", two_filters)])
      = Some (BodyString <$> JSON_stringify (JObj obj))
      /\ distinct_keys obj = true
      /\ obj_get obj (lit "filters") = two_filters
      /\ obj_get obj (lit "datasetId") = JStr (lit "docs"))
  /\ (exists obj,
         fc_body <$> sent_request demo_client
                       (Query (lit "docs") (lit "clause")
                          [(lit "stream", JBool true)])
         = Some (BodyString <$> JSON_stringify (JObj obj))
         /\ distinct_keys obj = true
         /\ obj_get obj (lit "stream") = JBool true)
  /\ fc_body <$> sent_request demo_client
                   (Query (lit "docs") (lit "clause")
                      [(lit "stream", JBool true)])
     = Some (Some (BodyString
         (litq "{'datasetId':'docs','question':'clause','stream':true}"))).
Proof.
  destruct (options_spread_into_body demo_client (lit "docs") (lit "clause")
              [(lit "filters", two_filters)])
    as ((obj & Hbody & Hd & _ & Hget) & _).
  { apply NoDup_singleton. }
  destruct (options_spread_into_body demo_client (lit "docs") (lit "clause")
              [(lit "stream", JBool true)])
    as (_ & (obj' & Hbody' & Hd' & _ & Hget') & _).
  { apply NoDup_singleton. }
  split; [|split].
  - exists obj. split; [exact Hbody|]. split; [exact Hd|].
    split; [exact (Hget (lit "filters")) | exact (Hget (lit "datasetId"))].
  - exists obj'. split; [exact Hbody'|]. split; [exact Hd'|].
    exact (Hget' (lit "stream")).
  - reflexivity.
Defined.

(* ===================================================================== *)
(** ** Further properties: the dataset id in the URL *)
(* ===================================================================== *)

Lemma percent_safe b : 0 <= b < 256 -> forallb uri_safe (percent b) = true.
Proof.
  intros Hb.
  assert (H : check_from (fun b => forallb uri_safe (percent b)) 0 256 = true)
    by (vm_compute; reflexivity).
  apply (check_from_spec _ _ _ H). simpl. lia.
Qed.

Lemma percent_all_safe bs :
  List.Forall (fun z => 0 <= z < 256) bs ->
  forallb uri_safe (concat (map percent bs)) = true.
Proof.
  induction 1 as [|b bs Hb _ IH]; [reflexivity|].
  cbn [map concat]. rewrite forallb_app, (percent_safe b Hb), IH. reflexivity.
Qed.

Lemma surrogate_pair_scalar hi lo :
  is_lead_surrogate hi = true -> is_trail_surrogate lo = true ->
  is_scalar ((hi - 0xD800) * 0x400 + (lo - 0xDC00) + 0x10000) = true.
Proof.
  unfold is_lead_surrogate, is_trail_surrogate, is_scalar.
  intros Hh Hl.
  apply andb_prop in Hh as [H1 H2]. apply andb_prop in Hl as [H3 H4].
  apply Z.leb_le in H1, H2, H3, H4.
  apply andb_true_intro. split; [apply andb_true_intro; split|].
  - apply Z.leb_le. lia.
  - apply Z.ltb_lt. lia.
  - apply negb_true_iff, andb_false_iff. right. apply Z.leb_gt. lia.
Qed.

Lemma code_unit_scalar c :
  is_code_unit c = true -> is_lead_surrogate c = false ->
  is_trail_surrogate c = false -> is_scalar c = true.
Proof.
  unfold is_code_unit, is_lead_surrogate, is_trail_surrogate, is_scalar.
  intros Hc Hl Ht.
  apply andb_prop in Hc as [H1 H2]. apply Z.leb_le in H1. apply Z.ltb_lt in H2.
  apply andb_true_intro. split; [apply andb_true_intro; split|].
  - apply Z.leb_le. lia.
  - apply Z.ltb_lt. lia.
  - apply negb_true_iff.
    destruct (Z.leb_spec 0xD800 c), (Z.leb_spec c 0xDFFF); try reflexivity.
    destruct (Z.leb_spec c 0xDBFF), (Z.leb_spec 0xDC00 c);
      simpl in *; try discriminate; lia.
Qed.

(** What [encodeURIComponent] returns is made of unreserved characters and
    percent signs. *)
Lemma encodeURIComponent_safe s : forall enc,
  forallb is_code_unit s = true ->
  encodeURIComponent s = Some enc ->
  forallb uri_safe enc = true.
Proof.
  induction s as [s IH] using (well_founded_induction
    (Wf_nat.well_founded_ltof _ (@length Z))).
  unfold Wf_nat.ltof in IH.
  intros enc Hs. destruct s as [|c r]; [intros [= <-]; reflexivity|].
  cbn [forallb] in Hs. apply andb_prop in Hs as [Hc Hr].
  cbn [encodeURIComponent].
  destruct (uri_unreserved c) eqn:Eu.
  { destruct (encodeURIComponent r) as [e|] eqn:Er; [|discriminate].
    intros [= <-]. cbn [forallb]. unfold uri_safe at 1. rewrite Eu.
    apply (IH r); [simpl; lia | exact Hr | exact Er]. }
  destruct (is_trail_surrogate c) eqn:Et; [discriminate|].
  destruct (is_lead_surrogate c) eqn:El.
  { destruct r as [|c2 r2]; [discriminate|].
    destruct (is_trail_surrogate c2) eqn:Et2; [|discriminate].
    destruct (encodeURIComponent r2) as [e|] eqn:Er; [|discriminate].
    intros [= <-]. rewrite forallb_app.
    cbn [forallb] in Hr. apply andb_prop in Hr as [_ Hr2].
    rewrite (percent_all_safe _
               (utf8_encode_range _ (surrogate_pair_scalar c c2 El Et2))).
    apply (IH r2); [simpl; lia | exact Hr2 | exact Er]. }
  destruct (encodeURIComponent r) as [e|] eqn:Er; [|discriminate].
  intros [= <-]. rewrite forallb_app.
  rewrite (percent_all_safe _
             (utf8_encode_range _ (code_unit_scalar c Hc El Et))).
  apply (IH r); [simpl; lia | exact Hr | exact Er].
Qed.

(** An id of unreserved characters is left as it is. *)
Lemma encodeURIComponent_plain s :
  forallb uri_unreserved s = true -> encodeURIComponent s = Some s.
Proof.
  induction s as [|c r IH]; [reflexivity|].
  cbn [forallb encodeURIComponent]. intros H.
  apply andb_prop in H as [-> Hr]. rewrite (IH Hr). reflexivity.
Qed.

(** [encodeURIComponent] throws exactly on ill-formed UTF-16. *)
Lemma encodeURIComponent_throws s :
  encodeURIComponent s = None <-> well_formed s = false.
Proof.
  induction s as [s IH] using (well_founded_induction
    (Wf_nat.well_founded_ltof _ (@length Z))).
  unfold Wf_nat.ltof in IH.
  destruct s as [|c r]; [split; discriminate|].
  cbn [encodeURIComponent well_formed].
  assert (Hmap : forall (f : jsstring -> jsstring) o,
             f <$> o = None <-> o = None)
    by (intros f [x|]; simpl; split; congruence).
  destruct (is_lead_surrogate c) eqn:El.
  - assert (Eu : uri_unreserved c = false).
    { unfold is_lead_surrogate in El. apply andb_prop in El as [H1 H2].
      apply Z.leb_le in H1. unfold uri_unreserved, is_digit.
      repeat match goal with
             | |- context [?a <=? ?b] => destruct (Z.leb_spec a b); try lia
             | |- context [?a =? ?b] => destruct (Z.eqb_spec a b); try lia
             end; reflexivity. }
    assert (Et : is_trail_surrogate c = false).
    { unfold is_lead_surrogate in El. unfold is_trail_surrogate.
      apply andb_prop in El as [H1 H2]. apply Z.leb_le in H2.
      apply andb_false_iff. left. apply Z.leb_gt. lia. }
    rewrite Eu, Et.
    destruct r as [|c2 r2]; [tauto|].
    destruct (is_trail_surrogate c2); simpl; [|tauto].
    rewrite Hmap. apply (IH r2). simpl. lia.
  - destruct (uri_unreserved c) eqn:Eu.
    + assert (Et : is_trail_surrogate c = false).
      { unfold uri_unreserved, is_digit in Eu. unfold is_trail_surrogate.
        destruct (Z.leb_spec 0xDC00 c); [|reflexivity]. exfalso.
        repeat match type of Eu with
               | context [?a <=? ?b] => destruct (Z.leb_spec a b); try lia
               | context [?a =? ?b] => destruct (Z.eqb_spec a b); try lia
               end; discriminate. }
      rewrite Et. simpl. rewrite Hmap. apply (IH r). simpl. lia.
    + destruct (is_trail_surrogate c); simpl; [tauto|].
      rewrite Hmap. apply (IH r). simpl. lia.
Qed.

(** X10. In the URLs of [listFiles], [getFile], [deleteFile] and
    [deleteDataset] the dataset id stands percent-encoded: what is put in
    consists of unreserved characters and percent signs only (so it adds
    no [?], [&], [=], [#] or [/] to the URL), and an id of unreserved
    characters stands as it is.  The file id of [getFile] and
    [deleteFile] is put into the path as it is given. *)
Theorem dataset_id_is_percent_encoded c datasetId fileId enc :
  forallb is_code_unit datasetId = true ->
  encodeURIComponent datasetId = Some enc ->
  forallb uri_safe enc = true
  /\ (forallb uri_unreserved datasetId = true -> enc = datasetId)
  /\ fc_url <$> sent_request c (ListFiles datasetId)
     = Some (baseUrl c ++ lit "/v1/files?datasetId=" ++ enc)
  /\ fc_url <$> sent_request c (GetFile datasetId fileId)
     = Some (baseUrl c ++ lit "/v1/files/" ++ fileId
             ++ lit "?datasetId=" ++ enc)
  /\ fc_url <$> sent_request c (DeleteFile datasetId fileId)
     = Some (baseUrl c ++ lit "/v1/files/" ++ fileId
             ++ lit "?datasetId=" ++ enc)
  /\ fc_url <$> sent_request c (DeleteDataset datasetId)
     = Some (baseUrl c ++ lit "/v1/datasets/" ++ enc ++ lit "/files").
Proof.
  intros Hd Henc.
  split; [exact (encodeURIComponent_safe _ _ Hd Henc)|].
  split.
  { intros Hplain. rewrite (encodeURIComponent_plain _ Hplain) in Henc.
    congruence. }
  unfold sent_request. cbn [request_args]. rewrite Henc.
  repeat split.
Qed.

Lemma dataset_id_is_percent_encoded_witness :
  fc_url <$> sent_request demo_client
               (GetFile (litq "a b&x=1/'?#") (lit "../f1?x"))
  = Some (lit "https://api.easyrag.com/v1/files/../f1?x?datasetId="
          ++ lit "a%20b%26x%3D1%2F%22%3F%23").
Proof.
  destruct (dataset_id_is_percent_encoded demo_client (litq "a b&x=1/'?#")
              (lit "../f1?x") (lit "a%20b%26x%3D1%2F%22%3F%23")
              eq_refl eq_refl) as (_ & _ & _ & Hget & _).
  exact Hget.
Defined.

(** X11. A method sends no request exactly when it puts the dataset id
    into its URL and the id is not well-formed UTF-16 (a surrogate without
    its partner): [listFiles], [getFile], [deleteFile] and
    [deleteDataset] then fail with the [URIError] of
    [encodeURIComponent], not wrapped in an [EasyRAGError], whatever the
    service would do.  The other methods send such an id in their
    body. *)
Theorem ill_formed_dataset_id c op :
  (sent_request c op = None <->
   exists d, dataset_in_url op = Some d /\ well_formed d = false)
  /\ (sent_request c op = None ->
      forall srv, call c op srv = RejectedRaw uri_error).
Proof.
  assert (Hnone : sent_request c op = None <-> request_args op = None).
  { unfold sent_request.
    destruct (request_args op) as [[endpoint opts]|]; simpl;
      split; congruence. }
  split.
  - rewrite Hnone.
    destruct op; cbn [request_args dataset_in_url];
      try (split; [discriminate | intros (d & [=] & _)]);
      (destruct (encodeURIComponent datasetId) as [enc|] eqn:E;
       cbn [mbind option_bind];
       [ split; [discriminate|];
         intros (d & [= <-] & Hw);
         apply encodeURIComponent_throws in Hw; congruence
       | split; [|reflexivity];
         intros _; exists datasetId; split; [reflexivity|];
         apply encodeURIComponent_throws, E ]).
  - intros H srv. apply Hnone in H. unfold call. rewrite H. reflexivity.
Qed.

Lemma ill_formed_dataset_id_witness :
  well_formed (lit "doc" ++ [0xD83D]) = false
  /\ listFiles demo_client (lit "doc" ++ [0xD83D])
       (serve 200 [bytesq "{'success':true,'files':[]}"])
     = RejectedRaw uri_error
  /\ sent_request demo_client (Search (lit "doc" ++ [0xD83D]) (lit "q") [])
     <> None.
Proof.
  split; [reflexivity|]. split.
  - apply (proj2 (ill_formed_dataset_id demo_client
                    (ListFiles (lit "doc" ++ [0xD83D])))).
    apply (proj1 (ill_formed_dataset_id demo_client
                    (ListFiles (lit "doc" ++ [0xD83D])))).
    exists (lit "doc" ++ [0xD83D]). split; reflexivity.
  - intros H.
    apply (proj1 (ill_formed_dataset_id demo_client
                    (Search (lit "doc" ++ [0xD83D]) (lit "q") []))) in H.
    destruct H as (d & Hd & _). discriminate Hd.
Defined.

(* ===================================================================== *)
(** ** Further properties: the stream decoder *)
(* ===================================================================== *)

Lemma read_loop_app cs1 : forall rd cs2,
  read_loop rd (cs1 ++ cs2) =
  let '(rd1, e1) := read_loop rd cs1 in
  let '(rd2, e2) := read_loop rd1 cs2 in
  (rd2, e1 ++ e2).
Proof.
  induction cs1 as [|value cs1 IH]; intros rd cs2.
  - simpl. destruct (read_loop rd cs2); reflexivity.
  - simpl. destruct (read_chunk rd value) as [rd1 e1].
    rewrite IH.
    destruct (read_loop rd1 cs1) as [rd2 e2].
    destruct (read_loop rd2 cs2) as [rd3 e3].
    rewrite app_assoc. reflexivity.
Qed.

(** X12. Events come as the lines complete and are never taken back: once
    the first chunks of a stream have been read, exactly the events of
    the lines completed in them have been yielded, and the chunks that
    follow only add events after these. *)
Theorem events_are_incremental c datasetId question options srv b seen more :
  stream_body c (queryStream_call c datasetId question options) srv = Some b ->
  body_chunks b = seen ++ more ->
  yielded (queryStream c datasetId question options srv) =
  frame_events (complete_lines (stream_text (concat seen)))
  ++ snd (read_loop (fst (read_loop new_Reader seen)) more).
Proof.
  intros Hb Hchunks.
  destruct (queryStream_on_body c datasetId question options srv b Hb)
    as [Hy _].
  rewrite Hy, Hchunks. unfold decode_events.
  rewrite read_loop_app, <- decode_events_spec. unfold decode_events.
  destruct (read_loop new_Reader seen) as [rd1 e1]. cbn [fst snd].
  destruct (read_loop rd1 more) as [rd2 e2]. reflexivity.
Qed.

Lemma events_are_incremental_witness :
  exists later,
    yielded (queryStream demo_client (lit "docs") (lit "hello") []
               (serve 200 three_frames_cut))
    = [StreamDelta (lit "a")] ++ later.
Proof.
  eexists.
  rewrite (events_are_incremental demo_client (lit "docs") (lit "hello") []
             (serve 200 three_frames_cut)
             {| body_chunks := three_frames_cut; body_end := BodyDone 20 |}
             [ bytesq "data: {'del"; bytesq "ta':'a'}" ++ newline ++ bytes "da" ]
             [ bytesq "ta: {'delta':'b'}" ++ newline ++ bytesq "data: {'done'";
               []; bytesq ":true}" ++ newline ]
             eq_refl eq_refl).
  f_equal.
Defined.

Lemma utf8_lead_ok b : utf8_ok (fst (utf8_lead b)).
Proof.
  unfold utf8_lead, utf8_ok.
  repeat match goal with
         | |- context [if ?x then _ else _] => destruct x
         end; simpl; lia.
Qed.

Lemma utf8_handler_ok d b : utf8_ok (fst (utf8_handler d b)).
Proof.
  unfold utf8_handler.
  destruct (utf8_bytes_needed d =? 0); [apply utf8_lead_ok|].
  destruct ((b <? utf8_lower d) || (utf8_upper d <? b)).
  - pose proof (utf8_lead_ok b) as H.
    destruct (utf8_lead b); exact H.
  - destruct (_ =? _); unfold utf8_ok; simpl; lia.
Qed.

Lemma decode_stream_ok bs : forall td,
  utf8_ok (td_decoder td) ->
  utf8_ok (td_decoder (fst (decode_stream td bs))).
Proof.
  induction bs as [|b bs IH]; intros td Htd; [exact Htd|].
  simpl. unfold td_byte.
  pose proof (utf8_handler_ok (td_decoder td) (byte_val b)) as H.
  destruct (utf8_handler (td_decoder td) (byte_val b)) as [d cps].
  destruct (serialize (td_bom_seen td) cps) as [bom out].
  specialize (IH {| td_decoder := d; td_bom_seen := bom |} H).
  destruct (decode_stream _ bs) as [td2 out2]. exact IH.
Qed.

(** A newline byte is never taken into a character: it closes what was
    open and comes out as a newline, leaving the decoder between two
    characters. *)
Lemma newline_byte td :
  utf8_ok (td_decoder td) ->
  exists pre, decode_stream td newline = (td_ready, pre ++ [10]).
Proof.
  intros Hok. unfold newline, decode_stream, td_byte, utf8_handler.
  change (byte_val Byte.x0a) with 10.
  destruct (Z.eqb_spec (utf8_bytes_needed (td_decoder td)) 0) as [E|E].
  - simpl. destruct (td_bom_seen td); exists []; reflexivity.
  - destruct Hok as [Hok|Hok]; [contradiction|].
    destruct (Z.ltb_spec 10 (utf8_lower (td_decoder td))); [|lia].
    simpl. destruct (td_bom_seen td); exists [REPLACEMENT]; reflexivity.
Qed.

Lemma split_snoc sep a : split sep (a ++ [sep]) = split sep a ++ [[]].
Proof.
  induction a as [|x a IH].
  - simpl. rewrite Z.eqb_refl. reflexivity.
  - rewrite <- app_comm_cons, !split_cons, IH.
    pose proof (split_not_nil sep a) as Hne.
    destruct (x =? sep); [reflexivity|].
    destruct (split sep a); [congruence | reflexivity].
Qed.

(** Frames after a text that ends its last line: the lines of that text,
    then the frames. *)
Lemma complete_lines_then_frames text (ls : list jsstring) :
  partial_line text = [] ->
  List.Forall (fun l => List.Forall (fun x => x <> 10) l) ls ->
  complete_lines (text ++ concat (map (fun l => l ++ [10]) ls))
  = complete_lines text ++ ls.
Proof.
  unfold partial_line, complete_lines. intros Hlast Hls.
  rewrite split_app, Hlast. cbn [app].
  rewrite (split_lines 10 ls Hls).
  rewrite app_assoc, List.removelast_last. reflexivity.
Qed.

(** Frames read by a decoder that is between two characters. *)
Lemma events_after_prefix prefix (payloads : list (list Z)) chunks text :
  decode_stream new_TextDecoder prefix = (td_ready, text) ->
  partial_line text = [] ->
  forallb (forallb is_text_char) payloads = true ->
  concat chunks = prefix ++ concat (map frame_of payloads) ->
  decode_events chunks =
  frame_events (complete_lines text)
  ++ omap (fun p => JSON_parse (utf16_text p)) payloads.
Proof.
  intros Hprefix Hlast Hp Hbytes.
  rewrite decode_events_spec, Hbytes. unfold stream_text.
  rewrite decode_stream_app, Hprefix, frames_as_text.
  rewrite (decode_stream_text _ td_ready eq_refl (frames_scalar _ Hp)
             (or_introl eq_refl)).
  cbn [snd]. rewrite frames_text.
  rewrite complete_lines_then_frames, frame_events_app.
  - f_equal. clear.
    induction payloads as [|p ps IH]; [reflexivity|].
    cbn [map omap list_omap]. unfold frame_events in *. cbn [flat_map].
    rewrite IH, startsWith_app.
    unfold slice. rewrite drop_app_length' by reflexivity.
    destruct (JSON_parse (utf16_text p)); reflexivity.
  - exact Hlast.
  - apply List.Forall_forall. intros l Hl.
    apply in_map_iff in Hl as (p & <- & Hin).
    apply List.Forall_app. split; [repeat constructor; discriminate|].
    apply utf16_text_no_newline.
    rewrite forallb_forall in Hp. apply Hp, Hin.
Qed.

(** X13. A newline resynchronises the stream. Whatever bytes come first,
    valid UTF-8 or not, complete lines or not, the frames that follow
    their newline yield the values of their payloads, in order: an
    unfinished character before the newline does not swallow it. *)
Theorem newline_resynchronises c datasetId question options srv b
        junk (payloads : list (list Z)) :
  stream_body c (queryStream_call c datasetId question options) srv = Some b ->
  forallb (forallb is_text_char) payloads = true ->
  concat (body_chunks b) = (junk ++ newline) ++ concat (map frame_of payloads) ->
  yielded (queryStream c datasetId question options srv) =
  decode_events [junk ++ newline]
  ++ omap (fun p => JSON_parse (utf16_text p)) payloads.
Proof.
  intros Hb Hp Hbytes.
  destruct (queryStream_on_body c datasetId question options srv b Hb)
    as [Hy _].
  rewrite Hy.
  pose proof (decode_stream_app new_TextDecoder junk newline) as Happ.
  pose proof (decode_stream_ok junk new_TextDecoder (or_introl eq_refl)) as Hok.
  destruct (decode_stream new_TextDecoder junk) as [td1 t1].
  destruct (newline_byte td1 Hok) as [pre Hnl]. rewrite Hnl in Happ.
  rewrite (events_after_prefix _ payloads _ _ Happ); [| |exact Hp|exact Hbytes].
  - f_equal. rewrite decode_events_spec. cbn [concat]. rewrite app_nil_r.
    unfold stream_text. rewrite Happ. reflexivity.
  - unfold partial_line. rewrite app_assoc, split_snoc.
    rewrite List.last_last. reflexivity.
Qed.

Lemma newline_resynchronises_witness :
  yielded (queryStream demo_client (lit "docs") (lit "hello") []
             (serve 200 [ bytes "data: {" ++ [Byte.xe2; Byte.x82];
                          newline ++ frame "{'delta':'a'}" ]))
  = [StreamDelta (lit "a")].
Proof.
  apply (newline_resynchronises demo_client (lit "docs") (lit "hello") []
           (serve 200 [ bytes "data: {" ++ [Byte.xe2; Byte.x82];
                        newline ++ frame "{'delta':'a'}" ])
           {| body_chunks := [ bytes "data: {" ++ [Byte.xe2; Byte.x82];
                               newline ++ frame "{'delta':'a'}" ];
              body_end := BodyDone 20 |}
           (bytes "data: {" ++ [Byte.xe2; Byte.x82])
           [litq "{'delta':'a'}"]);
    reflexivity.
Defined.

(** X14. A byte order mark at the head of the stream is dropped: the
    frames after it yield the values of their payloads as they do without
    it, the first frame included. *)
Theorem byte_order_mark_is_dropped c datasetId question options srv b
        (payloads : list (list Z)) :
  stream_body c (queryStream_call c datasetId question options) srv = Some b ->
  forallb (forallb is_text_char) payloads = true ->
  concat (body_chunks b) = BOM ++ concat (map frame_of payloads) ->
  yielded (queryStream c datasetId question options srv) =
  omap (fun p => JSON_parse (utf16_text p)) payloads.
Proof.
  intros Hb Hp Hbytes.
  destruct (queryStream_on_body c datasetId question options srv b Hb)
    as [Hy _].
  rewrite Hy.
  rewrite (events_after_prefix BOM payloads _ [] eq_refl eq_refl Hp Hbytes).
  reflexivity.
Qed.

Lemma byte_order_mark_is_dropped_witness :
  yielded (queryStream demo_client (lit "docs") (lit "hello") []
             (serve 200 [ [Byte.xef; Byte.xbb];
                          [Byte.xbf] ++ frame "{'delta':'a'}" ]))
  = [StreamDelta (lit "a")].
Proof.
  apply (byte_order_mark_is_dropped demo_client (lit "docs") (lit "hello") []
           (serve 200 [ [Byte.xef; Byte.xbb];
                        [Byte.xbf] ++ frame "{'delta':'a'}" ])
           {| body_chunks := [ [Byte.xef; Byte.xbb];
                               [Byte.xbf] ++ frame "{'delta':'a'}" ];
              body_end := BodyDone 20 |}
           [litq "{'delta':'a'}"]);
    reflexivity.
Defined.

(* ===================================================================== *)
(** ** The request bodies are JSON that reads back *)
(* ===================================================================== *)

Lemma JValue_nested_ind (P : JValue -> Prop) :
  P JUndefined -> P JNull -> (forall b, P (JBool b)) ->
  (forall n, P (JNum n)) -> (forall s, P (JStr s)) ->
  (forall items, List.Forall P items -> P (JArr items)) ->
  (forall props, List.Forall (fun kv => P (snd kv)) props -> P (JObj props)) ->
  forall v, P v.
Proof.
  intros HU HN HB HNum HS HA HO.
  fix IH 1. intros [ | |b|n|s|items|props];
    [exact HU | exact HN | apply HB | apply HNum | apply HS | | ].
  - apply HA. revert items. fix IHl 1. intros [|x l]; constructor.
    + apply IH.
    + apply IHl.
  - apply HO. revert props. fix IHl 1. intros [|[k x] l]; constructor.
    + apply IH.
    + apply IHl.
Qed.

Lemma JSON_stringify_arr items :
  JSON_stringify (JArr items)
  = Some (lit "[" ++ stringify_elems items ++ lit "]").
Proof.
  reflexivity.
Qed.

Lemma JSON_stringify_obj props :
  JSON_stringify (JObj props)
  = Some (lit "{" ++ stringify_members props true ++ lit "}").
Proof.
  reflexivity.
Qed.

(** *** Strings *)

Lemma hex_val_lower d : 0 <= d < 16 -> hex_val (hex_lower d) = Some d.
Proof.
  intros H.
  assert (d = 0 \/ d = 1 \/ d = 2 \/ d = 3 \/ d = 4 \/ d = 5 \/ d = 6 \/ d = 7
          \/ d = 8 \/ d = 9 \/ d = 10 \/ d = 11 \/ d = 12 \/ d = 13 \/ d = 14
          \/ d = 15) as Hd by lia.
  repeat (destruct Hd as [-> | Hd]; [reflexivity|]). subst. reflexivity.
Qed.

Lemma parse_string_u h1 h2 h3 h4 t :
  parse_string (92 :: 117 :: h1 :: h2 :: h3 :: h4 :: t) =
  match hex_val h1, hex_val h2, hex_val h3, hex_val h4 with
  | Some a, Some b, Some c', Some d =>
      match parse_string t with
      | Some (str, rest) =>
          Some ((a * 4096 + b * 256 + c' * 16 + d) :: str, rest)
      | None => None
      end
  | _, _, _, _ => None
  end.
Proof. reflexivity. Qed.

Lemma parse_string_unicode_escape c t :
  is_code_unit c = true ->
  parse_string (unicode_escape c ++ t) =
  match parse_string t with
  | Some (str, rest) => Some (c :: str, rest)
  | None => None
  end.
Proof.
  unfold is_code_unit. intros Hc. apply andb_prop in Hc as [H0 H1].
  apply Z.leb_le in H0. apply Z.ltb_lt in H1.
  unfold unicode_escape. cbn [app]. rewrite parse_string_u.
  rewrite !hex_val_lower by (apply Z.mod_pos_bound; lia).
  replace (c / 4096 mod 16 * 4096 + c / 256 mod 16 * 256
           + c / 16 mod 16 * 16 + c mod 16) with c
    by (Z.div_mod_to_equations; lia).
  reflexivity.
Qed.

Lemma parse_string_unit c t :
  c <> 34 -> c <> 92 -> 32 <= c ->
  parse_string (c :: t) =
  match parse_string t with
  | Some (str, rest) => Some (c :: str, rest)
  | None => None
  end.
Proof.
  intros H34 H92 H32. cbn [parse_string].
  destruct (Z.eqb_spec c 34); [contradiction|].
  destruct (Z.eqb_spec c 92); [contradiction|].
  destruct (Z.ltb_spec c 32); [lia|]. reflexivity.
Qed.

Lemma parse_string_quote_unit c t :
  is_code_unit c = true ->
  parse_string (quote_unit c ++ t) =
  match parse_string t with
  | Some (str, rest) => Some (c :: str, rest)
  | None => None
  end.
Proof.
  intros Hc. unfold quote_unit.
  destruct (Z.eqb_spec c 8); [subst; reflexivity|].
  destruct (Z.eqb_spec c 9); [subst; reflexivity|].
  destruct (Z.eqb_spec c 10); [subst; reflexivity|].
  destruct (Z.eqb_spec c 12); [subst; reflexivity|].
  destruct (Z.eqb_spec c 13); [subst; reflexivity|].
  destruct (Z.eqb_spec c 34); [subst; reflexivity|].
  destruct (Z.eqb_spec c 92); [subst; reflexivity|].
  destruct (Z.ltb_spec c 32).
  - apply parse_string_unicode_escape, Hc.
  - apply parse_string_unit; assumption.
Qed.

(** What [quote] writes between the quotation marks, [parse_string]
    reads back, up to the closing mark. *)
Lemma parse_string_quote s : forall rest,
  forallb is_code_unit s = true ->
  parse_string (quote_body s ++ 34 :: rest) = Some (s, rest).
Proof.
  induction s as [s IH]
    using (well_founded_induction (Wf_nat.well_founded_ltof _ (@length Z))).
  unfold Wf_nat.ltof in IH. intros rest Hs.
  destruct s as [|c r]; [reflexivity|].
  cbn [forallb] in Hs. apply andb_prop in Hs as [Hc Hr].
  cbn [quote_body].
  destruct (is_lead_surrogate c) eqn:El.
  - unfold is_lead_surrogate in El. apply andb_prop in El as [El _].
    apply Z.leb_le in El.
    destruct r as [|c2 r2].
    + rewrite parse_string_unicode_escape by exact Hc. reflexivity.
    + destruct (is_trail_surrogate c2) eqn:Et.
      * unfold is_trail_surrogate in Et. apply andb_prop in Et as [Et _].
        apply Z.leb_le in Et.
        cbn [forallb] in Hr. apply andb_prop in Hr as [_ Hr2].
        rewrite <- !app_comm_cons.
        rewrite (parse_string_unit c), (parse_string_unit c2) by lia.
        rewrite (IH r2) by (simpl; lia || exact Hr2). reflexivity.
      * rewrite <- app_assoc, parse_string_unicode_escape by exact Hc.
        rewrite (IH (c2 :: r2)) by (simpl; lia || exact Hr). reflexivity.
  - destruct (is_trail_surrogate c).
    + rewrite <- app_assoc, parse_string_unicode_escape by exact Hc.
      rewrite (IH r) by (simpl; lia || exact Hr). reflexivity.
    + rewrite <- app_assoc, parse_string_quote_unit by exact Hc.
      rewrite (IH r) by (simpl; lia || exact Hr). reflexivity.
Qed.

(** *** Objects whose property names are distinct *)

Lemma obj_set_new acc k v :
  has_key acc k = false -> obj_set acc k v = acc ++ [(k, v)].
Proof.
  unfold has_key.
  induction acc as [|[k0 v0] acc IH]; cbn [obj_set existsb fst app];
    [reflexivity|].
  intros H. apply orb_false_elim in H as [H0 H]. rewrite H0, (IH H).
  reflexivity.
Qed.

Lemma distinct_keys_app acc k v props :
  distinct_keys (acc ++ (k, v) :: props) = true ->
  has_key acc k = false /\ distinct_keys ((acc ++ [(k, v)]) ++ props) = true.
Proof.
  rewrite <- app_assoc. cbn [app]. intros H. split; [|exact H].
  induction acc as [|[k0 v0] acc IH]; [reflexivity|].
  cbn [app distinct_keys] in H. apply andb_prop in H as [H0 H].
  unfold has_key in *. cbn [existsb fst]. rewrite (IH H), orb_false_r.
  rewrite existsb_app in H0. cbn [existsb fst] in H0.
  apply negb_true_iff in H0.
  apply orb_false_elim in H0 as [_ H0].
  apply orb_false_elim in H0 as [H0 _].
  rewrite jsstring_eqb_sym. exact H0.
Qed.

(** Defining properties of new names one after the other appends them. *)
Lemma obj_spread_distinct props : forall acc,
  distinct_keys (acc ++ props) = true -> obj_spread acc props = acc ++ props.
Proof.
  induction props as [|[k v] props IH]; intros acc H.
  - rewrite app_nil_r. reflexivity.
  - apply distinct_keys_app in H as [Hk H].
    change (obj_spread acc ((k, v) :: props))
      with (obj_spread (obj_set acc k v) props).
    rewrite (obj_set_new _ _ _ Hk), (IH _ H), <- app_assoc. reflexivity.
Qed.

(** *** Values *)

Lemma parse_value_quote f r :
  parse_value (S f) (34 :: r) =
  match parse_string r with
  | Some (str, rest) => POk (JStr str) rest
  | None => PSyntaxError
  end.
Proof. reflexivity. Qed.

Lemma parse_value_bracket f r :
  parse_value (S f) (91 :: r) =
  match skip_ws r with
  | [] => PSyntaxError
  | c2 :: r2 =>
      if c2 =? 93 then POk (JArr []) r2 else parse_elements f (c2 :: r2) []
  end.
Proof. reflexivity. Qed.

Lemma parse_value_brace f r :
  parse_value (S f) (123 :: r) =
  match skip_ws r with
  | [] => PSyntaxError
  | c2 :: r2 =>
      if c2 =? 125 then POk (JObj []) r2 else parse_members f (c2 :: r2) []
  end.
Proof. reflexivity. Qed.

Lemma skip_ws_start c r : is_ws c = false -> skip_ws (c :: r) = c :: r.
Proof. intros H. cbn [skip_ws]. rewrite H. reflexivity. Qed.

Lemma parse_elements_back items :
  List.Forall parses_back items -> items <> [] ->
  forall acc rest f,
    (2 * length (stringify_elems items ++ 93%Z :: rest) + 2 <= f)%nat ->
    parse_elements f (stringify_elems items ++ 93 :: rest) acc
    = POk (JArr (acc ++ items)) rest.
Proof.
  induction 1 as [|x l (c & t & Hx & Hws & H93 & Hback) Hl IH];
    [congruence|].
  intros _ acc rest f Hf.
  destruct f as [|f]; [lia|].
  rewrite parse_elements_S.
  cbn [stringify_elems] in *. rewrite Hx in *.
  destruct l as [|y l].
  - rewrite app_nil_r in *. rewrite <- app_comm_cons in *.
    rewrite Hback by (cbn [length] in *; lia).
    reflexivity.
  - change (lit "," ++ stringify_elems (y :: l))
      with (44 :: stringify_elems (y :: l)) in *.
    rewrite <- app_assoc, <- !app_comm_cons in *.
    rewrite Hback by (cbn [length] in *; lia).
    rewrite (skip_ws_start 44) by reflexivity.
    change (44 =? 44) with true. cbv iota.
    rewrite IH; [rewrite <- app_assoc; reflexivity|discriminate|].
    cbn [length] in Hf. rewrite length_app in Hf. cbn [length] in Hf. lia.
Qed.

Lemma parse_members_quote f r acc :
  parse_members (S f) (34 :: r) acc =
  match parse_string r with
  | None => PSyntaxError
  | Some (key, rest) =>
      match skip_ws rest with
      | [] => PSyntaxError
      | c2 :: r2 =>
          if c2 =? 58 then
            match parse_value f r2 with
            | POk v rest2 =>
                match skip_ws rest2 with
                | [] => PSyntaxError
                | c3 :: r3 =>
                    if c3 =? 44 then parse_members f r3 (obj_set acc key v)
                    else if c3 =? 125 then POk (JObj (obj_set acc key v)) r3
                    else PSyntaxError
                end
            | PSyntaxError => PSyntaxError
            | POutOfFuel => POutOfFuel
            end
          else PSyntaxError
      end
  end.
Proof. reflexivity. Qed.

Ltac list_lengths :=
  repeat first
    [ progress (cbn [length] in * )
    | match goal with
      | H : context [length (_ ++ _)] |- _ => rewrite length_app in H
      | |- context [length (_ ++ _)] => rewrite length_app
      end ].

Lemma stringify_members_start k x l rest c t :
  JSON_stringify x = Some (c :: t) ->
  stringify_members ((k, x) :: l) true ++ 125 :: rest
  = 34 :: quote_body k
          ++ 34 :: 58 :: c :: t ++ stringify_members l false ++ 125 :: rest.
Proof.
  intros Hx. cbn [stringify_members]. rewrite Hx. unfold quote.
  change (lit ":") with [58].
  repeat (rewrite <- app_assoc || rewrite <- app_comm_cons
          || (progress cbn [app])).
  reflexivity.
Qed.

Lemma stringify_members_next l :
  List.Forall (fun kv : jsstring * JValue => forallb is_code_unit (fst kv) = true
                         /\ parses_back (snd kv)) l ->
  l <> [] ->
  stringify_members l false = 44 :: stringify_members l true.
Proof.
  intros H Hne.
  destruct H as [|[k x] l (_ & c & t & Hx & _) _]; [congruence|].
  cbn [stringify_members snd] in *. rewrite Hx. reflexivity.
Qed.

Lemma parse_members_back props :
  List.Forall (fun kv : jsstring * JValue => forallb is_code_unit (fst kv) = true
                         /\ parses_back (snd kv)) props ->
  props <> [] ->
  forall acc rest f,
    (2 * length (stringify_members props true ++ 125%Z :: rest) + 2 <= f)%nat ->
    parse_members f (stringify_members props true ++ 125 :: rest) acc
    = POk (JObj (obj_spread acc props)) rest.
Proof.
  induction 1 as [|[k x] l (Hk & c & t & Hx & Hws & H93 & Hback) Hl IH];
    [congruence|].
  intros _ acc rest f Hf. cbn [fst snd] in *.
  rewrite (stringify_members_start k x l rest c t Hx) in Hf |- *.
  destruct f as [|f]; [cbn [length] in Hf; lia|].
  rewrite parse_members_quote, (parse_string_quote k _ Hk).
  rewrite (skip_ws_start 58) by reflexivity.
  change (58 =? 58) with true. cbv iota.
  destruct l as [|y l].
  - rewrite Hback by (list_lengths; lia). reflexivity.
  - rewrite (stringify_members_next _ Hl) in Hf |- * by discriminate.
    rewrite <- app_comm_cons in Hf |- *.
    rewrite Hback by (list_lengths; lia).
    rewrite (skip_ws_start 44) by reflexivity.
    change (44 =? 44) with true. cbv iota.
    rewrite IH; [reflexivity|discriminate|].
    list_lengths. lia.
Qed.

Lemma plain_arr items : plain (JArr items) = forallb plain items.
Proof. reflexivity. Qed.

Lemma plain_obj props :
  plain (JObj props)
  = forallb (fun kv => forallb is_code_unit (fst kv) && plain (snd kv)) props
    && distinct_keys props.
Proof. reflexivity. Qed.

(** A value without numbers is read back from its text. *)
Lemma plain_parses_back v : plain v = true -> parses_back v.
Proof.
  induction v as [ | |b|n|s|items IH|props IH] using JValue_nested_ind;
    intros Hp; try discriminate.
  - exists 110, [117; 108; 108].
    split; [reflexivity|]. split; [reflexivity|]. split; [lia|].
    intros rest f Hf. destruct f as [|f]; [lia|].
      destruct rest; reflexivity.
  - destruct b.
    + exists 116, [114; 117; 101].
      split; [reflexivity|]. split; [reflexivity|]. split; [lia|].
      intros rest f Hf. destruct f as [|f]; [lia|].
      destruct rest; reflexivity.
    + exists 102, [97; 108; 115; 101].
      split; [reflexivity|]. split; [reflexivity|]. split; [lia|].
      intros rest f Hf. destruct f as [|f]; [lia|].
      destruct rest; reflexivity.
  - exists 34, (quote_body s ++ [34]).
    split; [reflexivity|]. split; [reflexivity|]. split; [lia|].
    intros rest f Hf. destruct f as [|f]; [lia|].
    rewrite parse_value_quote, <- app_assoc. cbn [app].
    rewrite parse_string_quote by exact Hp. reflexivity.
  - rewrite plain_arr in Hp.
    assert (Hall : List.Forall parses_back items).
    { induction IH as [|x l Hx _ IHl]; constructor;
        cbn [forallb] in Hp; apply andb_prop in Hp as [Hp1 Hp2];
        [apply Hx, Hp1 | apply IHl, Hp2]. }
    exists 91, (stringify_elems items ++ [93]).
    split; [apply JSON_stringify_arr|]. split; [reflexivity|]. split; [lia|].
    intros rest f Hf. destruct f as [|f]; [lia|].
    rewrite parse_value_bracket, <- app_assoc. cbn [app].
    destruct items as [|x l]; [reflexivity|].
    assert (Hfe : (2 * length (stringify_elems (x :: l) ++ 93%Z :: rest) + 2
                   <= f)%nat)
      by (cbn [length] in Hf; rewrite <- app_assoc in Hf; cbn [app] in Hf; lia).
    pose proof (parse_elements_back (x :: l) Hall ltac:(discriminate)
                  [] rest f Hfe) as PE.
    inversion Hall as [|x' l' (c & t & Hx & Hws & H93 & _) _]; subst.
    cbn [stringify_elems] in *. rewrite Hx in *.
    rewrite <- app_assoc, <- app_comm_cons in *.
    rewrite (skip_ws_start c) by exact Hws.
    destruct (Z.eqb_spec c 93); [contradiction|]. exact PE.
  - rewrite plain_obj in Hp. apply andb_prop in Hp as [Hp Hd].
    assert (Hall : List.Forall
                     (fun kv : jsstring * JValue => forallb is_code_unit (fst kv) = true
                                /\ parses_back (snd kv)) props).
    { clear Hd. induction IH as [|x l Hx _ IHl]; constructor;
        cbn [forallb] in Hp; apply andb_prop in Hp as [Hp1 Hp2];
        [|apply IHl, Hp2].
      apply andb_prop in Hp1 as [Hk Hv]. split; [exact Hk | apply Hx, Hv]. }
    exists 123, (stringify_members props true ++ [125]).
    split; [apply JSON_stringify_obj|]. split; [reflexivity|]. split; [lia|].
    intros rest f Hf. destruct f as [|f]; [lia|].
    rewrite parse_value_brace, <- app_assoc. cbn [app].
    destruct props as [|[k x] l]; [reflexivity|].
    assert (Hfe : (2 * length (stringify_members ((k, x) :: l) true
                               ++ 125%Z :: rest) + 2 <= f)%nat)
      by (cbn [length] in Hf; rewrite <- app_assoc in Hf; cbn [app] in Hf; lia).
    pose proof (parse_members_back ((k, x) :: l) Hall ltac:(discriminate)
                  [] rest f Hfe) as PE.
    rewrite (obj_spread_distinct _ [] Hd) in PE. cbn [app] in PE.
    inversion Hall as [|x' l' (_ & c & t & Hx & _) _]; subst.
    cbn [snd] in Hx.
    rewrite (stringify_members_start k x l rest c t Hx) in PE |- *.
    rewrite (skip_ws_start 34) by reflexivity.
    change (34 =? 125) with false. cbv iota. exact PE.
Qed.

(** [JSON.parse(JSON.stringify(v))] is [v] for a value without numbers. *)
Lemma JSON_parse_stringify v :
  plain v = true ->
  exists t, JSON_stringify v = Some t /\ JSON_parse t = Some v.
Proof.
  intros Hp.
  destruct (plain_parses_back v Hp) as (c & t & Hs & _ & _ & Hback).
  exists (c :: t). split; [exact Hs|].
  unfold JSON_parse.
  specialize (Hback [] (parse_fuel (c :: t))). rewrite app_nil_r in Hback.
  rewrite Hback; [reflexivity | unfold parse_fuel; lia].
Qed.

Lemma plain_obj_set acc k v :
  plain (JObj acc) = true -> forallb is_code_unit k = true ->
  plain v = true -> plain (JObj (obj_set acc k v)) = true.
Proof.
  rewrite !plain_obj. intros H Hk Hv. apply andb_prop in H as [H Hd].
  rewrite (distinct_keys_set _ k v Hd), andb_true_r. clear Hd.
  induction acc as [|[k0 v0] acc IH]; cbn [obj_set forallb fst snd].
  - rewrite Hk, Hv. reflexivity.
  - cbn [forallb fst snd] in H. apply andb_prop in H as [H0 H].
    destruct (jsstring_eqb k0 k); cbn [forallb fst snd].
    + rewrite Hk, Hv, H. reflexivity.
    + rewrite H0, (IH H). reflexivity.
Qed.

Lemma plain_obj_spread options : forall acc,
  plain (JObj acc) = true -> plain (JObj options) = true ->
  plain (JObj (obj_spread acc options)) = true.
Proof.
  induction options as [|[k v] options IH]; intros acc Ha Ho; [exact Ha|].
  change (obj_spread acc ((k, v) :: options))
    with (obj_spread (obj_set acc k v) options).
  rewrite plain_obj in Ho. cbn [forallb distinct_keys fst snd] in Ho.
  apply andb_prop in Ho as [Ho Hd]. apply andb_prop in Ho as [Hkv Ho].
  apply andb_prop in Hkv as [Hk Hv]. apply andb_prop in Hd as [_ Hd].
  apply IH.
  - apply plain_obj_set; assumption.
  - rewrite plain_obj, Ho, Hd. reflexivity.
Qed.

(** X15. The bodies of [search], [query] and [queryStream] read back:
    whatever code units the dataset id and the question are made of
    (quotation marks, reverse solidi, control characters, lone
    surrogates), and for options built of [null], booleans, strings,
    arrays and objects, the body is a JSON text that [JSON.parse] reads
    as the object the method spread, with nothing added and nothing
    lost. *)
Theorem request_body_reads_back c datasetId question options :
  forallb is_code_unit datasetId = true ->
  forallb is_code_unit question = true ->
  plain (JObj options) = true ->
  let fixed := [(lit "datasetId", JStr datasetId);
                (lit "question", JStr question)] in
  (exists t,
      fc_body <$> sent_request c (Search datasetId question options)
      = Some (Some (BodyString t))
      /\ JSON_parse t = Some (JObj (obj_spread fixed options)))
  /\ (exists t,
         fc_body <$> sent_request c (Query datasetId question options)
         = Some (Some (BodyString t))
         /\ JSON_parse t
            = Some (JObj (obj_spread (fixed ++ [(lit "stream", JBool false)])
                                     options)))
  /\ (exists t,
         fc_body (queryStream_call c datasetId question options)
         = Some (BodyString t)
         /\ JSON_parse t
            = Some (JObj (obj_spread (fixed ++ [(lit "stream", JBool true)])
                                     options))).
Proof.
  intros Hd Hq Ho fixed.
  assert (Hfixed : forall b,
             plain (JObj (fixed ++ [(lit "stream", JBool b)])) = true).
  { intros b. rewrite plain_obj. subst fixed.
    cbn [app forallb fst snd plain]. rewrite Hd, Hq. reflexivity. }
  assert (Hfixed0 : plain (JObj fixed) = true).
  { rewrite plain_obj. subst fixed.
    cbn [app forallb fst snd plain]. rewrite Hd, Hq. reflexivity. }
  split; [|split].
  - destruct (JSON_parse_stringify _ (plain_obj_spread options _ Hfixed0 Ho))
      as (t & Hs & Hp).
    exists t. split; [|exact Hp].
    change (fc_body <$> sent_request c (Search datasetId question options))
      with (Some (BodyString <$>
                    JSON_stringify (JObj (obj_spread fixed options)))).
    rewrite Hs. reflexivity.
  - destruct (JSON_parse_stringify _
                (plain_obj_spread options _ (Hfixed false) Ho))
      as (t & Hs & Hp).
    exists t. split; [|exact Hp].
    change (fc_body <$> sent_request c (Query datasetId question options))
      with (Some (BodyString <$>
                    JSON_stringify
                      (JObj (obj_spread
                               (fixed ++ [(lit "stream", JBool false)])
                               options)))).
    rewrite Hs. reflexivity.
  - destruct (JSON_parse_stringify _
                (plain_obj_spread options _ (Hfixed true) Ho))
      as (t & Hs & Hp).
    exists t. split; [|exact Hp].
    change (fc_body (queryStream_call c datasetId question options))
      with (BodyString <$>
              JSON_stringify
                (JObj (obj_spread (fixed ++ [(lit "stream", JBool true)])
                                  options))).
    rewrite Hs. reflexivity.
Qed.

Lemma request_body_reads_back_witness :
  exists t,
    fc_body <$> sent_request demo_client
                  (Search (lit "docs") (litq "say 'hi'")
                     [(lit "filters",
                       JArr [SearchFilter (lit "department")
                               (JStr (lit "legal"))])])
    = Some (Some (BodyString t))
    /\ JSON_parse t
       = Some (JObj [(lit "datasetId", JStr (lit "docs"));
                     (lit "question", JStr (litq "say 'hi'"));
                     (lit "filters",
                      JArr [SearchFilter (lit "department")
                              (JStr (lit "legal"))])]).
Proof.
  exact (proj1 (request_body_reads_back demo_client (lit "docs")
                  (litq "say 'hi'")
                  [(lit "filters",
                    JArr [SearchFilter (lit "department")
                            (JStr (lit "legal"))])]
                  eq_refl eq_refl eq_refl)).
Defined.

(* ===================================================================== *)
(** ** A carriage return before the newline *)
(* ===================================================================== *)

Lemma skip_ws_cr s :
  skip_ws (s ++ [13]) =
  match skip_ws s with [] => [] | c :: r => c :: r ++ [13] end.
Proof.
  induction s as [|a s IH]; [reflexivity|].
  cbn [app skip_ws]. destruct (is_ws a); [exact IH | reflexivity].
Qed.

Lemma parse_string_cons c r :
  parse_string (c :: r) =
  if c =? 34 then Some ([], r)
  else if c =? 92 then
    match r with
    | [] => None
    | e :: r1 =>
        if e =? 117 then
          match r1 with
          | h1 :: h2 :: h3 :: h4 :: r2 =>
              match hex_val h1, hex_val h2, hex_val h3, hex_val h4 with
              | Some a, Some b, Some c', Some d =>
                  match parse_string r2 with
                  | Some (str, rest) =>
                      Some ((a * 4096 + b * 256 + c' * 16 + d) :: str, rest)
                  | None => None
                  end
              | _, _, _, _ => None
              end
          | _ => None
          end
        else
          match escape_char e with
          | Some x =>
              match parse_string r1 with
              | Some (str, rest) => Some (x :: str, rest)
              | None => None
              end
          | None => None
          end
    end
  else if c <? 32 then None
  else
    match parse_string r with
    | Some (str, rest) => Some (c :: str, rest)
    | None => None
    end.
Proof. reflexivity. Qed.

Lemma parse_string_cr s :
  parse_string (s ++ [13]) = with_cr (parse_string s).
Proof.
  induction s as [s IH]
    using (well_founded_induction (Wf_nat.well_founded_ltof _ (@length Z))).
  unfold Wf_nat.ltof in IH.
  destruct s as [|c r]; [reflexivity|].
  rewrite <- app_comm_cons, !parse_string_cons.
  destruct (c =? 34); [reflexivity|].
  destruct (c =? 92).
  - destruct r as [|e r1]; [reflexivity|].
    rewrite <- app_comm_cons.
    destruct (e =? 117).
    + destruct r1 as [|h1 [|h2 [|h3 [|h4 r2]]]]; cbn [app].
      * reflexivity.
      * reflexivity.
      * reflexivity.
      * destruct (hex_val h1), (hex_val h2), (hex_val h3); reflexivity.
      * rewrite (IH r2) by (simpl; lia).
        destruct (hex_val h1), (hex_val h2), (hex_val h3), (hex_val h4);
          try reflexivity.
        destruct (parse_string r2) as [[str rest]|]; reflexivity.
    + rewrite (IH r1) by (simpl; lia).
      destruct (escape_char e); [|reflexivity].
      destruct (parse_string r1) as [[str rest]|]; reflexivity.
  - destruct (c <? 32); [reflexivity|].
    rewrite (IH r) by (simpl; lia).
    destruct (parse_string r) as [[str rest]|]; reflexivity.
Qed.

Lemma take_digits_cr s :
  take_digits (s ++ [13]) =
  let '(ds, rest) := take_digits s in (ds, rest ++ [13]).
Proof.
  induction s as [|a s IH]; [reflexivity|].
  cbn [app take_digits]. destruct (is_digit a); [|reflexivity].
  rewrite IH. destruct (take_digits s). reflexivity.
Qed.

Lemma parse_frac_cr s : parse_frac (s ++ [13]) = with_cr (parse_frac s).
Proof.
  destruct s as [|c r]; [reflexivity|].
  unfold parse_frac. cbn [app]. destruct (c =? 46); [|reflexivity].
  rewrite take_digits_cr.
  destruct (take_digits r) as [[|d ds] rest]; reflexivity.
Qed.

Lemma parse_exp_cr s : parse_exp (s ++ [13]) = with_cr (parse_exp s).
Proof.
  destruct s as [|c r]; [reflexivity|].
  unfold parse_exp. cbn [app]. destruct ((c =? 101) || (c =? 69));
    [|reflexivity].
  destruct r as [|c1 r']; [reflexivity|].
  cbn [app].
  destruct (c1 =? 45); [|destruct (c1 =? 43)];
    rewrite ?app_comm_cons, take_digits_cr;
    match goal with
    | |- context [take_digits ?x] =>
        destruct (take_digits x) as [[|d ds] rest]; reflexivity
    end.
Qed.

Lemma parse_number_tail_cr (neg : bool) (int_ds : list Z) s2 :
  match parse_frac (s2 ++ [13]) with
  | None => None
  | Some (fd, s3) =>
      match parse_exp s3 with
      | None => None
      | Some (ex, s4) =>
          let m := digits_value (int_ds ++ fd) in
          Some (num_round (Dec (if neg then - m else m)
                              (ex - Z.of_nat (length fd))), s4)
      end
  end =
  with_cr
    match parse_frac s2 with
    | None => None
    | Some (fd, s3) =>
        match parse_exp s3 with
        | None => None
        | Some (ex, s4) =>
            let m := digits_value (int_ds ++ fd) in
            Some (num_round (Dec (if neg then - m else m)
                                (ex - Z.of_nat (length fd))), s4)
        end
    end.
Proof.
  rewrite parse_frac_cr.
  destruct (parse_frac s2) as [[fd s3]|]; [|reflexivity].
  cbn [with_cr]. rewrite parse_exp_cr.
  destruct (parse_exp s3) as [[ex s4]|]; reflexivity.
Qed.

Lemma parse_number_digits_cr (neg : bool) c r :
  match (if is_digit c
         then Some (if c =? 48 then ([0], r ++ [13])
                    else take_digits (c :: r ++ [13]))
         else None) with
  | Some (int_ds, s2) =>
      match parse_frac s2 with
      | None => None
      | Some (fd, s3) =>
          match parse_exp s3 with
          | None => None
          | Some (ex, s4) =>
              let m := digits_value (int_ds ++ fd) in
              Some (num_round (Dec (if neg then - m else m)
                                  (ex - Z.of_nat (length fd))), s4)
          end
      end
  | None => None
  end =
  with_cr
    match (if is_digit c
           then Some (if c =? 48 then ([0], r) else take_digits (c :: r))
           else None) with
    | Some (int_ds, s2) =>
        match parse_frac s2 with
        | None => None
        | Some (fd, s3) =>
            match parse_exp s3 with
            | None => None
            | Some (ex, s4) =>
                let m := digits_value (int_ds ++ fd) in
                Some (num_round (Dec (if neg then - m else m)
                                    (ex - Z.of_nat (length fd))), s4)
            end
        end
    | None => None
    end.
Proof.
  destruct (is_digit c); [|reflexivity].
  destruct (c =? 48); [apply parse_number_tail_cr|].
  rewrite app_comm_cons, take_digits_cr.
  destruct (take_digits (c :: r)) as [int_ds s2].
  apply parse_number_tail_cr.
Qed.

Lemma parse_number_cr s : parse_number (s ++ [13]) = with_cr (parse_number s).
Proof.
  destruct s as [|c r]; [reflexivity|].
  unfold parse_number. cbn [app].
  destruct (c =? 45).
  - destruct r as [|c' r']; [reflexivity|]. cbn [app].
    pose proof (parse_number_digits_cr true c' r') as H.
    destruct (is_digit c'); [|reflexivity].
    destruct (c' =? 48); [exact H|].
    destruct (take_digits (c' :: r' ++ [13])),
             (take_digits (c' :: r')); exact H.
  - pose proof (parse_number_digits_cr false c r) as H.
    destruct (is_digit c); [|reflexivity].
    destruct (c =? 48); [exact H|].
    destruct (take_digits (c :: r ++ [13])),
             (take_digits (c :: r)); exact H.
Qed.

Lemma startsWith_cr p : forall s,
  forallb (fun x => negb (x =? 13)) p = true ->
  startsWith (s ++ [13]) p = startsWith s p.
Proof.
  induction p as [|x p IH]; intros s Hp; [destruct s; reflexivity|].
  cbn [forallb] in Hp. apply andb_prop in Hp as [Hx Hp].
  destruct s as [|y s]; cbn [app startsWith].
  - apply negb_true_iff in Hx. rewrite Hx. reflexivity.
  - rewrite (IH _ Hp). reflexivity.
Qed.

Lemma drop_cr n p : forall s,
  n = length p ->
  startsWith s p = true ->
  drop n (s ++ [13]) = drop n s ++ [13].
Proof.
  intros s ->. revert s.
  induction p as [|x p IH]; intros s H; [reflexivity|].
  destruct s as [|y s]; [discriminate|].
  cbn [startsWith] in H. apply andb_prop in H as [_ H].
  cbn [length app drop]. apply IH, H.
Qed.

(** The parser on a text with a carriage return after it. *)
Lemma parse_value_cr f :
  (forall s, parse_value f (s ++ [13]) = parse_with_cr (parse_value f s))
  /\ (forall s acc, parse_elements f (s ++ [13]) acc
                    = parse_with_cr (parse_elements f s acc))
  /\ (forall s acc, parse_members f (s ++ [13]) acc
                    = parse_with_cr (parse_members f s acc)).
Proof.
  induction f as [|f (IHv & IHe & IHm)]; [repeat split; reflexivity|].
  split; [|split].
  - intros s. rewrite !parse_value_S, skip_ws_cr.
    destruct (skip_ws s) as [|c r]; [reflexivity|].
    destruct (c =? 123).
    { rewrite skip_ws_cr. destruct (skip_ws r) as [|c2 r2]; [reflexivity|].
      destruct (c2 =? 125); [reflexivity|].
      rewrite app_comm_cons. apply IHm. }
    destruct (c =? 91).
    { rewrite skip_ws_cr. destruct (skip_ws r) as [|c2 r2]; [reflexivity|].
      destruct (c2 =? 93); [reflexivity|].
      rewrite app_comm_cons. apply IHe. }
    destruct (c =? 34).
    { rewrite parse_string_cr.
      destruct (parse_string r) as [[str rest]|]; reflexivity. }
    rewrite !app_comm_cons.
    rewrite !startsWith_cr by reflexivity.
    destruct (startsWith (c :: r) (lit "true")) eqn:Et.
    { rewrite (drop_cr 4 (lit "true") _ eq_refl Et). reflexivity. }
    destruct (startsWith (c :: r) (lit "false")) eqn:Ef.
    { rewrite (drop_cr 5 (lit "false") _ eq_refl Ef). reflexivity. }
    destruct (startsWith (c :: r) (lit "null")) eqn:En.
    { rewrite (drop_cr 4 (lit "null") _ eq_refl En). reflexivity. }
    rewrite parse_number_cr.
    destruct (parse_number (c :: r)) as [[n rest]|]; reflexivity.
  - intros s acc. rewrite !parse_elements_S, IHv.
    destruct (parse_value f s) as [v rest| |]; try reflexivity.
    cbn [parse_with_cr]. rewrite skip_ws_cr.
    destruct (skip_ws rest) as [|c r]; [reflexivity|].
    destruct (c =? 44); [apply IHe|].
    destruct (c =? 93); reflexivity.
  - intros s acc. rewrite !parse_members_S, skip_ws_cr.
    destruct (skip_ws s) as [|c r]; [reflexivity|].
    destruct (c =? 34); [|reflexivity].
    rewrite parse_string_cr.
    destruct (parse_string r) as [[key rest]|]; [|reflexivity].
    cbn [with_cr]. rewrite skip_ws_cr.
    destruct (skip_ws rest) as [|c2 r2]; [reflexivity|].
    destruct (c2 =? 58); [|reflexivity].
    rewrite IHv.
    destruct (parse_value f r2) as [v rest2| |]; try reflexivity.
    cbn [parse_with_cr]. rewrite skip_ws_cr.
    destruct (skip_ws rest2) as [|c3 r3]; [reflexivity|].
    destruct (c3 =? 44); [apply IHm|].
    destruct (c3 =? 125); reflexivity.
Qed.

(** More fuel than enough changes nothing. *)
Lemma parse_fuel_stable f :
  (forall s, parse_value f s <> POutOfFuel ->
             parse_value (S f) s = parse_value f s)
  /\ (forall s acc, parse_elements f s acc <> POutOfFuel ->
                    parse_elements (S f) s acc = parse_elements f s acc)
  /\ (forall s acc, parse_members f s acc <> POutOfFuel ->
                    parse_members (S f) s acc = parse_members f s acc).
Proof.
  induction f as [|f (IHv & IHe & IHm)];
    [repeat split; intros; exfalso; auto|].
  split; [|split].
  - intros s H. rewrite (parse_value_S (S f)). rewrite parse_value_S in H |- *.
    destruct (skip_ws s) as [|c r]; [reflexivity|].
    destruct (c =? 123).
    { destruct (skip_ws r) as [|c2 r2]; [reflexivity|].
      destruct (c2 =? 125); [reflexivity|]. apply IHm, H. }
    destruct (c =? 91).
    { destruct (skip_ws r) as [|c2 r2]; [reflexivity|].
      destruct (c2 =? 93); [reflexivity|]. apply IHe, H. }
    reflexivity.
  - intros s acc H. rewrite (parse_elements_S (S f)).
    rewrite parse_elements_S in H |- *.
    destruct (parse_value f s) as [v rest| |] eqn:E.
    + rewrite (IHv s) by (rewrite E; discriminate). rewrite E.
      destruct (skip_ws rest) as [|c r]; [reflexivity|].
      destruct (c =? 44); [apply IHe, H | reflexivity].
    + rewrite (IHv s) by (rewrite E; discriminate). rewrite E. reflexivity.
    + contradiction.
  - intros s acc H. rewrite (parse_members_S (S f)).
    rewrite parse_members_S in H |- *.
    destruct (skip_ws s) as [|c r]; [reflexivity|].
    destruct (c =? 34); [|reflexivity].
    destruct (parse_string r) as [[key rest]|]; [|reflexivity].
    destruct (skip_ws rest) as [|c2 r2]; [reflexivity|].
    destruct (c2 =? 58); [|reflexivity].
    destruct (parse_value f r2) as [v rest2| |] eqn:E.
    + rewrite (IHv r2) by (rewrite E; discriminate). rewrite E.
      destruct (skip_ws rest2) as [|c3 r3]; [reflexivity|].
      destruct (c3 =? 44); [apply IHm, H | reflexivity].
    + rewrite (IHv r2) by (rewrite E; discriminate). rewrite E. reflexivity.
    + contradiction.
Qed.

(** [JSON.parse] takes a carriage return after the value for the white
    space it is. *)
Lemma JSON_parse_cr text : JSON_parse (text ++ [13]) = JSON_parse text.
Proof.
  unfold JSON_parse.
  replace (parse_fuel (text ++ [13])) with (S (S (parse_fuel text)))
    by (unfold parse_fuel; rewrite length_app; cbn [length]; lia).
  rewrite (proj1 (parse_value_cr _)).
  pose proof (JSON_parse_fuel_suffices text) as Hfuel.
  pose proof (proj1 (parse_fuel_stable (parse_fuel text)) text Hfuel) as H1.
  rewrite (proj1 (parse_fuel_stable (S (parse_fuel text))) text)
    by (rewrite H1; exact Hfuel).
  rewrite H1.
  destruct (parse_value (parse_fuel text) text) as [v rest| |];
    try reflexivity.
  cbn [parse_with_cr]. rewrite skip_ws_cr.
  destruct (skip_ws rest); reflexivity.
Qed.

(** X16. Lines that end in a carriage return and a newline do as lines
    that end in a newline: the return stays on the line after the split,
    and [JSON.parse] takes it for white space, so each frame yields the
    value of its payload, or nothing when the payload is not JSON. *)
Theorem carriage_return_is_tolerated c datasetId question options srv b
        (payloads : list (list Z)) :
  stream_body c (queryStream_call c datasetId question options) srv = Some b ->
  forallb (forallb is_text_char) payloads = true ->
  concat (body_chunks b)
  = concat (map (fun p => frame_of (p ++ [13])) payloads) ->
  yielded (queryStream c datasetId question options srv) =
  omap (fun p => JSON_parse (utf16_text p)) payloads.
Proof.
  intros Hb Hp Hbytes.
  destruct (queryStream_on_body c datasetId question options srv b Hb)
    as [Hy _].
  rewrite Hy.
  rewrite (decode_events_frames (map (fun p => p ++ [13]) payloads)).
  - clear. induction payloads as [|p ps IH]; [reflexivity|].
    cbn [map omap list_omap]. rewrite IH, utf16_text_app.
    change (utf16_text [13]) with [13]. rewrite JSON_parse_cr. reflexivity.
  - clear -Hp. induction payloads as [|p ps IH]; [reflexivity|].
    cbn [map forallb] in *. apply andb_prop in Hp as [Hp1 Hp2].
    rewrite forallb_app, Hp1, (IH Hp2). reflexivity.
  - rewrite Hbytes, map_map. reflexivity.
Qed.

Lemma carriage_return_is_tolerated_witness :
  yielded (queryStream demo_client (lit "docs") (lit "hello") []
             (serve 200 [ bytesq "data: {'delta':'a'}" ++ [Byte.x0d];
                          newline ++ bytes "data: oops"
                          ++ [Byte.x0d; Byte.x0a] ]))
  = [StreamDelta (lit "a")].
Proof.
  apply (carriage_return_is_tolerated demo_client (lit "docs") (lit "hello") []
           (serve 200 [ bytesq "data: {'delta':'a'}" ++ [Byte.x0d];
                        newline ++ bytes "data: oops"
                        ++ [Byte.x0d; Byte.x0a] ])
           {| body_chunks := [ bytesq "data: {'delta':'a'}" ++ [Byte.x0d];
                               newline ++ bytes "data: oops"
                               ++ [Byte.x0d; Byte.x0a] ];
              body_end := BodyDone 20 |}
           [litq "{'delta':'a'}"; lit "oops"]);
    reflexivity.
Defined.

(* ===================================================================== *)
(** ** The end of the stream *)
(* ===================================================================== *)

Lemma split_no_sep sep s :
  List.Forall (fun c => c <> sep) s -> split sep s = [s].
Proof.
  induction 1 as [|c s Hc _ IH]; [reflexivity|].
  rewrite split_cons, IH.
  destruct (Z.eqb_spec c sep); [contradiction | reflexivity].
Qed.

(** The events of the lines of frames. *)
Lemma frame_events_payloads (payloads : list (list Z)) :
  frame_events (map (fun p => lit "data: " ++ utf16_text p) payloads)
  = omap (fun p => JSON_parse (utf16_text p)) payloads.
Proof.
  induction payloads as [|p ps IH]; [reflexivity|].
  cbn [map omap list_omap]. unfold frame_events in *. cbn [flat_map].
  rewrite IH, startsWith_app.
  unfold slice. rewrite drop_app_length' by reflexivity.
  destruct (JSON_parse (utf16_text p)); reflexivity.
Qed.

(** Text without a newline decodes to text without a newline, a byte
    order mark at its head dropped or not. *)
Lemma text_no_newline cps td :
  td_decoder td = utf8_initial ->
  forallb is_text_char cps = true ->
  List.Forall (fun c => c <> 10) (snd (decode_stream td (utf8_text cps))).
Proof.
  intros Htd Hcps.
  destruct td as [d seen]. cbn [td_decoder] in Htd. subst d.
  destruct seen.
  - rewrite decode_stream_text;
      [|reflexivity|apply is_text_char_scalar, Hcps|left; reflexivity].
    apply utf16_text_no_newline, Hcps.
  - destruct cps as [|cp cps]; [constructor|].
    destruct (Z.eq_dec cp 0xFEFF) as [->|Hne].
    + cbn [forallb] in Hcps. apply andb_prop in Hcps as [_ Hcps].
      change (utf8_text (0xFEFF :: cps)) with (BOM ++ utf8_text cps).
      rewrite decode_stream_app.
      change (decode_stream {| td_decoder := utf8_initial;
                               td_bom_seen := false |} BOM)
        with (td_ready, @nil Z).
      cbv beta iota.
      rewrite decode_stream_text;
        [|reflexivity|apply is_text_char_scalar, Hcps|left; reflexivity].
      cbn [snd app].
      apply utf16_text_no_newline, Hcps.
    + rewrite decode_stream_text;
        [|reflexivity|apply is_text_char_scalar, Hcps|right; exact Hne].
      apply utf16_text_no_newline, Hcps.
Qed.

(** X17. What follows the last newline is lost: when the body ends, in
    whatever way, after frames and a text without newline, the frames
    have yielded the values of their payloads and the text yields
    nothing, a complete [data: ] line with a JSON payload included. *)
Theorem unterminated_line_is_lost c datasetId question options srv b
        (payloads : list (list Z)) tail :
  stream_body c (queryStream_call c datasetId question options) srv = Some b ->
  forallb (forallb is_text_char) payloads = true ->
  forallb is_text_char tail = true ->
  concat (body_chunks b) = concat (map frame_of payloads) ++ utf8_text tail ->
  yielded (queryStream c datasetId question options srv) =
  omap (fun p => JSON_parse (utf16_text p)) payloads.
Proof.
  intros Hb Hp Htail Hbytes.
  destruct (queryStream_on_body c datasetId question options srv b Hb)
    as [Hy _].
  rewrite Hy, decode_events_spec, Hbytes. unfold stream_text.
  rewrite decode_stream_app, frames_as_text.
  rewrite (decode_stream_text _ new_TextDecoder eq_refl (frames_scalar _ Hp))
    by (right; destruct payloads; simpl; discriminate).
  match goal with
  | |- context [decode_stream ?td (utf8_text tail)] =>
      assert (Htd : td_decoder td = utf8_initial)
        by (destruct (concat (map (fun p => marker ++ p ++ [10]) payloads));
            reflexivity);
      pose proof (text_no_newline tail td Htd Htail) as Hno;
      destruct (decode_stream td (utf8_text tail)) as [td2 o2]
  end.
  cbn [snd] in *. rewrite frames_text. unfold complete_lines.
  rewrite split_app, split_lines.
  - rewrite List.last_last, List.removelast_last. cbn [app].
    rewrite (split_no_sep _ _ Hno), List.removelast_last.
    apply frame_events_payloads.
  - apply List.Forall_forall. intros l Hl.
    apply in_map_iff in Hl as (p & <- & Hin).
    apply List.Forall_app. split; [repeat constructor; discriminate|].
    apply utf16_text_no_newline.
    rewrite forallb_forall in Hp. apply Hp, Hin.
Qed.

Lemma unterminated_line_is_lost_witness :
  yielded (queryStream demo_client (lit "docs") (lit "hello") []
             (serve 200 [ frame "{'delta':'a'}";
                          bytes "data: " ++ bytesq "{'done':true}" ]))
  = [StreamDelta (lit "a")].
Proof.
  apply (unterminated_line_is_lost demo_client (lit "docs") (lit "hello") []
           (serve 200 [ frame "{'delta':'a'}";
                        bytes "data: " ++ bytesq "{'done':true}" ])
           {| body_chunks := [ frame "{'delta':'a'}";
                               bytes "data: " ++ bytesq "{'done':true}" ];
              body_end := BodyDone 20 |}
           [litq "{'delta':'a'}"]
           (lit "data: " ++ litq "{'done':true}"));
    reflexivity.
Defined.
